(** * Hydra adapters: material network conversion, GLSLFX shader reload,
      OIT volume render task

    A shallow embedding of
    - [third_party/renderman-24/plugin/hdPrman/material.cpp]
      (conversion of an [HdMaterialNetwork2] into Riley shading nodes),
    - [pxr/imaging/hdSt/glslfxShader.cpp] ([HdStGLSLFXShader::Reload]),
    - [pxr/imaging/hdx/oitVolumeRenderTask.cpp]
      ([HdxOitVolumeRenderTask::Execute]),
    followed by the properties proved about them. *)

From Stdlib Require Import ZArith Ascii String.
From Stdlib Require Import Floats.SpecFloat.
From stdpp Require Import base tactics option list relations gmap sets strings.

Set Default Proof Using "Type".

(** ** Tokens, paths and numbers *)

Module Material.

(** Modelled from the spec: [TfToken] and [SdfPath] (type identifiers,
    names and node-paths, declared in pxr/base/tf and pxr/usd/sdf) are
    unique identifiers; the code only compares them and prints their text,
    so each is its text. *)
Definition TfToken := string.
Definition SdfPath := string.

(** [float] is IEEE binary32 and [double] binary64, both as [spec_float]. *)
Definition float := spec_float.
Definition double := spec_float.

Definition INT_MIN : Z := (- 2 ^ 31)%Z.
Definition INT_MAX : Z := (2 ^ 31 - 1)%Z.

(** Implicit conversion [int -> float]: round to nearest even, binary32. *)
Definition float_of_int (v : Z) : float := binary_normalize 24 128 v 0 false.

(** Implicit conversion [double -> float] (used by [RtColorRGB(v[0], ...)]
    on a [GfVec3d] and by [_ConvertToVec3fArray]). *)
Definition float_of_double (d : double) : float :=
  match d with
  | S754_finite s m e => binary_normalize 24 128 (cond_Zopp s (Zpos m)) e s
  | _ => d
  end.

(** [int(v)] on a float: truncation toward zero.  Outside the range of
    [int] (and on NaN and infinities) the C++ conversion is undefined; the
    model returns [INT_MIN] there, as the x86 conversion instruction does. *)
Definition int_of_float (f : float) : Z :=
  match f with
  | S754_zero _ => 0%Z
  | S754_finite s m e =>
      let t := (if (0 <=? e)%Z then Zpos m * 2 ^ e
                else Z.quot (Zpos m) (2 ^ (- e)))%Z in
      let v := cond_Zopp s t in
      if ((INT_MIN <=? v) && (v <=? INT_MAX))%Z then v else INT_MIN
  | _ => INT_MIN
  end.

(** The 32 bits of an [int] read as a binary32: what a [const float*] to
    [int] storage yields. *)
Definition float_of_int_bits (v : Z) : float :=
  let u := (v mod 2 ^ 32)%Z in
  let s := Z.testbit u 31 in
  let e := ((u / 2 ^ 23) mod 2 ^ 8)%Z in
  let m := (u mod 2 ^ 23)%Z in
  if (e =? 0)%Z then
    match m with
    | Zpos p => S754_finite s p (-149)
    | _ => S754_zero s
    end
  else if (e =? 255)%Z then
    (if (m =? 0)%Z then S754_infinity s else S754_nan)
  else
    match (m + 2 ^ 23)%Z with
    | Zpos p => S754_finite s p (e - 150)
    | _ => S754_zero s
    end.

Definition GfVec2f : Type := float * float.
Definition GfVec3f : Type := float * float * float.
Definition GfVec4f : Type := float * float * float * float.
Definition GfVec3d : Type := double * double * double.

(** [_ConvertToVec3fArray] (material.cpp:137-148). *)
Definition _ConvertToVec3fArray (v : list GfVec3d) : list GfVec3f :=
  (λ '(x, y, z), (float_of_double x, float_of_double y, float_of_double z))
    <$> v.

(** ** VtValue: the held types the converter dispatches on *)

(** Modelled from the spec: an asset-path value (pxr/usd/sdf/assetPath.h)
    carries the authored path and the resolved one, empty when
    unresolved. *)
Record SdfAssetPath := {
  GetAssetPath : string;
  GetResolvedPath : string;
}.

(** Modelled from the spec: the tagged value of a parameter ([VtValue],
    pxr/base/vt/value.h), one case per held type that [_ConvertNodes] tests
    with [IsHolding], and [VtOther] for every other held type. *)
Inductive VtValue :=
  | VtVec2f (v : GfVec2f)
  | VtVec3f (v : GfVec3f)
  | VtVec4f (v : GfVec4f)
  | VtVec3fArray (v : list GfVec3f)
  | VtVec3d (v : GfVec3d)
  | VtVec3dArray (v : list GfVec3d)
  | VtFloat (v : float)
  | VtFloatArray (v : list float)
  | VtInt (v : Z)
  | VtIntArray (v : list Z)
  | VtToken (v : TfToken)
  | VtString (v : string)
  | VtAssetPath (p : SdfAssetPath)
  | VtBool (v : bool)
  | VtOther (typeName : string).

Definition GetTypeName (v : VtValue) : string :=
  match v with
  | VtVec2f _ => "GfVec2f"
  | VtVec3f _ => "GfVec3f"
  | VtVec4f _ => "GfVec4f"
  | VtVec3fArray _ => "VtArray<GfVec3f>"
  | VtVec3d _ => "GfVec3d"
  | VtVec3dArray _ => "VtArray<GfVec3d>"
  | VtFloat _ => "float"
  | VtFloatArray _ => "VtArray<float>"
  | VtInt _ => "int"
  | VtIntArray _ => "VtArray<int>"
  | VtToken _ => "TfToken"
  | VtString _ => "string"
  | VtAssetPath _ => "SdfAssetPath"
  | VtBool _ => "bool"
  | VtOther n => n
  end.

(** [UncheckedGet<VtArray<float>>()]: no check of the held type.  On a
    held [VtArray<float>] it is the array; on a held [VtArray<int>] the
    same storage is read through a [const float*], element by element. *)
Definition UncheckedGet_FloatArray (v : VtValue) : list float :=
  match v with
  | VtFloatArray a => a
  | VtIntArray a => float_of_int_bits <$> a
  | _ => []
  end.

(** ** The material network (HdMaterialNetwork2) *)

(** Modelled from the spec: [HdMaterialNetwork2] and its parts
    (pxr/imaging/hd/material.h): a connection names an upstream node-path
    and an upstream output. *)
Record HdMaterialConnection2 := {
  upstreamNode : SdfPath;
  upstreamOutputName : TfToken;
}.

(** Modelled from the spec: a material node has a type identifier, a
    mapping from parameter name to value and a mapping from input name to
    an ordered list of connections.  [parameters] and [inputConnections]
    are [std::map]s: association lists in the order the map iterates. *)
Record HdMaterialNode2 := {
  nodeTypeId : TfToken;
  parameters : list (TfToken * VtValue);
  inputConnections : list (TfToken * list HdMaterialConnection2);
}.

(** Modelled from the spec: the network maps node-paths to nodes and
    terminal names to one root connection each ([terminals] in the order
    the [std::map] iterates). *)
Record HdMaterialNetwork2 := {
  nodes : gmap SdfPath HdMaterialNode2;
  terminals : list (TfToken * HdMaterialConnection2);
}.

(** ** The shader registry (Sdr) *)

(** Modelled from the spec: a property descriptor of the registry
    (pxr/usd/sdr/shaderProperty.h) has a semantic type tag, an
    implementation-side name and, for enumerated inputs, an option table of
    (label, code) pairs. *)
Record SdrShaderProperty := {
  GetType : TfToken;
  GetImplementationName : string;
  GetOptions : list (TfToken * TfToken);
}.

(** Modelled from the spec: a shader-node descriptor
    (pxr/usd/sdr/shaderNode.h) has a context, a name, a resolved
    implementation path, an implementation name, and its input and output
    properties by name. *)
Record SdrShaderNode := {
  GetContext : TfToken;
  GetName : string;
  GetResolvedImplementationURI : string;
  GetNodeImplementationName : string;
  GetShaderInput : gmap TfToken SdrShaderProperty;
  GetShaderOutput : gmap TfToken SdrShaderProperty;
}.

(** Modelled from the spec: the semantic type tags of
    [SdrPropertyTypes] (pxr/usd/sdr/shaderProperty.h): float, int, string,
    color, vector, point, normal, struct, vstruct. *)
Module SdrPropertyTypes.
Definition Int : TfToken := "int".
Definition String : TfToken := "string".
Definition Float : TfToken := "float".
Definition Color : TfToken := "color".
Definition Point : TfToken := "point".
Definition Normal : TfToken := "normal".
Definition Vector : TfToken := "vector".
Definition Struct : TfToken := "struct".
Definition Vstruct : TfToken := "vstruct".
End SdrPropertyTypes.

(** Modelled from the spec: the category tags of [SdrNodeContext]
    (pxr/usd/sdr/shaderNode.h). *)
Module SdrNodeContext.
Definition Pattern : TfToken := "pattern".
Definition Surface : TfToken := "surface".
Definition Volume : TfToken := "volume".
Definition Displacement : TfToken := "displacement".
Definition Light : TfToken := "light".
Definition LightFilter : TfToken := "lightFilter".
End SdrNodeContext.

(** The private tokens of material.cpp:53-58. *)
Module _tokens.
Definition PxrDisplace : TfToken := "PxrDisplace".
Definition bxdf : TfToken := "bxdf".
Definition OSL : TfToken := "OSL".
End _tokens.

(** Modelled from the spec: the terminal names of
    [HdMaterialTerminalTokens] (pxr/imaging/hd/material.h). *)
Module HdMaterialTerminalTokens.
Definition surface : TfToken := "surface".
Definition displacement : TfToken := "displacement".
Definition volume : TfToken := "volume".
End HdMaterialTerminalTokens.

(** Modelled from the spec: the name of a light's texture parameter,
    [HdLightTokens->textureFile] (pxr/imaging/hd/light.h). *)
Module HdLightTokens.
Definition textureFile : TfToken := "texture:file".
End HdLightTokens.

(** What the converter asks of its hosts: the registry lookup
    [SdrRegistry::GetShaderNodeByIdentifier(id, *_sourceTypes)], the asset
    resolver's [GetExtension], the image registry's
    [IsSupportedImageFile], and the platform's library suffix. *)
Class Host := {
  GetShaderNodeByIdentifier : TfToken → option SdrShaderNode;
  ArGetExtension : string → string;
  IsSupportedImageFile : string → bool;
  ARCH_LIBRARY_SUFFIX : string;
}.

(** ** Riley shading nodes *)

(** Modelled from the spec: the category of a converted node
    ([riley::ShadingNode::Type]). *)
Inductive ShadingNodeType :=
  k_Bxdf | k_Pattern | k_Displacement | k_Light | k_LightFilter.

#[global] Instance ShadingNodeType_eq_dec : EqDecision ShadingNodeType.
Proof. solve_decision. Defined.

(** Modelled from the spec: the renderer-side type of a reference
    parameter (color, vector, point, normal, float, int, string, struct). *)
Inductive RtRefKind :=
  RefColor | RefVector | RefPoint | RefNormal | RefFloat | RefInteger
  | RefString | RefStruct.

(** Modelled from the spec: the parameter list of a converted node
    ([RtParamList], RiTypesHelper.h), as (implementation-name, typed value
    or typed reference-string) entries: one entry per [Set...] call, in
    call order. *)
Inductive RtParam :=
  | RtFloat (name : string) (v : float)
  | RtInteger (name : string) (v : Z)
  | RtString (name : string) (v : string)
  | RtColor (name : string) (v : GfVec3f)
  | RtVector (name : string) (v : GfVec3f)
  | RtPoint (name : string) (v : GfVec3f)
  | RtNormal (name : string) (v : GfVec3f)
  | RtFloatArray (name : string) (v : list float)
  | RtIntegerArray (name : string) (v : list Z)
  | RtColorArray (name : string) (v : list GfVec3f)
  | RtVectorArray (name : string) (v : list GfVec3f)
  | RtPointArray (name : string) (v : list GfVec3f)
  | RtNormalArray (name : string) (v : list GfVec3f)
  | RtReference (kind : RtRefKind) (name : string) (ref : string).

(** Modelled from the spec: a converted node ([riley::ShadingNode]):
    category, handle (the node-path string), implementation name or path,
    parameter list. *)
Record ShadingNode := {
  sn_type : ShadingNodeType;
  sn_handle : string;
  sn_name : string;
  sn_params : list RtParam;
}.

(** Diagnostics: one constructor per [TF_WARN], [TF_DEBUG] and
    [TF_RUNTIME_ERROR] site of material.cpp.  Debug output is recorded
    whether or not its debug code is enabled. *)
Inductive Diagnostic :=
  | WarnUnknownMaterialNode (nodePath : SdfPath)
  | WarnUnknownShaderId (typeId : TfToken) (nodePath : SdfPath)
  | WarnUnknownShaderEntryType (context : TfToken) (shader : string)
  | WarnNoImplementationPath (shader : string)
  | DebugUnknownShaderProperty (param : TfToken) (shader : string)
      (nodePath : SdfPath)
  | DebugUnknownFieldType (param : TfToken) (shader : string)
      (nodePath : SdfPath)
  | DebugResolvedAssetPath (v : string)
  | DebugUnknownParameterType (typeName : string) (param : TfToken)
      (nodePath : SdfPath) (propType : TfToken)
  | WarnUnknownUpstreamNode (upstream : SdfPath)
  | WarnUnknownUpstreamShader (upstream : SdfPath)
  | WarnUnknownDownstreamProperty (input : TfToken)
  | WarnUnknownUpstreamProperty (output : TfToken)
  | WarnUnknownConnectionType (propType : TfToken) (input : TfToken)
      (shader : string) (nodePath : SdfPath)
  | ErrorFailedToCreateMaterial (id : SdfPath)
  | ErrorFailedToCreateDisplacement (id : SdfPath)
  | ErrorFailedToConvertNodes (id : SdfPath).

(** ** Option tables *)

Definition is_space (c : ascii) : bool :=
  let n := nat_of_ascii c in
  (n =? 32)%nat || ((9 <=? n)%nat && (n <=? 13)%nat).

Fixpoint skip_space (s : string) : string :=
  match s with
  | String c s' => if is_space c then skip_space s' else s
  | EmptyString => EmptyString
  end.

Definition digit_val (c : ascii) : option Z :=
  let n := Z.of_nat (nat_of_ascii c) in
  if ((48 <=? n) && (n <=? 57))%Z then Some (n - 48)%Z else None.

Fixpoint read_digits (s : string) (acc : Z) (seen : bool) : Z * bool :=
  match s with
  | String c s' =>
      match digit_val c with
      | Some d => read_digits s' (10 * acc + d)%Z true
      | None => (acc, seen)
      end
  | EmptyString => (acc, seen)
  end.

(** Modelled from the spec: [TfUnstringify<int>] (pxr/base/tf/stringUtils.h)
    is not among the translated files.  The option table maps a string
    label to an integer code; the code string is read as a decimal [int]
    the way formatted stream extraction reads one (leading blanks, an
    optional sign, digits), and a failed read clears the status flag and
    never sets it. *)
Definition TfUnstringify_int (instring : string) (status : bool) : Z * bool :=
  let s := skip_space instring in
  let '(neg, s) :=
    match s with
    | String "-"%char s' => (true, s')
    | String "+"%char s' => (false, s')
    | _ => (false, s)
    end in
  let '(m, seen) := read_digits s 0 false in
  let v := if neg then (- m)%Z else m in
  if negb seen then (0%Z, false)
  else if (v <? INT_MIN)%Z then (INT_MIN, false)
  else if (INT_MAX <? v)%Z then (INT_MAX, false)
  else (v, status).

(** [_ConvertOptionTokenToInt] (material.cpp:150-161).  [ok] is the flag
    behind the [bool *ok] argument; the result pairs the returned [int]
    with the flag after the call. *)
Fixpoint _ConvertOptionTokenToInt
    (option : TfToken) (options : list (TfToken * TfToken)) (ok : bool)
    : Z * bool :=
  match options with
  | [] => (0%Z, ok)
  | tokenPair :: rest =>
      if decide (tokenPair.1 = option)
      then TfUnstringify_int tokenPair.2 true
      else _ConvertOptionTokenToInt option rest ok
  end.

(** ** Conversion state *)

(** [result] is the caller's [std::vector<riley::ShadingNode>],
    [visitedNodes] the [_PathSet], [diagnostics] what was reported. *)
Record ConvState := {
  result : list ShadingNode;
  visitedNodes : gset SdfPath;
  diagnostics : list Diagnostic;
}.

Definition mark_visited (p : SdfPath) (st : ConvState) : ConvState :=
  {| result := result st;
     visitedNodes := {[p]} ∪ visitedNodes st;
     diagnostics := diagnostics st |}.

Definition report (ds : list Diagnostic) (st : ConvState) : ConvState :=
  {| result := result st;
     visitedNodes := visitedNodes st;
     diagnostics := diagnostics st ++ ds |}.

Definition emplace_back (sn : ShadingNode) (st : ConvState) : ConvState :=
  {| result := result st ++ [sn];
     visitedNodes := visitedNodes st;
     diagnostics := diagnostics st |}.

(** A loop over a container whose body may run out of fuel. *)
Fixpoint for_each {A S : Type} (body : A → S → option S) (l : list A) (s : S)
    : option S :=
  match l with
  | [] => Some s
  | x :: l' =>
      match body x s with
      | Some s' => for_each body l' s'
      | None => None
      end
  end.

Section Convert.
Context `{Host}.

(** Node classification by registry context (material.cpp:210-244). *)
Definition _ClassifyNode (sdrEntry : SdrShaderNode) (node : HdMaterialNode2)
    : option ShadingNodeType :=
  let ctx := GetContext sdrEntry in
  if bool_decide (ctx = _tokens.bxdf ∨ ctx = SdrNodeContext.Surface
                  ∨ ctx = SdrNodeContext.Volume)
  then Some k_Bxdf
  else if bool_decide (ctx = SdrNodeContext.Pattern ∨ ctx = _tokens.OSL)
  then (if bool_decide (nodeTypeId node = _tokens.PxrDisplace)
        then Some k_Displacement else Some k_Pattern)
  else if bool_decide (ctx = SdrNodeContext.Displacement)
  then Some k_Displacement
  else if bool_decide (ctx = SdrNodeContext.Light) then Some k_Light
  else if bool_decide (ctx = SdrNodeContext.LightFilter)
  then Some k_LightFilter
  else None.

(** The string set for an asset path (material.cpp:442-466). *)
Definition _ResolveAssetPath (snType : ShadingNodeType) (paramName : TfToken)
    (p : SdfAssetPath) : string :=
  let v := GetResolvedPath p in
  if bool_decide (v = EmptyString) then GetAssetPath p
  else if bool_decide (ArGetExtension v ≠ "tex") then
    if bool_decide (snType = k_Light ∧ paramName = HdLightTokens.textureFile)
    then "rtxplugin:RtxHioImage" +:+ ARCH_LIBRARY_SUFFIX
         +:+ "?filename=" +:+ v +:+ "&flipped=false"
    else if bool_decide (v ≠ EmptyString) && IsSupportedImageFile v
    then "rtxplugin:RtxHioImage" +:+ ARCH_LIBRARY_SUFFIX
         +:+ "?filename=" +:+ v
    else v
  else v.

(** *** Parameters (material.cpp:264-488) *)

(** Outcome of the dispatch on one parameter: the flag [ok], the
    [sn.params.Set...] calls made, and the debug output. *)
Definition Dispatch : Type := bool * list RtParam * list Diagnostic.

Definition set_param (p : RtParam) : Dispatch := (true, [p], []).
Definition unmatched : Dispatch := (false, [], []).

(** Dispatch by [propType] and held type (material.cpp:293-477). *)
Definition _DispatchParam (snType : ShadingNodeType) (paramName : TfToken)
    (prop : SdrShaderProperty) (value : VtValue) : Dispatch :=
  let propType := GetType prop in
  let name := GetImplementationName prop in
  let declared t := bool_decide (propType = t) in
  if declared SdrPropertyTypes.Struct || declared SdrPropertyTypes.Vstruct
  then (true, [], [])
  else
    match value with
    | VtVec2f (x, y) =>
        if declared SdrPropertyTypes.Float
        then set_param (RtFloatArray name [x; y]) else unmatched
    | VtVec3f v =>
        if declared SdrPropertyTypes.Color then set_param (RtColor name v)
        else if declared SdrPropertyTypes.Vector then set_param (RtVector name v)
        else if declared SdrPropertyTypes.Point then set_param (RtPoint name v)
        else if declared SdrPropertyTypes.Normal then set_param (RtNormal name v)
        else unmatched
    | VtVec4f (x, y, z, w) =>
        if declared SdrPropertyTypes.Float
        then set_param (RtFloatArray name [x; y; z; w]) else unmatched
    | VtVec3fArray v =>
        if declared SdrPropertyTypes.Color then set_param (RtColorArray name v)
        else if declared SdrPropertyTypes.Vector
        then set_param (RtVectorArray name v)
        else if declared SdrPropertyTypes.Point then set_param (RtPointArray name v)
        else if declared SdrPropertyTypes.Normal
        then set_param (RtNormalArray name v)
        else unmatched
    | VtVec3d (x, y, z) =>
        if declared SdrPropertyTypes.Color
        then set_param (RtColor name (float_of_double x, float_of_double y,
                                      float_of_double z))
        else unmatched
    | VtVec3dArray vd =>
        if declared SdrPropertyTypes.Color
        then set_param (RtColorArray name (_ConvertToVec3fArray vd))
        else unmatched
    | VtFloat v =>
        if declared SdrPropertyTypes.Int
        then set_param (RtInteger name (int_of_float v))
        else if declared SdrPropertyTypes.Float then set_param (RtFloat name v)
        else unmatched
    | VtFloatArray v =>
        if declared SdrPropertyTypes.Float then set_param (RtFloatArray name v)
        else unmatched
    | VtInt v =>
        if declared SdrPropertyTypes.Float
        then set_param (RtFloat name (float_of_int v))
        else if declared SdrPropertyTypes.Int then set_param (RtInteger name v)
        else unmatched
    | VtIntArray vi =>
        if declared SdrPropertyTypes.Float
        then set_param (RtFloatArray name (UncheckedGet_FloatArray value))
        else if declared SdrPropertyTypes.Int
        then set_param (RtIntegerArray name vi)
        else unmatched
    | VtToken v =>
        if declared SdrPropertyTypes.Int then
          let '(value, ok) :=
            _ConvertOptionTokenToInt v (GetOptions prop) false in
          if ok then set_param (RtInteger name value) else unmatched
        else set_param (RtString name v)
    | VtString v =>
        if declared SdrPropertyTypes.Int then
          let '(value, ok) :=
            _ConvertOptionTokenToInt v (GetOptions prop) false in
          if ok then set_param (RtInteger name value) else unmatched
        else set_param (RtString name v)
    | VtAssetPath p =>
        let v := _ResolveAssetPath snType paramName p in
        (true, [RtString name v], [DebugResolvedAssetPath v])
    | VtBool v => set_param (RtInteger name (if v then 1 else 0)%Z)
    | VtOther _ => unmatched
    end.

(** One iteration of the parameter loop: the [Set...] calls it makes on
    [sn.params] and what it reports. *)
Definition _ConvertParam (nodePath : SdfPath) (node : HdMaterialNode2)
    (sdrEntry : SdrShaderNode) (snType : ShadingNodeType)
    (param : TfToken * VtValue) : list RtParam * list Diagnostic :=
  match GetShaderInput sdrEntry !! param.1 with
  | None =>
      ([], [DebugUnknownShaderProperty param.1 (GetName sdrEntry) nodePath])
  | Some prop =>
      let propType := GetType prop in
      if bool_decide (propType = EmptyString) then
        if bool_decide (nodeTypeId node = _tokens.PxrDisplace) then ([], [])
        else ([], [DebugUnknownFieldType param.1 (GetName sdrEntry) nodePath])
      else
        let '(ok, ps, ds) := _DispatchParam snType param.1 prop param.2 in
        (ps, ds ++ (if ok then []
                    else [DebugUnknownParameterType (GetTypeName param.2)
                            param.1 nodePath propType]))
  end.

(** *** Connections (material.cpp:489-557) *)

Definition _ConvertConnection (network : HdMaterialNetwork2)
    (nodePath : SdfPath) (sdrEntry : SdrShaderNode)
    (input : TfToken) (e : HdMaterialConnection2)
    : list RtParam * list Diagnostic :=
  match nodes network !! upstreamNode e with
  | None => ([], [WarnUnknownUpstreamNode (upstreamNode e)])
  | Some upstream =>
      match GetShaderNodeByIdentifier (nodeTypeId upstream) with
      | None => ([], [WarnUnknownUpstreamShader (upstreamNode e)])
      | Some upstreamSdrEntry =>
          match GetShaderInput sdrEntry !! input,
                GetShaderOutput upstreamSdrEntry !! upstreamOutputName e with
          | None, _ => ([], [WarnUnknownDownstreamProperty input])
          | Some _, None =>
              ([], [WarnUnknownUpstreamProperty (upstreamOutputName e)])
          | Some downstreamProp, Some upstreamProp =>
              let name := GetImplementationName downstreamProp in
              let inputRef :=
                upstreamNode e +:+ ":" +:+ GetImplementationName upstreamProp in
              let propType := GetType downstreamProp in
              let declared t := bool_decide (propType = t) in
              let ref k := ([RtReference k name inputRef], []) in
              if declared SdrPropertyTypes.Color then ref RefColor
              else if declared SdrPropertyTypes.Vector then ref RefVector
              else if declared SdrPropertyTypes.Point then ref RefPoint
              else if declared SdrPropertyTypes.Normal then ref RefNormal
              else if declared SdrPropertyTypes.Float then ref RefFloat
              else if declared SdrPropertyTypes.Int then ref RefInteger
              else if declared SdrPropertyTypes.String then ref RefString
              else if declared SdrPropertyTypes.Struct then ref RefStruct
              else ([], [WarnUnknownConnectionType propType input
                           (GetName sdrEntry) nodePath])
          end
      end
  end.

(** A loop whose body appends to [sn.params] and to the diagnostics. *)
Definition accumulate {A : Type} (body : A → list RtParam * list Diagnostic)
    (l : list A) (acc : list RtParam * list Diagnostic)
    : list RtParam * list Diagnostic :=
  foldl (λ acc x, (acc.1 ++ (body x).1, acc.2 ++ (body x).2)) acc l.

Definition _ConvertParams (nodePath : SdfPath) (node : HdMaterialNode2)
    (sdrEntry : SdrShaderNode) (snType : ShadingNodeType)
    (acc : list RtParam * list Diagnostic) : list RtParam * list Diagnostic :=
  accumulate (_ConvertParam nodePath node sdrEntry snType)
    (parameters node) acc.

Definition _ConvertConnections (network : HdMaterialNetwork2)
    (nodePath : SdfPath) (node : HdMaterialNode2) (sdrEntry : SdrShaderNode)
    (acc : list RtParam * list Diagnostic) : list RtParam * list Diagnostic :=
  foldl (λ acc connEntry,
           accumulate (_ConvertConnection network nodePath sdrEntry
                         connEntry.1) connEntry.2 acc)
    acc (inputConnections node).

(** The part of [_ConvertNodes] after the upstream traversal
    (material.cpp:200-557): the shading node to emplace, or no node on one
    of the [return false] paths, with the diagnostics. *)
Definition _MakeShadingNode (network : HdMaterialNetwork2)
    (nodePath : SdfPath) (node : HdMaterialNode2)
    : option ShadingNode * list Diagnostic :=
  match GetShaderNodeByIdentifier (nodeTypeId node) with
  | None => (None, [WarnUnknownShaderId (nodeTypeId node) nodePath])
  | Some sdrEntry =>
      match _ClassifyNode sdrEntry node with
      | None =>
          (None, [WarnUnknownShaderEntryType (GetContext sdrEntry)
                    (GetName sdrEntry)])
      | Some snType =>
          let shaderPath := GetResolvedImplementationURI sdrEntry in
          if bool_decide (shaderPath = EmptyString)
          then (None, [WarnNoImplementationPath (GetName sdrEntry)])
          else
            let shaderPath :=
              if bool_decide (snType = k_Displacement ∨ snType = k_Light
                              ∨ snType = k_LightFilter)
              then GetNodeImplementationName sdrEntry else shaderPath in
            let '(params, ds) :=
              _ConvertConnections network nodePath node sdrEntry
                (_ConvertParams nodePath node sdrEntry snType ([], [])) in
            (Some {| sn_type := snType; sn_handle := nodePath;
                     sn_name := shaderPath; sn_params := params |}, ds)
      end
  end.

(** *** Traversal *)

(** [_ConvertNodes] (material.cpp:168-562).  The recursion follows the
    connections of the network, which may be cyclic; [fuel] bounds its
    depth and [None] means the bound was hit. *)
Fixpoint _ConvertNodes (fuel : nat) (network : HdMaterialNetwork2)
    (nodePath : SdfPath) (st : ConvState) : option (bool * ConvState) :=
  match fuel with
  | O => None
  | S fuel =>
      if bool_decide (nodePath ∈ visitedNodes st) then Some (false, st)
      else
        let st := mark_visited nodePath st in
        match nodes network !! nodePath with
        | None => Some (false, report [WarnUnknownMaterialNode nodePath] st)
        | Some node =>
            match
              for_each (λ connEntry : TfToken * list HdMaterialConnection2,
                for_each (λ e st,
                  snd <$> _ConvertNodes fuel network (upstreamNode e) st)
                  connEntry.2)
                (inputConnections node) st
            with
            | None => None
            | Some st =>
                match _MakeShadingNode network nodePath node with
                | (None, ds) => Some (false, report ds st)
                | (Some sn, ds) => Some (true, emplace_back sn (report ds st))
                end
            end
        end
  end.

(** [HdPrman_ConvertHdMaterialNetwork2ToRmanNodes] (material.cpp:564-573):
    a fresh visited set per call.  No recursion is deeper than the number
    of nodes of the network plus one. *)
Definition HdPrman_ConvertHdMaterialNetwork2ToRmanNodes
    (network : HdMaterialNetwork2) (nodePath : SdfPath)
    (result : list ShadingNode)
    : option (bool * list ShadingNode * list Diagnostic) :=
  (λ '(b, st), (b, Material.result st, diagnostics st)) <$>
    _ConvertNodes (S (size (nodes network))) network nodePath
      {| result := result; visitedNodes := ∅; diagnostics := [] |}.

End Convert.

(** ** The Riley sink and the per-terminal orchestration *)

(** Modelled from the spec: the identifier of a committed material
    ([riley::MaterialId]) is opaque; [InvalidId] marks "not yet created". *)
Inductive MaterialId := MaterialId_InvalidId | MaterialId_Of (n : N).

(** Modelled from the spec: likewise [riley::DisplacementId]. *)
Inductive DisplacementId := DisplacementId_InvalidId | DisplacementId_Of (n : N).

#[global] Instance MaterialId_eq_dec : EqDecision MaterialId.
Proof. solve_decision. Defined.
#[global] Instance DisplacementId_eq_dec : EqDecision DisplacementId.
Proof. solve_decision. Defined.

(** Modelled from the spec: the graph-commit calls of the sink
    ([riley::Riley]): create, modify, delete, for materials and for
    displacements. *)
Inductive RileyCall :=
  | CreateMaterial (network : list ShadingNode)
  | ModifyMaterial (id : MaterialId) (network : list ShadingNode)
  | DeleteMaterial (id : MaterialId)
  | CreateDisplacement (network : list ShadingNode)
  | ModifyDisplacement (id : DisplacementId) (network : list ShadingNode)
  | DeleteDisplacement (id : DisplacementId).

(** The identifiers the renderer hands out, given the calls it has seen. *)
Class Riley := {
  CreateMaterial_id : list RileyCall → list ShadingNode → MaterialId;
  CreateDisplacement_id : list RileyCall → list ShadingNode → DisplacementId;
}.

(** The variables of [_ConvertHdMaterialNetwork2ToRman]: the two
    identifiers behind the pointer arguments, the sink, the locals
    [nodes], [materialFound], [displacementFound], and the diagnostics. *)
Record RmanState := {
  materialId : MaterialId;
  displacementId : DisplacementId;
  riley : list RileyCall;
  rman_nodes : list ShadingNode;
  materialFound : bool;
  displacementFound : bool;
  rman_diagnostics : list Diagnostic;
}.

Definition riley_call (c : RileyCall) (s : RmanState) : RmanState :=
  {| materialId := materialId s; displacementId := displacementId s;
     riley := riley s ++ [c]; rman_nodes := rman_nodes s;
     materialFound := materialFound s;
     displacementFound := displacementFound s;
     rman_diagnostics := rman_diagnostics s |}.

Definition set_materialId (id : MaterialId) (s : RmanState) : RmanState :=
  {| materialId := id; displacementId := displacementId s;
     riley := riley s; rman_nodes := rman_nodes s;
     materialFound := materialFound s;
     displacementFound := displacementFound s;
     rman_diagnostics := rman_diagnostics s |}.

Definition set_displacementId (id : DisplacementId) (s : RmanState)
    : RmanState :=
  {| materialId := materialId s; displacementId := id;
     riley := riley s; rman_nodes := rman_nodes s;
     materialFound := materialFound s;
     displacementFound := displacementFound s;
     rman_diagnostics := rman_diagnostics s |}.

Definition set_nodes (ns : list ShadingNode) (s : RmanState) : RmanState :=
  {| materialId := materialId s; displacementId := displacementId s;
     riley := riley s; rman_nodes := ns;
     materialFound := materialFound s;
     displacementFound := displacementFound s;
     rman_diagnostics := rman_diagnostics s |}.

Definition set_materialFound (s : RmanState) : RmanState :=
  {| materialId := materialId s; displacementId := displacementId s;
     riley := riley s; rman_nodes := rman_nodes s;
     materialFound := true;
     displacementFound := displacementFound s;
     rman_diagnostics := rman_diagnostics s |}.

Definition set_displacementFound (s : RmanState) : RmanState :=
  {| materialId := materialId s; displacementId := displacementId s;
     riley := riley s; rman_nodes := rman_nodes s;
     materialFound := materialFound s;
     displacementFound := true;
     rman_diagnostics := rman_diagnostics s |}.

Definition rman_report (ds : list Diagnostic) (s : RmanState) : RmanState :=
  {| materialId := materialId s; displacementId := displacementId s;
     riley := riley s; rman_nodes := rman_nodes s;
     materialFound := materialFound s;
     displacementFound := displacementFound s;
     rman_diagnostics := rman_diagnostics s ++ ds |}.

Section Rman.
Context `{Host} `{Riley}.

(** Create or modify the Riley material (material.cpp:628-643). *)
Definition _CommitMaterial (id : SdfPath) (s : RmanState) : RmanState :=
  let s := set_materialFound s in
  let s :=
    if bool_decide (materialId s = MaterialId_InvalidId)
    then set_materialId (CreateMaterial_id (riley s) (rman_nodes s))
           (riley_call (CreateMaterial (rman_nodes s)) s)
    else riley_call (ModifyMaterial (materialId s) (rman_nodes s)) s in
  if bool_decide (materialId s = MaterialId_InvalidId)
  then rman_report [ErrorFailedToCreateMaterial id] s else s.

(** Create or modify the Riley displacement (material.cpp:646-662). *)
Definition _CommitDisplacement (id : SdfPath) (s : RmanState) : RmanState :=
  let s := set_displacementFound s in
  let s :=
    if bool_decide (displacementId s = DisplacementId_InvalidId)
    then set_displacementId (CreateDisplacement_id (riley s) (rman_nodes s))
           (riley_call (CreateDisplacement (rman_nodes s)) s)
    else riley_call (ModifyDisplacement (displacementId s) (rman_nodes s)) s in
  if bool_decide (displacementId s = DisplacementId_InvalidId)
  then rman_report [ErrorFailedToCreateDisplacement id] s else s.

(** One iteration of the loop over the terminals (material.cpp:623-668). *)
Definition _ConvertTerminal (id : SdfPath) (network : HdMaterialNetwork2)
    (terminal : TfToken * HdMaterialConnection2) (s : RmanState)
    : option RmanState :=
  match HdPrman_ConvertHdMaterialNetwork2ToRmanNodes network
          (upstreamNode terminal.2) (rman_nodes s) with
  | None => None
  | Some (converted, ns, ds) =>
      let s := rman_report ds (set_nodes ns s) in
      let s :=
        if converted then
          if bool_decide (terminal.1 = HdMaterialTerminalTokens.surface
                          ∨ terminal.1 = HdMaterialTerminalTokens.volume)
          then _CommitMaterial id s
          else if bool_decide
                    (terminal.1 = HdMaterialTerminalTokens.displacement)
          then _CommitDisplacement id s
          else s
        else rman_report [ErrorFailedToConvertNodes id] s in
      Some (set_nodes [] s)
  end.

(** Free dis-used networks (material.cpp:669-677). *)
Definition _FreeDisused (s : RmanState) : RmanState :=
  let s :=
    if negb (materialFound s)
    then set_materialId MaterialId_InvalidId
           (riley_call (DeleteMaterial (materialId s)) s)
    else s in
  if negb (displacementFound s)
  then set_displacementId DisplacementId_InvalidId
         (riley_call (DeleteDisplacement (displacementId s)) s)
  else s.

(** [_ConvertHdMaterialNetwork2ToRman] (material.cpp:610-678), from the
    identifiers and the sink as the caller holds them. *)
Definition _ConvertHdMaterialNetwork2ToRman (id : SdfPath)
    (network : HdMaterialNetwork2) (materialId : MaterialId)
    (displacementId : DisplacementId) (riley : list RileyCall)
    : option RmanState :=
  _FreeDisused <$>
    for_each (_ConvertTerminal id network) (terminals network)
      {| materialId := materialId; displacementId := displacementId;
         riley := riley; rman_nodes := [];
         materialFound := false; displacementFound := false;
         rman_diagnostics := [] |}.

End Rman.

End Material.

(** ** HdStGLSLFXShader (glslfxShader.cpp) *)

Module GlslfxShader.

(** Modelled from the spec: a loaded GLSLFX file ([HioGlslfx],
    pxr/imaging/hio/glslfx.h), as far as the shader reads it: its file
    path, whether it is valid, and its surface and displacement source. *)
Record HioGlslfx := {
  GetFilePath : string;
  IsValid : bool;
  GetSurfaceSource : string;
  GetDisplacementSource : string;
}.

(** The base class [HdSt_MaterialNetworkShader] keeps the registered
    sources; its state, [_SetSource] and the stage keys of [HdShaderTokens]
    are taken as given.  [HioGlslfx_new] is the [HioGlslfx] constructor:
    what loading a file path yields. *)
Class ShaderBase := {
  HdSt_MaterialNetworkShader : Type;
  fragmentShader : string;
  geometryShader : string;
  _SetSource : string → string → HdSt_MaterialNetworkShader
               → HdSt_MaterialNetworkShader;
  GetSource : string → HdSt_MaterialNetworkShader → string;
  HioGlslfx_new : string → HioGlslfx;
}.

Section Shader.
Context `{ShaderBase}.

Record HdStGLSLFXShader := {
  base : HdSt_MaterialNetworkShader;
  _glslfx : HioGlslfx;
}.

(** The constructor (glslfxShader.cpp:32-38), on the base-class state. *)
Definition HdStGLSLFXShader_new (base0 : HdSt_MaterialNetworkShader)
    (glslfx : HioGlslfx) : HdStGLSLFXShader :=
  {| _glslfx := glslfx;
     base := _SetSource geometryShader
               (GetDisplacementSource glslfx)
               (_SetSource fragmentShader
                  (GetSurfaceSource glslfx) base0) |}.

(** [HdStGLSLFXShader::Reload] (glslfxShader.cpp:44-57). *)
Definition Reload (self : HdStGLSLFXShader) : HdStGLSLFXShader :=
  let newGlslFx := HioGlslfx_new (GetFilePath (_glslfx self)) in
  if IsValid newGlslFx then
    {| _glslfx := newGlslFx;
       base := _SetSource geometryShader
                 (GetDisplacementSource newGlslFx)
                 (_SetSource fragmentShader
                    (GetSurfaceSource newGlslFx) (base self)) |}
  else self.

End Shader.

End GlslfxShader.

(** ** HdxOitVolumeRenderTask (oitVolumeRenderTask.cpp) *)

Module OitVolumeRenderTask.

(** The GL capabilities that [Execute] queries and toggles. *)
Inductive GLcap := GL_MULTISAMPLE | GL_POINT_SMOOTH.

(** The two enable flags of the GL context that [Execute] touches. *)
Record GLState := {
  multisample : bool;
  point_smooth : bool;
}.

(** Values of the Hydra enumerations that [Execute] hands to the render
    pass state (pxr/imaging/hd/enums.h, renderPassState.h). *)
Inductive HdCompareFunction := HdCmpFuncLess | HdCmpFuncAlways.

Inductive HdCullStyle :=
  HdCullStyleDontCare | HdCullStyleNothing | HdCullStyleBack | HdCullStyleFront.

Inductive ColorMask := ColorMaskNone | ColorMaskRGB | ColorMaskRGBA.

(** Which [return] of [Execute] was taken. *)
Inductive Outcome :=
  | Skipped             (* OIT disabled or no draw items *)
  | NoRenderPassState   (* TF_VERIFY(renderPassState) failed *)
  | NotHdSt             (* the dynamic_cast failed *)
  | NoOitBuffers        (* AddOitBufferBindings failed *)
  | Rendered.           (* fell off the end after the pass *)

(** The Hydra side: the task context with its render pass state, shader
    and OIT buffers, all owned by the framework.  [hydra] is its state;
    the operations are the calls [Execute] makes on it.  The setters of
    the render pass state and of the shader store a value on the Hydra
    side; the buffer calls and the base-class [Execute] also drive the GL
    context. *)
Class Hydra := {
  hydra : Type;
  _HasDrawItems : hydra → bool;
  RequestOitBuffers : GLState * hydra → GLState * hydra;
  InitializeOitBuffersIfNecessary : GLState * hydra → GLState * hydra;
  _GetRenderPassState : hydra → bool;
  is_HdStRenderPassState : hydra → bool;
  SetUseSceneMaterials : bool → hydra → hydra;
  SetDepthFunc : HdCompareFunction → hydra → hydra;
  SetCullStyle : HdCullStyle → hydra → hydra;
  GetCullStyle : hydra → HdCullStyle;
  AddOitBufferBindings : GLState * hydra → bool * (GLState * hydra);
  shader_SetCullStyle : HdCullStyle → hydra → hydra;
  SetRenderPassShader : hydra → hydra;
  SetEnableDepthMask : bool → hydra → hydra;
  SetColorMasks : list ColorMask → hydra → hydra;
  HdxRenderTask_Execute : GLState * hydra → GLState * hydra;
}.

Section Task.
Context `{Hydra}.

Definition World : Type := GLState * hydra.

(** A state monad over the GL context and the Hydra side. *)
Definition M (A : Type) : Type := World → A * World.

Definition ret {A : Type} (a : A) : M A := λ w, (a, w).
Definition bind {A B : Type} (m : M A) (k : A → M B) : M B :=
  λ w, let '(a, w') := m w in k a w'.

Notation "'let!' x ':=' m 'in' k" := (bind m (λ x, k))
  (at level 10, x name, m at level 100, k at level 200).
Notation "'run' m 'then' k" := (bind m (λ _, k))
  (at level 10, m at level 100, k at level 200).

Definition call (f : World → World) : M unit := λ w, (tt, f w).
Definition on_hydra (f : hydra → hydra) : M unit := λ w, (tt, (w.1, f w.2)).
Definition ask {A : Type} (f : hydra → A) : M A := λ w, (f w.2, w).

Definition glIsEnabled (cap : GLcap) : M bool :=
  λ w, (match cap with
        | GL_MULTISAMPLE => multisample w.1
        | GL_POINT_SMOOTH => point_smooth w.1
        end, w).

Definition set_cap (cap : GLcap) (b : bool) (g : GLState) : GLState :=
  match cap with
  | GL_MULTISAMPLE => {| multisample := b; point_smooth := point_smooth g |}
  | GL_POINT_SMOOTH => {| multisample := multisample g; point_smooth := b |}
  end.

Definition glEnable (cap : GLcap) : M unit :=
  λ w, (tt, (set_cap cap true w.1, w.2)).
Definition glDisable (cap : GLcap) : M unit :=
  λ w, (tt, (set_cap cap false w.1, w.2)).

(** Pre Execute Setup (oitVolumeRenderTask.cpp:95-127): [None] when the
    pass is to be run, otherwise the early return taken. *)
Definition _Setup (_isOitEnabled : bool) : M (option Outcome) :=
  let! hasDrawItems := ask _HasDrawItems in
  if negb _isOitEnabled || negb hasDrawItems then ret (Some Skipped)
  else
    run call RequestOitBuffers then
    run call InitializeOitBuffersIfNecessary then
    let! renderPassState := ask _GetRenderPassState in
    if negb renderPassState then ret (Some NoRenderPassState)
    else
      let! extendedState := ask is_HdStRenderPassState in
      if negb extendedState then ret (Some NotHdSt)
      else
        run on_hydra (SetUseSceneMaterials true) then
        run on_hydra (SetDepthFunc HdCmpFuncAlways) then
        run on_hydra (SetCullStyle HdCullStyleBack) then
        let! bound := AddOitBufferBindings in
        if negb bound then ret (Some NoOitBuffers) else ret None.

(** Saving and overriding the GL flags, and the state set for the pass
    (oitVolumeRenderTask.cpp:129-158); returns [oldMSAA] and
    [oldPointSmooth]. *)
Definition _SaveAndOverride : M (bool * bool) :=
  let! oldMSAA := glIsEnabled GL_MULTISAMPLE in
  run glDisable GL_MULTISAMPLE then
  let! oldPointSmooth := glIsEnabled GL_POINT_SMOOTH in
  run glEnable GL_POINT_SMOOTH then
  let! cullStyle := ask GetCullStyle in
  run on_hydra (shader_SetCullStyle cullStyle) then
  run on_hydra SetRenderPassShader then
  run on_hydra (SetEnableDepthMask false) then
  run on_hydra (SetColorMasks [ColorMaskNone]) then
  ret (oldMSAA, oldPointSmooth).

(** Post Execute Restore (oitVolumeRenderTask.cpp:165-171). *)
Definition _Restore (old : bool * bool) : M unit :=
  run (if old.1 then glEnable GL_MULTISAMPLE else ret tt) then
  (if negb old.2 then glDisable GL_POINT_SMOOTH else ret tt).

(** [HdxOitVolumeRenderTask::Execute] (oitVolumeRenderTask.cpp:87-172). *)
Definition Execute (_isOitEnabled : bool) : M Outcome :=
  let! early := _Setup _isOitEnabled in
  match early with
  | Some outcome => ret outcome
  | None =>
      let! old := _SaveAndOverride in
      run call HdxRenderTask_Execute then
      run _Restore old then
      ret Rendered
  end.

End Task.

End OitVolumeRenderTask.

(** ** The network as a graph, and the traversal as a relation *)

Module MaterialGraph.
Import Material.

(** All connections of a node, in the order the two loops visit them. *)
Definition connections (node : HdMaterialNode2) : list HdMaterialConnection2 :=
  concat (snd <$> inputConnections node).

(** [edge N p u]: node [p] of the network has a connection to [u]. *)
Definition edge (N : HdMaterialNetwork2) (p u : SdfPath) : Prop :=
  ∃ node, nodes N !! p = Some node ∧ u ∈ upstreamNode <$> connections node.

Definition acyclic (N : HdMaterialNetwork2) : Prop :=
  ∀ p, ¬ tc (edge N) p p.

(** A numbering that decreases along every connection, checked node by
    node. *)
Definition ranked (N : HdMaterialNetwork2) (rank : SdfPath → nat) : bool :=
  forallb (λ '(p, node),
             forallb (λ u, rank u <? rank p) (upstreamNode <$> connections node))
    (map_to_list (nodes N)).

Definition handles (l : list ShadingNode) : list SdfPath := sn_handle <$> l.

(** The declared types of a connected input for which the connection loop
    sets a reference, with the [Set...Reference] call it makes
    (material.cpp:529-545). *)
Definition reference_kinds : list (TfToken * RtRefKind) :=
  [(SdrPropertyTypes.Color, RefColor); (SdrPropertyTypes.Vector, RefVector);
   (SdrPropertyTypes.Point, RefPoint); (SdrPropertyTypes.Normal, RefNormal);
   (SdrPropertyTypes.Float, RefFloat); (SdrPropertyTypes.Int, RefInteger);
   (SdrPropertyTypes.String, RefString); (SdrPropertyTypes.Struct, RefStruct)].

Section Relation.
Context `{Host}.

(** The parameters and diagnostics the connection loop adds. *)
Definition connection_output (N : HdMaterialNetwork2) (p : SdfPath)
    (sdrEntry : SdrShaderNode)
    (conns : list (TfToken * list HdMaterialConnection2))
    : list RtParam * list Diagnostic :=
  (concat ((λ ce, concat ((λ e, (_ConvertConnection N p sdrEntry ce.1 e).1)
                            <$> ce.2)) <$> conns),
   concat ((λ ce, concat ((λ e, (_ConvertConnection N p sdrEntry ce.1 e).2)
                            <$> ce.2)) <$> conns)).

(** A node the registry lets through: [_ConvertNodes] reaches
    [emplace_back] for it. *)
Definition convertible (N : HdMaterialNetwork2) (p : SdfPath) : Prop :=
  ∃ node, nodes N !! p = Some node
          ∧ is_Some (_MakeShadingNode N p node).1.

(** [visit N p V b V' new ds]: the call [_ConvertNodes(N, p, result, V)]
    returns [b], leaves the visited set [V'], appends [new] to [result]
    and reports [ds].  [upstream] is the loop over the connections. *)
Inductive visit (N : HdMaterialNetwork2)
    : SdfPath → gset SdfPath → bool → gset SdfPath
      → list ShadingNode → list Diagnostic → Prop :=
  | visit_seen p V :
      p ∈ V → visit N p V false V [] []
  | visit_unknown p V :
      p ∉ V → nodes N !! p = None →
      visit N p V false ({[p]} ∪ V) [] [WarnUnknownMaterialNode p]
  | visit_node p V node V' new ds :
      p ∉ V → nodes N !! p = Some node →
      upstream N (connections node) ({[p]} ∪ V) V' new ds →
      visit N p V
        (if (_MakeShadingNode N p node).1 is Some _ then true else false) V'
        (new ++ option_list (_MakeShadingNode N p node).1)
        (ds ++ (_MakeShadingNode N p node).2)
with upstream (N : HdMaterialNetwork2)
    : list HdMaterialConnection2 → gset SdfPath → gset SdfPath
      → list ShadingNode → list Diagnostic → Prop :=
  | upstream_nil V : upstream N [] V V [] []
  | upstream_cons e es V b V1 V2 new1 new2 ds1 ds2 :
      visit N (upstreamNode e) V b V1 new1 ds1 →
      upstream N es V1 V2 new2 ds2 →
      upstream N (e :: es) V V2 (new1 ++ new2) (ds1 ++ ds2).

End Relation.

Scheme visit_mut := Minimality for visit Sort Prop
  with upstream_mut := Minimality for upstream Sort Prop.
Combined Scheme visit_upstream_ind from visit_mut, upstream_mut.

(** Removing connections whose upstream node is absent from the network. *)
Inductive pruned (N : HdMaterialNetwork2)
    : list HdMaterialConnection2 → list HdMaterialConnection2 → Prop :=
  | pruned_nil : pruned N [] []
  | pruned_keep e es es' : pruned N es es' → pruned N (e :: es) (e :: es')
  | pruned_drop e es es' :
      nodes N !! upstreamNode e = None →
      pruned N es es' → pruned N (e :: es) es'.

Definition pruned_node (N : HdMaterialNetwork2) (node node' : HdMaterialNode2)
    : Prop :=
  nodeTypeId node' = nodeTypeId node
  ∧ parameters node' = parameters node
  ∧ Forall2 (λ ce ce', ce'.1 = ce.1 ∧ pruned N ce.2 ce'.2)
      (inputConnections node) (inputConnections node').

Definition pruned_network (N N' : HdMaterialNetwork2) : Prop :=
  ∀ p, option_Forall2 (pruned_node N) (nodes N !! p) (nodes N' !! p).

(** Two visited sets that hold the same nodes of the network. *)
Definition agree (N : HdMaterialNetwork2) (V W : gset SdfPath) : Prop :=
  ∀ m, is_Some (nodes N !! m) → m ∈ V ↔ m ∈ W.

(** [node] with another parameter map, or other connections, and the
    network with one node replaced. *)
Definition without_parameter (node : HdMaterialNode2)
    (ps : list (TfToken * VtValue)) : HdMaterialNode2 :=
  {| nodeTypeId := nodeTypeId node; parameters := ps;
     inputConnections := inputConnections node |}.

Definition with_connections (node : HdMaterialNode2)
    (cs : list (TfToken * list HdMaterialConnection2)) : HdMaterialNode2 :=
  {| nodeTypeId := nodeTypeId node; parameters := parameters node;
     inputConnections := cs |}.

Definition with_node (N : HdMaterialNetwork2) (p : SdfPath)
    (node : HdMaterialNode2) : HdMaterialNetwork2 :=
  {| nodes := <[p := node]> (nodes N); terminals := terminals N |}.

End MaterialGraph.

(** ** Concrete hosts and networks *)

Module Examples.
Import Material MaterialGraph.

Definition property (type name : string) : SdrShaderProperty :=
  {| GetType := type; GetImplementationName := name; GetOptions := [] |}.

Definition quality_options : list (TfToken * TfToken) :=
  [("low", "0"); ("med", "1"); ("high", "2")].

Definition quality : SdrShaderProperty :=
  {| GetType := SdrPropertyTypes.Int; GetImplementationName := "quality";
     GetOptions := quality_options |}.

Definition PxrSurface : SdrShaderNode :=
  {| GetContext := "bxdf"; GetName := "PxrSurface";
     GetResolvedImplementationURI := "/lib/plugins/PxrSurface.so";
     GetNodeImplementationName := "PxrSurface.so";
     GetShaderInput :=
       {[ "diffuseColor" := property "color" "diffuseColor";
          "presence" := property "float" "presence";
          "quality" := quality;
          "inputMaterial" := property "struct" "inputMaterial" ]};
     GetShaderOutput := ∅ |}.

Definition PxrTexture : SdrShaderNode :=
  {| GetContext := "pattern"; GetName := "PxrTexture";
     GetResolvedImplementationURI := "/lib/shaders/PxrTexture.oso";
     GetNodeImplementationName := "PxrTexture.oso";
     GetShaderInput := {[ "manifold" := property "struct" "manifold" ]};
     GetShaderOutput :=
       {[ "resultRGB" := property "color" "resultRGB";
          "resultR" := property "float" "resultR" ]} |}.

Definition PxrManifold2D : SdrShaderNode :=
  {| GetContext := "pattern"; GetName := "PxrManifold2D";
     GetResolvedImplementationURI := "/lib/shaders/PxrManifold2D.oso";
     GetNodeImplementationName := "PxrManifold2D.oso";
     GetShaderInput := ∅;
     GetShaderOutput := {[ "result" := property "struct" "result" ]} |}.

Definition registry : gmap TfToken SdrShaderNode :=
  {[ "PxrSurface" := PxrSurface; "PxrTexture" := PxrTexture;
     "PxrManifold2D" := PxrManifold2D ]}.

Definition host : Host :=
  {| GetShaderNodeByIdentifier := λ id, registry !! id;
     ArGetExtension := λ _, "tex";
     IsSupportedImageFile := λ _, false;
     ARCH_LIBRARY_SUFFIX := ".so" |}.

Definition connection (p : SdfPath) (output : TfToken)
    : HdMaterialConnection2 :=
  {| upstreamNode := p; upstreamOutputName := output |}.

Definition surface_node : HdMaterialNode2 :=
  {| nodeTypeId := "PxrSurface"; parameters := [];
     inputConnections :=
       [("diffuseColor", [connection "/mat/TexA" "resultRGB"]);
        ("presence", [connection "/mat/TexB" "resultR"])] |}.

Definition texture_node : HdMaterialNode2 :=
  {| nodeTypeId := "PxrTexture"; parameters := [];
     inputConnections := [("manifold", [connection "/mat/Manifold" "result"])] |}.

Definition manifold_node (typeId : TfToken) : HdMaterialNode2 :=
  {| nodeTypeId := typeId; parameters := []; inputConnections := [] |}.

(** A diamond: the surface reads two textures that share one manifold. *)
Definition diamond (manifoldType : TfToken) : HdMaterialNetwork2 :=
  {| nodes :=
       {[ "/mat/Surface" := surface_node;
          "/mat/TexA" := texture_node;
          "/mat/TexB" := texture_node;
          "/mat/Manifold" := manifold_node manifoldType ]};
     terminals := [("surface", connection "/mat/Surface" "out")] |}.

Definition diamond_rank (p : SdfPath) : nat :=
  if bool_decide (p = "/mat/Surface") then 2
  else if bool_decide (p = "/mat/Manifold") then 0 else 1.

(** The surface with a second connection on [presence], to a node the
    network does not have. *)
Definition dangling_surface : HdMaterialNode2 :=
  with_connections surface_node
    [("diffuseColor", [connection "/mat/TexA" "resultRGB"]);
     ("presence", [connection "/mat/Missing" "resultR";
                   connection "/mat/TexB" "resultR"])].

Definition dangling : HdMaterialNetwork2 :=
  with_node (diamond "PxrManifold2D") "/mat/Surface" dangling_surface.

(** The surface with authored parameters: one on the struct-typed input,
    one on the enumerated [quality] input. *)
Definition authored_surface (qualityValue : VtValue) : HdMaterialNode2 :=
  without_parameter surface_node
    [("inputMaterial", VtOther "SdfPath"); ("quality", qualityValue)].

Definition riley0 : Riley :=
  {| CreateMaterial_id := λ calls _, MaterialId_Of (N.of_nat (length calls) + 1);
     CreateDisplacement_id :=
       λ calls _, DisplacementId_Of (N.of_nat (length calls) + 1) |}.

(** A shader base that keeps the sources in a map, and a file system on
    which every reload is invalid. *)
Definition shader_base : GlslfxShader.ShaderBase :=
  {| GlslfxShader.HdSt_MaterialNetworkShader := gmap string string;
     GlslfxShader.fragmentShader := "fragmentShader";
     GlslfxShader.geometryShader := "geometryShader";
     GlslfxShader._SetSource := λ k v m, <[k := v]> m;
     GlslfxShader.GetSource := λ k m, default EmptyString (m !! k);
     GlslfxShader.HioGlslfx_new := λ path,
       {| GlslfxShader.GetFilePath := path; GlslfxShader.IsValid := false;
          GlslfxShader.GetSurfaceSource := EmptyString;
          GlslfxShader.GetDisplacementSource := EmptyString |} |}.

Definition loaded_glslfx : GlslfxShader.HioGlslfx :=
  {| GlslfxShader.GetFilePath := "shaders/simple.glslfx";
     GlslfxShader.IsValid := true;
     GlslfxShader.GetSurfaceSource := "surface";
     GlslfxShader.GetDisplacementSource := "displacement" |}.

(** A Hydra side with no state of its own, whose render pass leaves the
    GL context alone. *)
Definition hydra0 : OitVolumeRenderTask.Hydra :=
  {| OitVolumeRenderTask.hydra := unit;
     OitVolumeRenderTask._HasDrawItems := λ _, true;
     OitVolumeRenderTask.RequestOitBuffers := λ w, w;
     OitVolumeRenderTask.InitializeOitBuffersIfNecessary := λ w, w;
     OitVolumeRenderTask._GetRenderPassState := λ _, true;
     OitVolumeRenderTask.is_HdStRenderPassState := λ _, true;
     OitVolumeRenderTask.SetUseSceneMaterials := λ _ h, h;
     OitVolumeRenderTask.SetDepthFunc := λ _ h, h;
     OitVolumeRenderTask.SetCullStyle := λ _ h, h;
     OitVolumeRenderTask.GetCullStyle := λ _, OitVolumeRenderTask.HdCullStyleBack;
     OitVolumeRenderTask.AddOitBufferBindings := λ w, (true, w);
     OitVolumeRenderTask.shader_SetCullStyle := λ _ h, h;
     OitVolumeRenderTask.SetRenderPassShader := λ h, h;
     OitVolumeRenderTask.SetEnableDepthMask := λ _ h, h;
     OitVolumeRenderTask.SetColorMasks := λ _ h, h;
     OitVolumeRenderTask.HdxRenderTask_Execute := λ w, w |}.

End Examples.

(** ** HdPrmanMaterial: the object around the converter (material.cpp) *)

Module HdPrmanMaterial.
Import Material.

#[global] Instance Diagnostic_eq_dec : EqDecision Diagnostic.
Proof. solve_decision. Defined.

(** The name an entry of a parameter list was set under. *)
Definition RtParam_name (q : RtParam) : string :=
  match q with
  | RtFloat n _ | RtInteger n _ | RtString n _ | RtColor n _ | RtVector n _
  | RtPoint n _ | RtNormal n _ | RtFloatArray n _ | RtIntegerArray n _
  | RtColorArray n _ | RtVectorArray n _ | RtPointArray n _
  | RtNormalArray n _ | RtReference _ n _ => n
  end.

Definition is_reference (q : RtParam) : bool :=
  match q with RtReference _ _ _ => true | _ => false end.

(** The shading network a call hands to the sink
    ([{nodes.size(), &nodes[0]}]), for the calls that take one. *)
Definition RileyCall_network (c : RileyCall) : option (list ShadingNode) :=
  match c with
  | CreateMaterial ns | ModifyMaterial _ ns
  | CreateDisplacement ns | ModifyDisplacement _ ns => Some ns
  | DeleteMaterial _ | DeleteDisplacement _ => None
  end.

(** The members of [HdPrmanMaterial] that material.cpp reads and writes;
    [_id] is what [GetId()] returns. *)
Record HdPrmanMaterial := {
  _id : SdfPath;
  _materialId : MaterialId;
  _displacementId : DisplacementId;
  _materialNetwork : HdMaterialNetwork2;
}.

(** The constructor (material.cpp:103-109). *)
Definition HdPrmanMaterial_new (id : SdfPath) : HdPrmanMaterial :=
  {| _id := id; _materialId := MaterialId_InvalidId;
     _displacementId := DisplacementId_InvalidId;
     _materialNetwork := {| nodes := ∅; terminals := [] |} |}.

(** [HdPrmanMaterial::_ResetMaterial] (material.cpp:123-135), on the
    object and the calls made on the sink so far. *)
Definition _ResetMaterial (self : HdPrmanMaterial) (riley : list RileyCall)
    : HdPrmanMaterial * list RileyCall :=
  let '(self, riley) :=
    if bool_decide (_materialId self ≠ MaterialId_InvalidId)
    then ({| _id := _id self; _materialId := MaterialId_InvalidId;
             _displacementId := _displacementId self;
             _materialNetwork := _materialNetwork self |},
          riley ++ [DeleteMaterial (_materialId self)])
    else (self, riley) in
  if bool_decide (_displacementId self ≠ DisplacementId_InvalidId)
  then ({| _id := _id self; _materialId := _materialId self;
           _displacementId := DisplacementId_InvalidId;
           _materialNetwork := _materialNetwork self |},
        riley ++ [DeleteDisplacement (_displacementId self)])
  else (self, riley).

(** [HdPrmanMaterial::Finalize] (material.cpp:115-121). *)
Definition Finalize (self : HdPrmanMaterial) (riley : list RileyCall)
    : HdPrmanMaterial * list RileyCall :=
  _ResetMaterial self riley.

(** [HdPrmanMaterial::IsValid] (material.cpp:734-738). *)
Definition IsValid (self : HdPrmanMaterial) : bool :=
  bool_decide (_materialId self ≠ MaterialId_InvalidId).

(** What [Sync] asks of the scene delegate and of Hydra: the material
    resource of a prim (a network map, or a value of another type, given by
    its type name), the conversion of a network map into the
    [HdMaterialNetwork2] behind a pointer, the filter chain runner with the
    error messages it hands back, and the dirty bits
    ([HdMaterial::DirtyResource], [HdMaterial::DirtyParams],
    [HdChangeTracker::Clean], [HdChangeTracker::AllDirty]). *)
Class SceneDelegate := {
  HdMaterialNetworkMap : Type;
  MatfiltFilterChain : Type;
  GetMaterialResource : SdfPath → HdMaterialNetworkMap + string;
  HdMaterialNetwork2ConvertFromHdMaterialNetworkMap :
    HdMaterialNetworkMap → HdMaterialNetwork2 → HdMaterialNetwork2;
  chain_empty : MatfiltFilterChain → bool;
  MatfiltExecFilterChain :
    MatfiltFilterChain → SdfPath → HdMaterialNetwork2
    → HdMaterialNetwork2 * list string;
  DirtyResource : Z;
  DirtyParams : Z;
  Clean : Z;
  AllDirty : Z;
}.

(** What [Sync] reports. *)
Inductive SyncDiagnostic :=
  | ErrorFilterChain (errors : list string)
  | WarnNotAMaterialNetwork (id : SdfPath) (typeName : string)
  | FromConverter (d : Diagnostic).

Section Sync.
Context `{Host} `{Riley} `{SceneDelegate}.

(** Applying the filter chain (material.cpp:700-710): not run when the
    chain is empty; errors are reported and the network is used anyway. *)
Definition _ApplyFilterChain (_filterChain : MatfiltFilterChain)
    (id : SdfPath) (network : HdMaterialNetwork2)
    : HdMaterialNetwork2 * list SyncDiagnostic :=
  if negb (chain_empty _filterChain) then
    let '(network, errors) := MatfiltExecFilterChain _filterChain id network in
    (network, match errors with
              | [] => []
              | _ => [ErrorFilterChain errors]
              end)
  else (network, []).

(** [HdPrmanMaterial::Sync] (material.cpp:680-725), given the global
    [_filterChain], the sink and the dirty bits behind the pointer; the
    result holds the object, the sink, the dirty bits and the reports
    afterwards.  The debug dump of the network prints only and is left
    out. *)
Definition Sync (_filterChain : MatfiltFilterChain) (self : HdPrmanMaterial)
    (riley : list RileyCall) (dirtyBits : Z)
    : option (HdPrmanMaterial * list RileyCall * Z * list SyncDiagnostic) :=
  let id := _id self in
  if bool_decide (Z.land dirtyBits DirtyResource ≠ 0%Z)
     || bool_decide (Z.land dirtyBits DirtyParams ≠ 0%Z)
  then
    match GetMaterialResource id with
    | inl networkMap =>
        let '(network, filterErrors) :=
          _ApplyFilterChain _filterChain id
            (HdMaterialNetwork2ConvertFromHdMaterialNetworkMap networkMap
               (_materialNetwork self)) in
        match _ConvertHdMaterialNetwork2ToRman id network
                (_materialId self) (_displacementId self) riley with
        | None => None
        | Some s =>
            Some ({| _id := id; _materialId := materialId s;
                     _displacementId := displacementId s;
                     _materialNetwork := network |},
                  Material.riley s, Clean,
                  filterErrors ++ (FromConverter <$> rman_diagnostics s))
        end
    | inr typeName =>
        let '(self, riley) := _ResetMaterial self riley in
        Some (self, riley, Clean, [WarnNotAMaterialNetwork id typeName])
    end
  else Some (self, riley, Clean, []).

(** [HdPrmanMaterial::GetInitialDirtyBitsMask] (material.cpp:727-732). *)
Definition GetInitialDirtyBitsMask : Z := AllDirty.

End Sync.

End HdPrmanMaterial.

(** ** Shader and texture paths of the hdx package (package.cpp) *)

Module HdxPackage.

(** What the plugin system and the image registry answer at the time of a
    call: the path of a plugin resource (empty when there is none), and
    whether an image file is supported. *)
Record Resources := {
  PlugFindPluginResource : string → string;
  IsSupportedImageFile : string → bool;
}.

(** [TF_VERIFY] failures of [_GetShaderPath] and [_GetTexturePath]. *)
Inductive VerifyFailure :=
  | CouldNotFindShader (shader : string)
  | CouldNotFindTexture (texture : string).

Section Package.
(** [TfStringCatPaths] joins a directory and a file name. *)
Context (TfStringCatPaths : string → string → string).

(** [_GetShaderPath] (package.cpp:37-46). *)
Definition _GetShaderPath (w : Resources) (shader : string)
    : string * list VerifyFailure :=
  let path := PlugFindPluginResource w (TfStringCatPaths "shaders" shader) in
  (path, if bool_decide (path = EmptyString)
         then [CouldNotFindShader shader] else []).

(** [_GetTexturePath] (package.cpp:48-57). *)
Definition _GetTexturePath (w : Resources) (texture : string)
    : string * list VerifyFailure :=
  let path := PlugFindPluginResource w (TfStringCatPaths "textures" texture) in
  (path, if bool_decide (path = EmptyString)
         then [CouldNotFindTexture texture] else []).

(** A function-local [static T x = init;]: [slot] is the storage, empty
    until the first call runs [init]. *)
Definition static_local {T D : Type} (init : T * list D) (slot : option T)
    : T * option T * list D :=
  match slot with
  | Some x => (x, slot, [])
  | None => (init.1, Some init.1, init.2)
  end.

(** The sixteen [HdxPackage...Shader] functions (package.cpp:59-171): each
    returns its static, initialised from its file under [shaders]. *)
Definition HdxPackageShader (file : string) (w : Resources)
    (shader : option string) : string * option string * list VerifyFailure :=
  static_local (_GetShaderPath w file) shader.

Definition HdxPackageFullscreenShader :=
  HdxPackageShader "fullscreen.glslfx".
Definition HdxPackageRenderPassColorShader :=
  HdxPackageShader "renderPassColorShader.glslfx".
Definition HdxPackageRenderPassColorAndSelectionShader :=
  HdxPackageShader "renderPassColorAndSelectionShader.glslfx".
Definition HdxPackageRenderPassColorWithOccludedSelectionShader :=
  HdxPackageShader "renderPassColorWithOccludedSelectionShader.glslfx".
Definition HdxPackageRenderPassIdShader :=
  HdxPackageShader "renderPassIdShader.glslfx".
Definition HdxPackageRenderPassPickingShader :=
  HdxPackageShader "renderPassPickingShader.glslfx".
Definition HdxPackageRenderPassShadowShader :=
  HdxPackageShader "renderPassShadowShader.glslfx".
Definition HdxPackageColorChannelShader :=
  HdxPackageShader "colorChannel.glslfx".
Definition HdxPackageColorCorrectionShader :=
  HdxPackageShader "colorCorrection.glslfx".
Definition HdxPackageVisualizeAovShader :=
  HdxPackageShader "visualize.glslfx".
Definition HdxPackageRenderPassOitShader :=
  HdxPackageShader "renderPassOitShader.glslfx".
Definition HdxPackageRenderPassOitOpaqueShader :=
  HdxPackageShader "renderPassOitOpaqueShader.glslfx".
Definition HdxPackageRenderPassOitVolumeShader :=
  HdxPackageShader "renderPassOitVolumeShader.glslfx".
Definition HdxPackageOitResolveImageShader :=
  HdxPackageShader "oitResolveImageShader.glslfx".
Definition HdxPackageOutlineShader :=
  HdxPackageShader "outline.glslfx".
Definition HdxPackageSkydomeShader :=
  HdxPackageShader "skydome.glslfx".

(** The two statics of [HdxPackageDefaultDomeLightTexture]. *)
Record DomeLightStatics := {
  useTex : option bool;
  domeLightTexture : option string;
}.

(** [HdxPackageDefaultDomeLightTexture] (package.cpp:173-184). *)
Definition HdxPackageDefaultDomeLightTexture (w : Resources)
    (statics : DomeLightStatics)
    : string * DomeLightStatics * list VerifyFailure :=
  let '(tex, useTex', _) :=
    static_local (D := VerifyFailure)
      (IsSupportedImageFile w "StinsonBeach.tex", []) (useTex statics) in
  let '(texture, domeLightTexture', failures) :=
    static_local
      (if tex then _GetTexturePath w "StinsonBeach.tex"
       else _GetTexturePath w "StinsonBeach.exr")
      (domeLightTexture statics) in
  (texture, {| useTex := useTex'; domeLightTexture := domeLightTexture' |},
   failures).

End Package.

End HdxPackage.

(** ** HdxOitVolumeRenderTask: [_Sync] and [Prepare] *)

Module OitVolumeRenderTaskPrepare.
Import OitVolumeRenderTask.

(** The base-class calls and the shader update that [_Sync] and [Prepare]
    make. *)
Class HydraPrepare `{Hydra} := {
  HdxRenderTask__Sync : GLState * hydra → GLState * hydra;
  HdxRenderTask_Prepare : GLState * hydra → GLState * hydra;
  UpdateAovInputTextures : hydra → hydra;
}.

Section Task.
Context `{HydraPrepare}.

(** [HdxOitVolumeRenderTask::_Sync] (oitVolumeRenderTask.cpp:52-64). *)
Definition _Sync (_isOitEnabled : bool) : M unit :=
  if _isOitEnabled then call HdxRenderTask__Sync else ret tt.

(** [HdxOitVolumeRenderTask::Prepare] (oitVolumeRenderTask.cpp:66-85). *)
Definition Prepare (_isOitEnabled : bool) : M unit :=
  bind (if _isOitEnabled then ask _HasDrawItems else ret false)
    (λ guard,
       if guard then
         bind (call HdxRenderTask_Prepare) (λ _,
         bind (call RequestOitBuffers) (λ _,
         bind (ask _GetRenderPassState) (λ state,
         if state then on_hydra UpdateAovInputTextures else ret tt)))
       else ret tt).

End Task.

End OitVolumeRenderTaskPrepare.

(** ** More concrete hosts *)

Module ExtraExamples.
Import Material MaterialGraph HdPrmanMaterial.

(** A network whose only terminal names a node it does not have. *)
Definition rootless : HdMaterialNetwork2 :=
  {| nodes := nodes (Examples.diamond "PxrManifold2D");
     terminals := [("surface", Examples.connection "/mat/Nowhere" "out")] |}.

(** The surface with a parameter the registry entry does not declare. *)
Definition surface_with_stray_parameter : HdMaterialNode2 :=
  without_parameter Examples.surface_node
    [("quality", VtString "high"); ("userNote", VtString "draft")].

(** A scene delegate whose material resource is never a network map; the
    dirty bits are given sample values. *)
Definition delegate : SceneDelegate :=
  {| HdMaterialNetworkMap := unit;
     MatfiltFilterChain := list unit;
     GetMaterialResource := λ _, inr "VtValue<empty>";
     HdMaterialNetwork2ConvertFromHdMaterialNetworkMap := λ _ network, network;
     chain_empty := λ chain, bool_decide (chain = []);
     MatfiltExecFilterChain := λ _ _ network, (network, []);
     DirtyResource := 8;
     DirtyParams := 4;
     Clean := 0;
     AllDirty := 12 |}.

(** A scene delegate whose material resource is the diamond, with a
    conversion that stores the map as it is. *)
Definition network_delegate : SceneDelegate :=
  {| HdMaterialNetworkMap := HdMaterialNetwork2;
     MatfiltFilterChain := list unit;
     GetMaterialResource := λ _, inl (Examples.diamond "PxrManifold2D");
     HdMaterialNetwork2ConvertFromHdMaterialNetworkMap := λ networkMap _,
       networkMap;
     chain_empty := λ chain, bool_decide (chain = []);
     MatfiltExecFilterChain := λ _ _ network, (network, []);
     DirtyResource := 8;
     DirtyParams := 4;
     Clean := 0;
     AllDirty := 12 |}.

Definition committed_material : HdPrmanMaterial :=
  {| _id := "/mat"; _materialId := MaterialId_Of 3;
     _displacementId := DisplacementId_InvalidId;
     _materialNetwork := Examples.diamond "PxrManifold2D" |}.

(** A shader base with one field per stage, and a file system on which the
    file loads and is valid. *)
Definition staged_shader_base : GlslfxShader.ShaderBase :=
  {| GlslfxShader.HdSt_MaterialNetworkShader := (string * string)%type;
     GlslfxShader.fragmentShader := "fragmentShader";
     GlslfxShader.geometryShader := "geometryShader";
     GlslfxShader._SetSource := λ k v b,
       if String.eqb k "fragmentShader" then (v, b.2)
       else if String.eqb k "geometryShader" then (b.1, v) else b;
     GlslfxShader.GetSource := λ k b,
       if String.eqb k "fragmentShader" then b.1
       else if String.eqb k "geometryShader" then b.2 else EmptyString;
     GlslfxShader.HioGlslfx_new := λ path,
       {| GlslfxShader.GetFilePath := path; GlslfxShader.IsValid := true;
          GlslfxShader.GetSurfaceSource := "surface v2";
          GlslfxShader.GetDisplacementSource := "displacement v2" |} |}.

Definition staged_shader
    : @GlslfxShader.HdStGLSLFXShader staged_shader_base :=
  @GlslfxShader.HdStGLSLFXShader_new staged_shader_base
    (EmptyString, EmptyString) Examples.loaded_glslfx.

(** A world where the GL flags are set the other way round, for
    [Examples.hydra0]. *)
Definition gl_world : @OitVolumeRenderTask.World Examples.hydra0 :=
  ({| OitVolumeRenderTask.multisample := false;
      OitVolumeRenderTask.point_smooth := true |}, tt).


Definition hydra_prepare0
    : @OitVolumeRenderTaskPrepare.HydraPrepare Examples.hydra0 :=
  {| OitVolumeRenderTaskPrepare.HdxRenderTask__Sync := λ w, w;
     OitVolumeRenderTaskPrepare.HdxRenderTask_Prepare := λ w, w;
     OitVolumeRenderTaskPrepare.UpdateAovInputTextures := λ h, h |}.

End ExtraExamples.

(** * Properties *)

(** ** The material network converter *)

Module MaterialProofs.
Import Material MaterialGraph.

(** *** Loops *)

Lemma for_each_app {A S : Type} (body : A → S → option S) (l1 l2 : list A)
    (s : S) :
  for_each body (l1 ++ l2) s = for_each body l1 s ≫= for_each body l2.
Proof.
  revert s. induction l1 as [|x l1 IH]; intros s; simpl; [done|].
  destruct (body x s); simpl; [apply IH|done].
Qed.

Lemma for_each_concat {A B S : Type} (body : B → S → option S)
    (f : A → list B) (l : list A) (s : S) :
  for_each (λ x, for_each body (f x)) l s = for_each body (concat (f <$> l)) s.
Proof.
  revert s. induction l as [|x l IH]; intros s; simpl; [done|].
  rewrite for_each_app. destruct (for_each body (f x) s); simpl; [apply IH|done].
Qed.

Lemma accumulate_eq {A : Type} (body : A → list RtParam * list Diagnostic)
    (l : list A) (acc : list RtParam * list Diagnostic) :
  accumulate body l acc
  = (acc.1 ++ concat ((λ x, (body x).1) <$> l),
     acc.2 ++ concat ((λ x, (body x).2) <$> l)).
Proof.
  unfold accumulate. revert acc.
  induction l as [|x l IH]; intros [ps ds]; simpl.
  - by rewrite !app_nil_r.
  - rewrite IH. simpl. by rewrite !app_assoc.
Qed.

Section Proofs.
Context `{Host}.

Lemma _ConvertConnections_eq N p node sdrEntry acc :
  _ConvertConnections N p node sdrEntry acc
  = (acc.1 ++ (connection_output N p sdrEntry (inputConnections node)).1,
     acc.2 ++ (connection_output N p sdrEntry (inputConnections node)).2).
Proof.
  unfold _ConvertConnections, connection_output.
  generalize (inputConnections node) as conns. intros conns. revert acc.
  induction conns as [|ce conns IH]; intros [ps ds]; simpl.
  - by rewrite !app_nil_r.
  - rewrite IH, accumulate_eq. simpl. by rewrite !app_assoc.
Qed.

Lemma _ConvertParam_nodeTypeId p node node' sdrEntry snType param :
  nodeTypeId node' = nodeTypeId node →
  _ConvertParam p node' sdrEntry snType param
  = _ConvertParam p node sdrEntry snType param.
Proof. intros Heq. unfold _ConvertParam. by rewrite Heq. Qed.

Lemma _ClassifyNode_nodeTypeId sdrEntry node node' :
  nodeTypeId node' = nodeTypeId node →
  _ClassifyNode sdrEntry node' = _ClassifyNode sdrEntry node.
Proof. intros Heq. unfold _ClassifyNode. by rewrite Heq. Qed.

(** Two nodes of the same type whose parameters yield the same [Set...]
    calls and whose connections yield the same references convert to the
    same shading node. *)
Lemma _MakeShadingNode_node_eq N N' p node node' :
  nodeTypeId node' = nodeTypeId node →
  (∀ sdrEntry snType,
     GetShaderNodeByIdentifier (nodeTypeId node) = Some sdrEntry →
     concat ((λ x, (_ConvertParam p node sdrEntry snType x).1)
               <$> parameters node')
     = concat ((λ x, (_ConvertParam p node sdrEntry snType x).1)
                 <$> parameters node)) →
  (∀ sdrEntry,
     (connection_output N' p sdrEntry (inputConnections node')).1
     = (connection_output N p sdrEntry (inputConnections node)).1) →
  (_MakeShadingNode N' p node').1 = (_MakeShadingNode N p node).1.
Proof.
  intros Hty Hparams Hconns. unfold _MakeShadingNode. rewrite Hty.
  destruct (GetShaderNodeByIdentifier (nodeTypeId node)) as [sdrEntry|] eqn:Hsdr;
    [|done].
  rewrite (_ClassifyNode_nodeTypeId _ _ _ Hty).
  destruct (_ClassifyNode sdrEntry node) as [snType|]; [|done].
  case_bool_decide; [done|].
  rewrite !_ConvertConnections_eq, Hconns. unfold _ConvertParams.
  rewrite !accumulate_eq. simpl. do 3 f_equal.
  rewrite <- (Hparams sdrEntry snType eq_refl). f_equal.
  apply list_fmap_ext. intros ? x _.
  by rewrite (_ConvertParam_nodeTypeId _ _ _ _ _ _ Hty).
Qed.

Lemma _MakeShadingNode_handle N p node sn :
  (_MakeShadingNode N p node).1 = Some sn → sn_handle sn = p.
Proof.
  unfold _MakeShadingNode.
  destruct (GetShaderNodeByIdentifier _); [|done].
  destruct (_ClassifyNode _ _); [|done].
  case_bool_decide; [done|].
  destruct (_ConvertConnections _ _ _ _ _). simpl. by intros [= <-].
Qed.

(** The registry decides alone whether a node is emitted. *)
Lemma _MakeShadingNode_is_Some N p node :
  is_Some (_MakeShadingNode N p node).1
  ↔ ∃ sdrEntry snType,
      GetShaderNodeByIdentifier (nodeTypeId node) = Some sdrEntry
      ∧ _ClassifyNode sdrEntry node = Some snType
      ∧ GetResolvedImplementationURI sdrEntry ≠ EmptyString.
Proof.
  unfold _MakeShadingNode.
  destruct (GetShaderNodeByIdentifier _) as [sdrEntry|].
  - destruct (_ClassifyNode _ _) as [snType|] eqn:Hclass.
    + case_bool_decide as Hpath.
      * split; [by intros [? [=]]|]. intros (? & ? & ? & ? & ?). naive_solver.
      * destruct (_ConvertConnections _ _ _ _ _). simpl.
        split; [|by eauto]. intros _. by exists sdrEntry, snType.
    + split; [by intros [? [=]]|]. intros (? & ? & ? & ? & ?). naive_solver.
  - split; [by intros [? [=]]|]. by intros (? & ? & ? & _).
Qed.

(** *** The function computes the relation *)

Lemma upstream_loop_sound fuel N es st st' :
  (∀ p st b st',
     _ConvertNodes fuel N p st = Some (b, st') →
     ∃ new ds, visit N p (visitedNodes st) b (visitedNodes st') new ds
               ∧ result st' = result st ++ new
               ∧ diagnostics st' = diagnostics st ++ ds) →
  for_each (λ e st, snd <$> _ConvertNodes fuel N (upstreamNode e) st) es st
  = Some st' →
  ∃ new ds, upstream N es (visitedNodes st) (visitedNodes st') new ds
            ∧ result st' = result st ++ new
            ∧ diagnostics st' = diagnostics st ++ ds.
Proof.
  intros IH. revert st. induction es as [|e es IHes]; intros st; simpl.
  - intros [= <-]. exists [], []. rewrite !app_nil_r. split; [constructor|done].
  - destruct (_ConvertNodes fuel N (upstreamNode e) st) as [[b st1]|] eqn:Hcall;
      simpl; [|done].
    intros Hrest.
    destruct (IH _ _ _ _ Hcall) as (new1 & ds1 & Hv & Hr & Hd).
    destruct (IHes _ Hrest) as (new2 & ds2 & Hu & Hr2 & Hd2).
    exists (new1 ++ new2), (ds1 ++ ds2).
    split; [by econstructor|]. by rewrite Hr2, Hr, Hd2, Hd, !app_assoc.
Qed.

Lemma _ConvertNodes_sound fuel N p st b st' :
  _ConvertNodes fuel N p st = Some (b, st') →
  ∃ new ds, visit N p (visitedNodes st) b (visitedNodes st') new ds
            ∧ result st' = result st ++ new
            ∧ diagnostics st' = diagnostics st ++ ds.
Proof.
  revert p st b st'. induction fuel as [|fuel IH]; intros p st b st'; simpl;
    [done|].
  case_bool_decide as Hseen.
  - intros [= <- <-]. exists [], []. rewrite !app_nil_r.
    split; [by constructor|done].
  - destruct (nodes N !! p) as [node|] eqn:Hnode.
    + rewrite (for_each_concat _ snd).
      destruct (for_each _ _ _) as [st1|] eqn:Hloop; [|done].
      apply (upstream_loop_sound _ _ _ _ _ IH) in Hloop
        as (new & ds & Hup & Hr & Hd).
      simpl in Hup, Hr, Hd.
      pose proof (visit_node N p _ node _ new ds Hseen Hnode Hup) as Hvisit.
      destruct (_MakeShadingNode N p node) as [[sn|] ds'];
        simpl in Hvisit; intros [= <- <-]; simpl; eexists _, _;
        (split; [exact Hvisit|]); by rewrite Hr, Hd, <- ?app_assoc, ?app_nil_r.
    + intros [= <- <-]. exists [], [WarnUnknownMaterialNode p].
      simpl. rewrite app_nil_r. split; [by constructor|done].
Qed.

(** *** What a visit does to the visited set and the output *)

Lemma edge_inv N p u :
  edge N p u ↔ ∃ node e, nodes N !! p = Some node
                         ∧ e ∈ connections node ∧ u = upstreamNode e.
Proof.
  unfold edge. split.
  - intros (node & Hnode & Hu). apply list_elem_of_fmap in Hu as (e & -> & He).
    by exists node, e.
  - intros (node & e & Hnode & He & ->). exists node. split; [done|].
    apply list_elem_of_fmap. by exists e.
Qed.

Lemma visit_upstream_facts N :
  (∀ p V b V' new ds,
     visit N p V b V' new ds →
     V ⊆ V' ∧ p ∈ V'
     ∧ (∀ m, m ∈ handles new →
             (m ∉ V) ∧ m ∈ V' ∧ rtc (edge N) p m ∧ convertible N m
             ∧ (∀ u, edge N m u → u ∈ V'))
     ∧ NoDup (handles new))
  ∧ (∀ es V V' new ds,
       upstream N es V V' new ds →
       V ⊆ V' ∧ (∀ e, e ∈ es → upstreamNode e ∈ V')
       ∧ (∀ m, m ∈ handles new →
               (m ∉ V) ∧ m ∈ V'
               ∧ (∃ e, e ∈ es ∧ rtc (edge N) (upstreamNode e) m)
               ∧ convertible N m
               ∧ (∀ u, edge N m u → u ∈ V'))
       ∧ NoDup (handles new)).
Proof.
  apply visit_upstream_ind.
  - intros p V Hp. split_and!; [done|done| |constructor].
    intros m Hm. by apply elem_of_nil in Hm.
  - intros p V Hp Hnode. split_and!; [set_solver|set_solver| |constructor].
    intros m Hm. by apply elem_of_nil in Hm.
  - intros p V node V' new ds Hp Hnode _ (Hsub & Hconn & Hnew & Hnodup).
    assert (∀ u, edge N p u → u ∈ V') as Hedges.
    { intros u (node' & e & Hnode' & He & ->)%edge_inv.
      rewrite Hnode in Hnode'. injection Hnode' as <-. by apply Hconn. }
    split_and!; [set_solver|set_solver| |].
    + intros m. unfold handles. rewrite fmap_app, elem_of_app.
      intros [Hm|Hm].
      * destruct (Hnew m Hm) as (Hm1 & Hm2 & (e & He & Hreach) & Hm4 & Hm5).
        split_and!; [set_solver|done| |done|done].
        eapply rtc_l; [|exact Hreach]. apply edge_inv. by exists node, e.
      * destruct (_MakeShadingNode N p node).1 as [sn|] eqn:Hmk;
          [|by apply elem_of_nil in Hm].
        apply list_elem_of_singleton in Hm.
        rewrite (_MakeShadingNode_handle _ _ _ _ Hmk) in Hm. subst m.
        split_and!; [done|set_solver|done| |done].
        exists node. by rewrite Hmk.
    + unfold handles. rewrite fmap_app. apply NoDup_app. split_and!; [done| |].
      * intros m Hm Hm'.
        destruct (_MakeShadingNode N p node).1 as [sn|] eqn:Hmk;
          [|by apply elem_of_nil in Hm'].
        apply list_elem_of_singleton in Hm'.
        rewrite (_MakeShadingNode_handle _ _ _ _ Hmk) in Hm'. subst m.
        destruct (Hnew p Hm) as (Hm1 & _). set_solver.
      * destruct (_MakeShadingNode N p node).1; simpl;
          [apply NoDup_singleton|constructor].
  - intros V. split_and!; [done| | |constructor].
    + intros e He. by apply elem_of_nil in He.
    + intros m Hm. by apply elem_of_nil in Hm.
  - intros e es V b V1 V2 new1 new2 ds1 ds2
      _ (Hsub1 & He & Hnew1 & Hnodup1) _ (Hsub2 & Hes & Hnew2 & Hnodup2).
    split_and!; [set_solver| | |].
    + intros e' [->|He']%elem_of_cons; [set_solver|by apply Hes].
    + intros m. unfold handles. rewrite fmap_app, elem_of_app.
      intros [Hm|Hm].
      * destruct (Hnew1 m Hm) as (Hm1 & Hm2 & Hm3 & Hm4 & Hm5).
        split_and!; [done|set_solver| |done|set_solver].
        exists e. split; [left|done].
      * destruct (Hnew2 m Hm) as (Hm1 & Hm2 & (e' & He' & Hm3) & Hm4 & Hm5).
        split_and!; [set_solver|done| |done|done].
        exists e'. split; [by right|done].
    + unfold handles. rewrite fmap_app. apply NoDup_app. split_and!; [done| |done].
      intros m Hm Hm'. destruct (Hnew1 m Hm) as (_ & Hm2 & _).
      destruct (Hnew2 m Hm') as (Hm1 & _). done.
Qed.

Lemma visit_facts N p V b V' new ds :
  visit N p V b V' new ds →
  V ⊆ V' ∧ p ∈ V'
  ∧ (∀ m, m ∈ handles new →
          (m ∉ V) ∧ m ∈ V' ∧ rtc (edge N) p m ∧ convertible N m
          ∧ (∀ u, edge N m u → u ∈ V'))
  ∧ NoDup (handles new).
Proof. apply visit_upstream_facts. Qed.

Lemma upstream_facts N es V V' new ds :
  upstream N es V V' new ds →
  V ⊆ V' ∧ (∀ e, e ∈ es → upstreamNode e ∈ V')
  ∧ (∀ m, m ∈ handles new →
          (m ∉ V) ∧ m ∈ V'
          ∧ (∃ e, e ∈ es ∧ rtc (edge N) (upstreamNode e) m)
          ∧ convertible N m
          ∧ (∀ u, edge N m u → u ∈ V'))
  ∧ NoDup (handles new).
Proof. apply visit_upstream_facts. Qed.

(** Every path newly added to the visited set has all its connections
    visited, is in the output when the registry lets it through, and is
    reported when the network does not have it. *)
Lemma visit_upstream_closed N :
  (∀ p V b V' new ds,
     visit N p V b V' new ds →
     ∀ m, m ∈ V' → m ∉ V →
          (∀ u, edge N m u → u ∈ V')
          ∧ (convertible N m → m ∈ handles new)
          ∧ (nodes N !! m = None → WarnUnknownMaterialNode m ∈ ds))
  ∧ (∀ es V V' new ds,
       upstream N es V V' new ds →
       ∀ m, m ∈ V' → m ∉ V →
            (∀ u, edge N m u → u ∈ V')
            ∧ (convertible N m → m ∈ handles new)
            ∧ (nodes N !! m = None → WarnUnknownMaterialNode m ∈ ds)).
Proof.
  apply visit_upstream_ind.
  - intros p V Hp m Hm Hm'. done.
  - intros p V Hp Hnode m Hm Hm'.
    assert (m = p) as -> by set_solver.
    split_and!.
    + intros u (node & Hnode' & _). congruence.
    + intros (node & Hnode' & _). congruence.
    + intros _. apply list_elem_of_singleton. done.
  - intros p V node V' new ds Hp Hnode Hup IH m Hm Hm'.
    destruct (upstream_facts _ _ _ _ _ _ Hup) as (Hsub & Hconn & _).
    destruct (decide (m = p)) as [->|Hne].
    + split_and!.
      * intros u (node' & e & Hnode' & He & ->)%edge_inv.
        rewrite Hnode in Hnode'. injection Hnode' as <-. by apply Hconn.
      * intros (node' & Hnode' & [sn Hsn]).
        rewrite Hnode in Hnode'. injection Hnode' as <-.
        rewrite Hsn. unfold handles. rewrite fmap_app, elem_of_app. right.
        simpl. rewrite (_MakeShadingNode_handle _ _ _ _ Hsn).
        by apply list_elem_of_singleton.
      * congruence.
    + destruct (IH m Hm) as (IH1 & IH2 & IH3); [set_solver|].
      split_and!; [done| |].
      * intros Hc. unfold handles. rewrite fmap_app, elem_of_app. left.
        by apply IH2.
      * intros Hn. apply elem_of_app. left. by apply IH3.
  - intros V m Hm Hm'. done.
  - intros e es V b V1 V2 new1 new2 ds1 ds2 Hv IH1 Hup IH2 m Hm Hm'.
    destruct (upstream_facts _ _ _ _ _ _ Hup) as (Hsub & _).
    unfold handles. rewrite fmap_app.
    destruct (decide (m ∈ V1)) as [Hin|Hout].
    + destruct (IH1 m Hin Hm') as (IH11 & IH12 & IH13).
      split_and!.
      * intros u Hu. apply Hsub. by apply IH11.
      * intros Hc. apply elem_of_app. left. by apply IH12.
      * intros Hn. apply elem_of_app. left. by apply IH13.
    + destruct (IH2 m Hm Hout) as (IH21 & IH22 & IH23).
      split_and!; [done| |].
      * intros Hc. apply elem_of_app. right. by apply IH22.
      * intros Hn. apply elem_of_app. right. by apply IH23.
Qed.

(** The flag returned by a first visit: the registry's verdict on the
    node itself. *)
Lemma visit_flag N p V b V' new ds :
  visit N p V b V' new ds → p ∉ V → b = true ↔ convertible N p.
Proof.
  intros Hv Hfresh. destruct Hv as [p V Hp|p V _ Hnode|p V node V' new ds _ Hnode _].
  - done.
  - split; [done|]. intros (node & Hnode' & _). congruence.
  - split.
    + intros Hb. exists node. split; [done|].
      by destruct (_MakeShadingNode N p node).1.
    + intros (node' & Hnode' & [sn Hsn]).
      rewrite Hnode in Hnode'. injection Hnode' as <-. by rewrite Hsn.
Qed.

(** From the empty visited set, everything reachable gets visited. *)
Lemma visit_reachable N root b V' new ds m :
  visit N root ∅ b V' new ds → rtc (edge N) root m → m ∈ V'.
Proof.
  intros Hv Hreach.
  destruct (visit_facts _ _ _ _ _ _ _ Hv) as (_ & Hroot & _).
  revert m Hreach. apply rtc_ind_r; [done|].
  intros y z _ Hyz Hy.
  destruct (proj1 (visit_upstream_closed N) _ _ _ _ _ _ Hv y) as (Hedges & _);
    [done|set_solver|].
  by apply Hedges.
Qed.

(** *** Order of the output in an acyclic network *)

Lemma lookup_handles (new : list ShadingNode) j sn :
  new !! j = Some sn → sn_handle sn ∈ handles new.
Proof.
  intros Hj. apply list_elem_of_fmap. exists sn. split; [done|].
  by eapply list_elem_of_lookup_2.
Qed.

Lemma visit_upstream_order N :
  acyclic N →
  (∀ p V b V' new ds,
     visit N p V b V' new ds →
     ∀ i j sn su, new !! j = Some sn → new !! i = Some su →
                  edge N (sn_handle sn) (sn_handle su) → i < j)
  ∧ (∀ es V V' new ds,
       upstream N es V V' new ds →
       ∀ i j sn su, new !! j = Some sn → new !! i = Some su →
                    edge N (sn_handle sn) (sn_handle su) → i < j).
Proof.
  intros Hacyclic. apply visit_upstream_ind.
  - intros p V _ i j sn su Hj. done.
  - intros p V _ _ i j sn su Hj. done.
  - intros p V node V' new ds Hp Hnode Hup IH i j sn su Hj Hi Hedge.
    destruct (upstream_facts _ _ _ _ _ _ Hup) as (_ & _ & Hnew & _).
    assert (∀ k s, option_list (_MakeShadingNode N p node).1 !! k = Some s →
                   k = 0 ∧ sn_handle s = p) as Hlast.
    { intros k s. destruct (_MakeShadingNode N p node).1 as [sn'|] eqn:Hmk;
        [|done].
      destruct k; [|done]. simpl. intros [= <-].
      by rewrite (_MakeShadingNode_handle _ _ _ _ Hmk). }
    apply lookup_app_Some in Hj as [Hj|[Hlenj Hj]];
      apply lookup_app_Some in Hi as [Hi|[Hleni Hi]].
    + by eapply IH.
    + exfalso. apply Hlast in Hi as [_ Hsu]. rewrite Hsu in Hedge.
      destruct (Hnew (sn_handle sn)) as (_ & _ & (e & He & Hreach) & _);
        [by eapply lookup_handles|].
      apply (Hacyclic p). eapply tc_r; [|exact Hedge].
      eapply tc_rtc_r; [|exact Hreach].
      apply tc_once, edge_inv. by exists node, e.
    + apply lookup_lt_Some in Hi. lia.
    + exfalso. apply Hlast in Hi as [_ Hsu]. apply Hlast in Hj as [_ Hsn].
      rewrite Hsu, Hsn in Hedge. apply (Hacyclic p). by apply tc_once.
  - intros V i j sn su Hj. done.
  - intros e es V b V1 V2 new1 new2 ds1 ds2 Hv IH1 Hup IH2 i j sn su Hj Hi
      Hedge.
    destruct (visit_facts _ _ _ _ _ _ _ Hv) as (_ & _ & Hnew1 & _).
    destruct (upstream_facts _ _ _ _ _ _ Hup) as (_ & _ & Hnew2 & _).
    apply lookup_app_Some in Hj as [Hj|[Hlenj Hj]];
      apply lookup_app_Some in Hi as [Hi|[Hleni Hi]].
    + by eapply IH1.
    + exfalso.
      destruct (Hnew1 (sn_handle sn)) as (_ & _ & _ & _ & Hedges);
        [by eapply lookup_handles|].
      destruct (Hnew2 (sn_handle su)) as (Hfresh & _);
        [by eapply lookup_handles|].
      apply Hfresh. by apply Hedges.
    + apply lookup_lt_Some in Hi. lia.
    + specialize (IH2 _ _ _ _ Hj Hi Hedge). lia.
Qed.

(** *** Termination: the fuel of the entry point is enough *)

Lemma _ConvertNodes_enough_fuel fuel N p st :
  size (dom (nodes N) ∖ visitedNodes st) < fuel →
  is_Some (_ConvertNodes fuel N p st).
Proof.
  revert p st. induction fuel as [|fuel IH]; intros p st Hfuel; [lia|].
  simpl. case_bool_decide as Hseen; [by eauto|].
  destruct (nodes N !! p) as [node|] eqn:Hnode; [|by eauto].
  assert (size (dom (nodes N) ∖ visitedNodes (mark_visited p st)) < fuel)
    as Hfuel'.
  { apply Nat.lt_le_trans with (size (dom (nodes N) ∖ visitedNodes st));
      [|lia].
    apply subset_size. simpl. apply elem_of_dom_2 in Hnode.
    split; [set_solver|]. intros Hsub. specialize (Hsub p). set_solver. }
  rewrite (for_each_concat _ snd).
  enough (∀ es st1, size (dom (nodes N) ∖ visitedNodes st1) < fuel →
            is_Some (for_each (λ e st,
                       snd <$> _ConvertNodes fuel N (upstreamNode e) st)
                       es st1)) as Hloop.
  { destruct (Hloop (concat (snd <$> inputConnections node))
                (mark_visited p st) Hfuel') as [st1 ->].
    destruct (_MakeShadingNode N p node) as [[sn|] ds]; by eauto. }
  clear -IH. induction es as [|e es IHes]; intros st1 Hfuel; simpl;
    [by eauto|].
  destruct (IH (upstreamNode e) st1 Hfuel) as [[b st2] Hcall].
  rewrite Hcall. simpl. apply IHes.
  apply _ConvertNodes_sound in Hcall as (new & ds & Hv & _).
  apply visit_facts in Hv as (Hsub & _).
  eapply Nat.le_lt_trans; [|exact Hfuel].
  apply subseteq_size. set_solver.
Qed.

(** *** The relation is a function *)

Lemma visit_upstream_det N :
  (∀ p V b V' new ds,
     visit N p V b V' new ds →
     ∀ b2 V2 new2 ds2, visit N p V b2 V2 new2 ds2 →
                       b = b2 ∧ V' = V2 ∧ new = new2 ∧ ds = ds2)
  ∧ (∀ es V V' new ds,
       upstream N es V V' new ds →
       ∀ V2 new2 ds2, upstream N es V V2 new2 ds2 →
                      V' = V2 ∧ new = new2 ∧ ds = ds2).
Proof.
  apply visit_upstream_ind.
  - intros p V Hp b2 V2 new2 ds2 Hv2. by inversion Hv2; simplify_eq.
  - intros p V Hp Hnode b2 V2 new2 ds2 Hv2. by inversion Hv2; simplify_eq.
  - intros p V node V' new ds Hp Hnode _ IH b2 V2 new2 ds2 Hv2.
    inversion Hv2; simplify_eq; try done.
    match goal with Hup : upstream _ _ _ _ _ _ |- _ =>
      destruct (IH _ _ _ Hup) as (-> & -> & ->) end.
    done.
  - intros V V2 new2 ds2 Hu2. by inversion Hu2.
  - intros e es V b V1 V2 new1 new2 ds1 ds2 _ IH1 _ IH2 V3 new3 ds3 Hu3.
    inversion Hu3; simplify_eq.
    match goal with Hv : visit _ _ _ _ _ _ _ |- _ =>
      destruct (IH1 _ _ _ _ Hv) as (-> & -> & -> & ->) end.
    match goal with Hup : upstream _ _ _ _ _ _ |- _ =>
      destruct (IH2 _ _ _ Hup) as (-> & -> & ->) end.
    done.
Qed.

(** *** The entry point *)

Lemma HdPrman_Convert_visit N root r :
  ∃ b V' new ds,
    HdPrman_ConvertHdMaterialNetwork2ToRmanNodes N root r
    = Some (b, r ++ new, ds)
    ∧ visit N root ∅ b V' new ds.
Proof.
  unfold HdPrman_ConvertHdMaterialNetwork2ToRmanNodes.
  destruct (_ConvertNodes_enough_fuel (S (size (nodes N))) N root
              {| result := r; visitedNodes := ∅; diagnostics := [] |})
    as [[b st'] Hcall].
  { simpl. rewrite difference_empty_L, size_dom. lia. }
  rewrite Hcall. simpl.
  apply _ConvertNodes_sound in Hcall as (new & ds & Hv & Hr & Hd).
  simpl in Hv, Hr, Hd. exists b, (visitedNodes st'), new, ds.
  by rewrite Hr, Hd.
Qed.

(** A numbering that decreases along the connections rules out cycles. *)
Lemma ranked_acyclic N (rank : SdfPath → nat) :
  ranked N rank = true → acyclic N.
Proof.
  intros Hranked.
  assert (∀ p u, edge N p u → rank u < rank p) as Hedge.
  { intros p u (node & Hnode & Hu). unfold ranked in Hranked.
    rewrite forallb_forall in Hranked.
    specialize (Hranked (p, node)). simpl in Hranked.
    rewrite forallb_forall in Hranked.
    apply Nat.ltb_lt, Hranked; [|by apply list_elem_of_In].
    by apply list_elem_of_In, elem_of_map_to_list. }
  assert (∀ p u, tc (edge N) p u → rank u < rank p) as Htc.
  { intros p u Hpu. induction Hpu as [p u Hpu|p q u Hpq _ IH].
    - by apply Hedge.
    - apply Hedge in Hpq. lia. }
  intros p Hp. apply Htc in Hp. lia.
Qed.

(** C1. For every acyclic network and root, whatever the caller's vector
    [r] holds, the call succeeds and every node it emits ([new], at
    position [length r + j] of the output list) comes after each of its
    upstream dependencies found anywhere in the list: the output is in
    topological dependency order. *)
Theorem topological_order N root r :
  acyclic N →
  ∃ b new ds,
    HdPrman_ConvertHdMaterialNetwork2ToRmanNodes N root r
    = Some (b, r ++ new, ds)
    ∧ ∀ i j sn su,
        new !! j = Some sn → (r ++ new) !! i = Some su →
        edge N (sn_handle sn) (sn_handle su) → i < length r + j.
Proof.
  intros Hacyclic.
  destruct (HdPrman_Convert_visit N root r) as (b & V' & new & ds & Hrun & Hv).
  exists b, new, ds. split; [done|].
  intros i j sn su Hj Hi Hedge.
  apply lookup_app_Some in Hi as [Hi|[Hlen Hi]].
  - apply lookup_lt_Some in Hi. lia.
  - pose proof (proj1 (visit_upstream_order N Hacyclic) _ _ _ _ _ _ Hv
                  _ _ _ _ Hj Hi Hedge). lia.
Qed.

(** C2, as the code has it.  One call never emits a node twice; every
    emitted node is reachable from the root and let through by the
    registry; a node reachable from the root (along one connection path or
    several) that the registry lets through is in the output exactly once.
    Its place is fixed by its first visit, which appends it right after
    what its upstream traversal emitted; a repeat visit returns [false]
    with the state untouched, and the loop over the connections goes on. *)
Theorem shared_node_emitted_once N root r :
  ∃ b new ds,
    HdPrman_ConvertHdMaterialNetwork2ToRmanNodes N root r
    = Some (b, r ++ new, ds)
    ∧ NoDup (handles new)
    ∧ (∀ m, m ∈ handles new → rtc (edge N) root m ∧ convertible N m)
    ∧ (∀ m, rtc (edge N) root m → convertible N m →
            ∃ l1 sn l2, new = l1 ++ sn :: l2 ∧ sn_handle sn = m
                        ∧ (m ∉ handles l1) ∧ (m ∉ handles l2))
    ∧ (∀ fuel p st st',
         p ∉ visitedNodes st → _ConvertNodes fuel N p st = Some (true, st') →
         ∃ up sn, result st' = result st ++ up ++ [sn] ∧ sn_handle sn = p)
    ∧ (∀ fuel p st,
         p ∈ visitedNodes st → _ConvertNodes (S fuel) N p st = Some (false, st))
    ∧ (∀ fuel e es st,
         upstreamNode e ∈ visitedNodes st →
         for_each (λ e st, snd <$> _ConvertNodes (S fuel) N (upstreamNode e) st)
           (e :: es) st
         = for_each (λ e st,
                       snd <$> _ConvertNodes (S fuel) N (upstreamNode e) st)
             es st).
Proof.
  destruct (HdPrman_Convert_visit N root r) as (b & V' & new & ds & Hrun & Hv).
  exists b, new, ds.
  destruct (visit_facts _ _ _ _ _ _ _ Hv) as (_ & _ & Hnew & Hnodup).
  split_and!; [done|done| | | | |].
  - intros m Hm. destruct (Hnew m Hm) as (_ & _ & ? & ? & _). done.
  - intros m Hreach Hconv.
    assert (m ∈ handles new) as Hm.
    { apply (proj1 (visit_upstream_closed N) _ _ _ _ _ _ Hv);
        [by eapply visit_reachable|set_solver|done]. }
    apply list_elem_of_fmap in Hm as (sn & -> & Hsn).
    apply list_elem_of_split in Hsn as (l1 & l2 & ->).
    exists l1, sn, l2. split_and!; [done|done| |].
    + unfold handles in Hnodup. rewrite fmap_app in Hnodup.
      apply NoDup_app in Hnodup as (_ & Hdisj & _).
      intros Hin. apply (Hdisj _ Hin). simpl. left.
    + unfold handles in Hnodup. rewrite fmap_app in Hnodup.
      apply NoDup_app in Hnodup as (_ & _ & Hnodup). simpl in Hnodup.
      by apply NoDup_cons in Hnodup as [? _].
  - intros fuel p st st' Hfresh Hcall.
    apply _ConvertNodes_sound in Hcall as (new' & ds' & Hv' & Hr & _).
    inversion Hv' as [| |? ? node ? up ? _ Hnode _ Hb]; simplify_eq.
    destruct (_MakeShadingNode N p node).1 as [sn|] eqn:Hmk; [|done].
    exists up, sn. split; [done|]. by eapply _MakeShadingNode_handle.
  - intros fuel p st Hseen. simpl. by rewrite bool_decide_eq_true_2.
  - intros fuel e es st Hseen. cbn [for_each _ConvertNodes].
    by rewrite bool_decide_eq_true_2.
Qed.

(** C8. The outcome of a conversion depends on the network, the root and
    the registry only: there are a flag, a list of nodes and a list of
    diagnostics such that every call, whatever vector [r] it is handed,
    returns that flag and appends exactly that list.  The visited set does
    not outlive a call, so a second call emits the same nodes again. *)
Theorem conversion_is_repeatable N root :
  ∃ b new ds, ∀ r,
    HdPrman_ConvertHdMaterialNetwork2ToRmanNodes N root r
    = Some (b, r ++ new, ds).
Proof.
  destruct (HdPrman_Convert_visit N root []) as (b & V & new & ds & _ & Hv).
  exists b, new, ds. intros r.
  destruct (HdPrman_Convert_visit N root r) as (b' & V' & new' & ds' & -> & Hv').
  by destruct (proj1 (visit_upstream_det N) _ _ _ _ _ _ Hv _ _ _ _ Hv')
    as (-> & _ & -> & ->).
Qed.

(** *** Connections to nodes the network does not have *)

Lemma pruned_refl N es : pruned N es es.
Proof. induction es; by constructor. Qed.

Lemma pruned_app N es1 es1' es2 es2' :
  pruned N es1 es1' → pruned N es2 es2' → pruned N (es1 ++ es2) (es1' ++ es2').
Proof.
  intros H1 H2.
  induction H1; simpl; [done|constructor; auto|apply pruned_drop; auto].
Qed.

Lemma pruned_node_refl N node : pruned_node N node node.
Proof.
  split_and!; [done|done|].
  apply Forall2_same_length_lookup. split; [done|].
  intros i ce ce' Hce Hce'. simplify_eq. split; [done|apply pruned_refl].
Qed.

Lemma pruned_node_connections N node node' :
  pruned_node N node node' → pruned N (connections node) (connections node').
Proof.
  intros (_ & _ & Hconns). unfold connections.
  induction Hconns as [|ce ce' ces ces' [_ Hce] _ IH]; simpl;
    [constructor|by apply pruned_app].
Qed.

Lemma pruned_network_None N N' p :
  pruned_network N N' → nodes N !! p = None → nodes N' !! p = None.
Proof. intros HNN' Hp. specialize (HNN' p). rewrite Hp in HNN'. by inversion HNN'. Qed.

Lemma pruned_network_Some N N' p node :
  pruned_network N N' → nodes N !! p = Some node →
  ∃ node', nodes N' !! p = Some node' ∧ pruned_node N node node'.
Proof.
  intros HNN' Hp. specialize (HNN' p). rewrite Hp in HNN'.
  inversion HNN'; simplify_eq. by eexists.
Qed.

Lemma pruned_ConvertConnection N N' p sdrEntry input e :
  pruned_network N N' →
  (_ConvertConnection N' p sdrEntry input e).1
  = (_ConvertConnection N p sdrEntry input e).1.
Proof.
  intros HNN'. unfold _ConvertConnection.
  destruct (nodes N !! upstreamNode e) as [node|] eqn:Hnode.
  - destruct (pruned_network_Some _ _ _ _ HNN' Hnode)
      as (node' & -> & Hty & _).
    by rewrite Hty.
  - by rewrite (pruned_network_None _ _ _ HNN' Hnode).
Qed.

Lemma pruned_connection_output N N' p sdrEntry conns conns' :
  pruned_network N N' →
  Forall2 (λ ce ce', ce'.1 = ce.1 ∧ pruned N ce.2 ce'.2) conns conns' →
  (connection_output N' p sdrEntry conns').1
  = (connection_output N p sdrEntry conns).1.
Proof.
  intros HNN' Hconns. unfold connection_output. cbn [fst].
  induction Hconns as [|[k cs] [k' cs'] ces ces' [Hk Hcs] _ IH]; [done|].
  rewrite !fmap_cons, !concat_cons, IH. f_equal.
  cbn [fst snd] in *. subst k'.
  induction Hcs as [|e es es' _ IHes|e es es' Hdangling _ IHes].
  - done.
  - by rewrite !fmap_cons, !concat_cons, IHes,
      (pruned_ConvertConnection _ _ _ _ _ _ HNN').
  - rewrite fmap_cons, concat_cons, IHes.
    unfold _ConvertConnection at 2. by rewrite Hdangling.
Qed.

Lemma pruned_MakeShadingNode N N' p node node' :
  pruned_network N N' → pruned_node N node node' →
  (_MakeShadingNode N' p node').1 = (_MakeShadingNode N p node).1.
Proof.
  intros HNN' (Hty & Hparams & Hconns).
  apply _MakeShadingNode_node_eq; [done| |].
  - intros sdrEntry snType _. by rewrite Hparams.
  - intros sdrEntry. by apply pruned_connection_output.
Qed.

(** A conversion of the pruned network emits what the conversion of the
    full network emits. *)
Lemma pruned_simulation N N' :
  pruned_network N N' →
  (∀ p V b V1 new ds,
     visit N p V b V1 new ds →
     ∀ W, agree N V W →
          ∃ W1 ds', visit N' p W b W1 new ds' ∧ agree N V1 W1)
  ∧ (∀ es V V1 new ds,
       upstream N es V V1 new ds →
       ∀ es' W, pruned N es es' → agree N V W →
                ∃ W1 ds', upstream N' es' W W1 new ds' ∧ agree N V1 W1).
Proof.
  intros HNN'. apply visit_upstream_ind.
  - intros p V Hp W HVW.
    destruct (decide (p ∈ W)) as [HpW|HpW].
    { exists W, []. split; [by constructor|done]. }
    destruct (nodes N !! p) as [node|] eqn:Hnode.
    { exfalso. apply HpW, HVW; [by eexists|done]. }
    exists ({[p]} ∪ W), [WarnUnknownMaterialNode p]. split.
    + constructor; [done|by eapply pruned_network_None].
    + intros m [node Hm]. rewrite (HVW m) by (by eexists).
      assert (m ≠ p) by congruence. set_solver.
  - intros p V Hp Hnode W HVW.
    destruct (decide (p ∈ W)) as [HpW|HpW].
    + exists W, []. split; [by constructor|].
      intros m [node Hm]. rewrite <- (HVW m) by (by eexists).
      assert (m ≠ p) by congruence. set_solver.
    + exists ({[p]} ∪ W), [WarnUnknownMaterialNode p]. split.
      * constructor; [done|by eapply pruned_network_None].
      * intros m Hm. specialize (HVW m Hm). set_solver.
  - intros p V node V' new ds Hp Hnode _ IH W HVW.
    destruct (pruned_network_Some _ _ _ _ HNN' Hnode) as (node' & Hnode' & Hpr).
    destruct (IH (connections node') ({[p]} ∪ W)) as (W1 & ds' & Hup' & HVW1).
    { by apply pruned_node_connections. }
    { intros m Hm. specialize (HVW m Hm). set_solver. }
    assert (p ∉ W) as HpW.
    { intros HpW. apply Hp, HVW; [by eexists|done]. }
    pose proof (visit_node N' p W node' W1 new ds' HpW Hnode' Hup') as Hv'.
    rewrite (pruned_MakeShadingNode _ _ _ _ _ HNN' Hpr) in Hv'.
    by eexists _, _.
  - intros V es' W Hpr HVW. inversion Hpr; subst.
    exists W, []. split; [constructor|done].
  - intros e es V b V1 V2 new1 new2 ds1 ds2 Hv IH1 _ IH2 es' W Hpr HVW.
    inversion Hpr as [|? ? es'' Hpr'|? ? ? Hdangling Hpr']; subst.
    + destruct (IH1 W HVW) as (W1 & ds1' & Hv' & HVW1).
      destruct (IH2 es'' W1 Hpr' HVW1) as (W2 & ds2' & Hup' & HVW2).
      exists W2, (ds1' ++ ds2'). split; [by econstructor|done].
    + assert (new1 = [] ∧ agree N V1 W) as [-> HVW1].
      { inversion Hv; simplify_eq; [done|].
        split; [done|]. intros m [node Hm]. rewrite <- (HVW m) by (by eexists).
        assert (m ≠ upstreamNode e) by congruence. set_solver. }
      destruct (IH2 es' W Hpr' HVW1) as (W2 & ds2' & Hup' & HVW2).
      by exists W2, ds2'.
Qed.

Lemma remove_dangling_pruned N p node es1 input cs1 c cs2 es2 :
  nodes N !! p = Some node →
  inputConnections node = es1 ++ (input, cs1 ++ c :: cs2) :: es2 →
  nodes N !! upstreamNode c = None →
  pruned_network N
    (with_node N p
       (with_connections node (es1 ++ (input, cs1 ++ cs2) :: es2))).
Proof.
  intros Hnode Hconns Hdangling q. simpl.
  destruct (decide (p = q)) as [<-|Hne].
  - rewrite lookup_insert_eq, Hnode. constructor.
    split_and!; [done|done|]. simpl. rewrite Hconns.
    assert (∀ es : list (TfToken * list HdMaterialConnection2),
              Forall2 (λ ce ce', ce'.1 = ce.1 ∧ pruned N ce.2 ce'.2) es es)
      as Hrefl.
    { intros es. apply Forall2_same_length_lookup. split; [done|].
      intros i ce ce' Hce Hce'. simplify_eq. split; [done|apply pruned_refl]. }
    apply Forall2_app; [apply Hrefl|]. constructor; [|apply Hrefl].
    split; [done|]. simpl. apply pruned_app; [apply pruned_refl|].
    apply pruned_drop; [done|apply pruned_refl].
  - rewrite lookup_insert_ne by done.
    destruct (nodes N !! q); constructor. apply pruned_node_refl.
Qed.

(** *** Parameters *)

Lemma accumulate_drop {A : Type} (body : A → list RtParam * list Diagnostic)
    (l1 l2 : list A) (x : A) (acc : list RtParam * list Diagnostic) :
  body x = ([], []) →
  accumulate body (l1 ++ x :: l2) acc = accumulate body (l1 ++ l2) acc.
Proof.
  intros Hx. rewrite !accumulate_eq, !fmap_app, !fmap_cons, !concat_app.
  rewrite !concat_cons. by rewrite Hx.
Qed.

Lemma _MakeShadingNode_params_eq N p node node' :
  nodeTypeId node' = nodeTypeId node →
  inputConnections node' = inputConnections node →
  (∀ sdrEntry snType acc,
     GetShaderNodeByIdentifier (nodeTypeId node) = Some sdrEntry →
     _ConvertParams p node' sdrEntry snType acc
     = _ConvertParams p node sdrEntry snType acc) →
  _MakeShadingNode N p node' = _MakeShadingNode N p node.
Proof.
  intros Hty Hconns Hparams. unfold _MakeShadingNode. rewrite Hty.
  destruct (GetShaderNodeByIdentifier (nodeTypeId node)) as [sdrEntry|] eqn:Hsdr;
    [|done].
  rewrite (_ClassifyNode_nodeTypeId _ _ _ Hty).
  destruct (_ClassifyNode sdrEntry node) as [snType|]; [|done].
  case_bool_decide; [done|].
  rewrite (Hparams _ _ _ eq_refl), !_ConvertConnections_eq. by rewrite Hconns.
Qed.

(** C7. A parameter bound to a registry input declared [Struct] or
    [Vstruct] makes no [Set...] call and reports nothing, whatever value it
    holds; the node converts exactly as it does without that parameter, and
    it is emitted whenever the registry classifies it and gives it an
    implementation path. *)
Theorem struct_parameter_dropped N p node ps1 k v ps2 sdrEntry prop :
  parameters node = ps1 ++ (k, v) :: ps2 →
  GetShaderNodeByIdentifier (nodeTypeId node) = Some sdrEntry →
  GetShaderInput sdrEntry !! k = Some prop →
  GetType prop = SdrPropertyTypes.Struct
  ∨ GetType prop = SdrPropertyTypes.Vstruct →
  (∀ snType, _ConvertParam p node sdrEntry snType (k, v) = ([], []))
  ∧ _MakeShadingNode N p node
    = _MakeShadingNode N p (without_parameter node (ps1 ++ ps2))
  ∧ (∀ snType,
       _ClassifyNode sdrEntry node = Some snType →
       GetResolvedImplementationURI sdrEntry ≠ EmptyString →
       is_Some (_MakeShadingNode N p node).1).
Proof.
  intros Hparams Hsdr Hprop Hty.
  assert (∀ snType, _ConvertParam p node sdrEntry snType (k, v) = ([], []))
    as Hdrop.
  { intros snType. unfold _ConvertParam. simpl. rewrite Hprop.
    unfold _DispatchParam. by destruct Hty as [-> | ->]. }
  split_and!; [done| |].
  - symmetry. apply _MakeShadingNode_params_eq; [done|done|].
    intros sdrEntry' snType acc Hsdr'. rewrite Hsdr in Hsdr'.
    injection Hsdr' as <-.
    unfold _ConvertParams. simpl. rewrite Hparams.
    by rewrite (accumulate_drop _ _ _ _ _ (Hdrop snType)).
  - intros snType Hclass Hpath. apply _MakeShadingNode_is_Some. by eauto.
Qed.

(** C6, as the code has it.  With the option table
    [("low","0"); ("med","1"); ("high","2")] on an [Int] input, a string or
    token value equal to the label ["high"] sets the integer [2]; a value
    equal to none of the labels makes no [Set...] call, and the node
    converts to the same shading node as without that parameter. *)
Theorem option_label_resolution snType paramName prop :
  GetType prop = SdrPropertyTypes.Int →
  GetOptions prop = [("low", "0"); ("med", "1"); ("high", "2")] →
  _DispatchParam snType paramName prop (VtString "high")
  = (true, [RtInteger (GetImplementationName prop) 2], [])
  ∧ _DispatchParam snType paramName prop (VtToken "high")
    = (true, [RtInteger (GetImplementationName prop) 2], [])
  ∧ (∀ v, v ∉ ["low"; "med"; "high"] →
          _DispatchParam snType paramName prop (VtString v) = (false, [], [])
          ∧ _DispatchParam snType paramName prop (VtToken v) = (false, [], []))
  ∧ (∀ N p node ps1 k v value ps2 sdrEntry,
       value = VtString v ∨ value = VtToken v →
       v ∉ ["low"; "med"; "high"] →
       parameters node = ps1 ++ (k, value) :: ps2 →
       GetShaderNodeByIdentifier (nodeTypeId node) = Some sdrEntry →
       GetShaderInput sdrEntry !! k = Some prop →
       (_MakeShadingNode N p node).1
       = (_MakeShadingNode N p (without_parameter node (ps1 ++ ps2))).1).
Proof.
  intros Hty Hopts.
  assert (∀ v, v ∉ ["low"; "med"; "high"] →
            _DispatchParam snType paramName prop (VtString v) = (false, [], [])
            ∧ _DispatchParam snType paramName prop (VtToken v)
              = (false, [], [])) as Hskip.
  { intros v Hv. unfold _DispatchParam. rewrite Hty, Hopts. simpl.
    repeat case_decide; simplify_eq; solve [done|set_solver]. }
  split_and!; [| |done|].
  - unfold _DispatchParam. by rewrite Hty, Hopts.
  - unfold _DispatchParam. by rewrite Hty, Hopts.
  - intros N p node ps1 k v value ps2 sdrEntry Hvalue Hv Hparams Hsdr Hprop.
    symmetry. apply _MakeShadingNode_node_eq; [done| |done].
    intros sdrEntry' snType' Hsdr'. rewrite Hsdr in Hsdr'.
    injection Hsdr' as <-. simpl.
    rewrite Hparams, !fmap_app, fmap_cons, !concat_app, concat_cons.
    do 2 f_equal.
    assert ((_ConvertParam p node sdrEntry snType' (k, value)).1 = []) as ->;
      [|done].
    unfold _ConvertParam. simpl. rewrite Hprop, Hty. simpl.
    assert (_DispatchParam snType' k prop value = (false, [], [])) as ->;
      [|done].
    unfold _DispatchParam. rewrite Hty, Hopts. simpl.
    destruct Hvalue as [-> | ->];
      repeat case_decide; simplify_eq; solve [done|set_solver].
Qed.

(** What the dispatch does with an array of ints on a [Float] input: the
    float array set is the storage of the int array read as floats. *)
Lemma int_array_on_float_input snType paramName prop v :
  GetType prop = SdrPropertyTypes.Float →
  _DispatchParam snType paramName prop (VtIntArray v)
  = (true, [RtFloatArray (GetImplementationName prop)
              (float_of_int_bits <$> v)], []).
Proof. intros Hty. unfold _DispatchParam. by rewrite Hty. Qed.

(** *** The per-terminal orchestration *)

Section Rman.
Context `{Riley}.

Lemma _ConvertTerminal_spec id N t s :
  ∃ s', _ConvertTerminal id N t s = Some s'
        ∧ (∃ l, riley s' = riley s ++ l)
        ∧ (t.1 ≠ HdMaterialTerminalTokens.displacement →
           displacementId s' = displacementId s
           ∧ displacementFound s' = displacementFound s)
        ∧ (t.1 ≠ HdMaterialTerminalTokens.surface →
           t.1 ≠ HdMaterialTerminalTokens.volume →
           materialId s' = materialId s
           ∧ materialFound s' = materialFound s).
Proof.
  unfold _ConvertTerminal.
  destruct (HdPrman_Convert_visit N (upstreamNode t.2) (rman_nodes s))
    as (b & V & new & ds & -> & _).
  eexists. split; [done|].
  destruct b; [|split_and!; [by exists []; rewrite app_nil_r|done|done]].
  case_bool_decide as Hmat.
  { unfold _CommitMaterial.
    split_and!; [| |by destruct Hmat].
    - repeat case_bool_decide; simpl; by eexists.
    - intros _. by repeat case_bool_decide. }
  case_bool_decide as Hdisp.
  { unfold _CommitDisplacement.
    split_and!; [|done|].
    - repeat case_bool_decide; simpl; by eexists.
    - intros _ _. by repeat case_bool_decide. }
  split_and!; [by exists []; rewrite app_nil_r|done|done].
Qed.

Lemma terminals_loop_spec id N ts s :
  ∃ s', for_each (_ConvertTerminal id N) ts s = Some s'
        ∧ (∃ l, riley s' = riley s ++ l)
        ∧ ((∀ t, t ∈ ts → t.1 ≠ HdMaterialTerminalTokens.displacement) →
           displacementId s' = displacementId s
           ∧ displacementFound s' = displacementFound s)
        ∧ ((∀ t, t ∈ ts → t.1 ≠ HdMaterialTerminalTokens.surface
                          ∧ t.1 ≠ HdMaterialTerminalTokens.volume) →
           materialId s' = materialId s
           ∧ materialFound s' = materialFound s).
Proof.
  revert s. induction ts as [|t ts IH]; intros s; simpl.
  { exists s. split_and!; [done|by exists []; rewrite app_nil_r|done|done]. }
  destruct (_ConvertTerminal_spec id N t s)
    as (s1 & -> & [l1 Hl1] & Hdisp1 & Hmat1).
  destruct (IH s1) as (s2 & -> & [l2 Hl2] & Hdisp2 & Hmat2).
  exists s2. split_and!; [done| | |].
  - exists (l1 ++ l2). by rewrite Hl2, Hl1, app_assoc.
  - intros Hts. destruct Hdisp1 as [E1 E2]; [apply Hts; left|].
    destruct Hdisp2 as [E3 E4]; [|split; congruence].
    intros t' Ht'. apply Hts. by right.
  - intros Hts. destruct Hmat1 as [E1 E2]; [apply Hts; left..|].
    destruct Hmat2 as [E3 E4]; [|split; congruence].
    intros t' Ht'. apply Hts. by right.
Qed.

(** C5. The conversion always completes.  When the network has no
    displacement terminal, the last call on the sink is
    [DeleteDisplacement] of the identifier held before (a prior
    non-invalid identifier in particular) and the stored displacement
    identifier is the invalid sentinel afterwards.  Symmetrically, when it
    has neither a surface nor a volume terminal, [DeleteMaterial] of the
    prior identifier is called and the stored material identifier is reset
    to invalid. *)
Theorem terminal_removal id N materialId0 displacementId0 calls :
  ∃ s,
    _ConvertHdMaterialNetwork2ToRman id N materialId0 displacementId0 calls
    = Some s
    ∧ ((∀ t, t ∈ terminals N →
             t.1 ≠ HdMaterialTerminalTokens.displacement) →
       displacementId s = DisplacementId_InvalidId
       ∧ ∃ l, riley s = calls ++ l ++ [DeleteDisplacement displacementId0])
    ∧ ((∀ t, t ∈ terminals N →
             t.1 ≠ HdMaterialTerminalTokens.surface
             ∧ t.1 ≠ HdMaterialTerminalTokens.volume) →
       materialId s = MaterialId_InvalidId
       ∧ ∃ l1 l2, riley s = calls ++ l1 ++ DeleteMaterial materialId0 :: l2).
Proof.
  unfold _ConvertHdMaterialNetwork2ToRman.
  destruct (terminals_loop_spec id N (terminals N)
              {| materialId := materialId0; displacementId := displacementId0;
                 riley := calls; rman_nodes := [];
                 materialFound := false; displacementFound := false;
                 rman_diagnostics := [] |})
    as (s1 & -> & [l Hl] & Hdisp & Hmat).
  simpl in Hl, Hdisp, Hmat. eexists. split; [done|]. split.
  - intros Hts. destruct (Hdisp Hts) as [Hid Hfound].
    unfold _FreeDisused. destruct (materialFound s1); simpl;
      rewrite Hfound; simpl; (split; [done|]); rewrite Hl, Hid.
    + exists l. by rewrite app_assoc.
    + exists (l ++ [DeleteMaterial (materialId s1)]). by rewrite !app_assoc.
  - intros Hts. destruct (Hmat Hts) as [Hid Hfound].
    unfold _FreeDisused. rewrite Hfound. simpl.
    destruct (displacementFound s1); simpl; (split; [done|]);
      rewrite Hl, Hid.
    + exists l, []. by rewrite app_assoc.
    + exists l, [DeleteDisplacement (displacementId s1)].
      by rewrite <- !app_assoc.
Qed.

End Rman.

End Proofs.

(** *** The properties on the concrete networks *)

Lemma topological_order_witness :
  ∃ b new ds,
    @HdPrman_ConvertHdMaterialNetwork2ToRmanNodes Examples.host
      (Examples.diamond "PxrManifold2D") "/mat/Surface" []
    = Some (b, [] ++ new, ds)
    ∧ ∀ i j sn su,
        new !! j = Some sn → ([] ++ new) !! i = Some su →
        edge (Examples.diamond "PxrManifold2D") (sn_handle sn) (sn_handle su) →
        i < length (@nil ShadingNode) + j.
Proof.
  apply (@topological_order Examples.host
           (Examples.diamond "PxrManifold2D") "/mat/Surface" []).
  apply (ranked_acyclic _ Examples.diamond_rank).
  vm_compute. reflexivity.
Defined.

(** The diamond in full: the shared manifold is emitted once, first. *)
Example diamond_output :
  handles <$> (snd ∘ fst <$>
    @HdPrman_ConvertHdMaterialNetwork2ToRmanNodes Examples.host
      (Examples.diamond "PxrManifold2D") "/mat/Surface" [])
  = Some ["/mat/Manifold"; "/mat/TexA"; "/mat/TexB"; "/mat/Surface"].
Proof. vm_compute. reflexivity. Qed.

(** C2 as stated fails: in the diamond whose shared manifold has a type
    the registry does not know, the manifold is reachable from the root
    along two connection paths and the output does not hold it at all. *)
Lemma shared_unregistered_node_not_emitted :
  let N := Examples.diamond "Unregistered" in
  (edge N "/mat/Surface" "/mat/TexA" ∧ edge N "/mat/TexA" "/mat/Manifold")
  ∧ (edge N "/mat/Surface" "/mat/TexB" ∧ edge N "/mat/TexB" "/mat/Manifold")
  ∧ ∃ b out ds,
      @HdPrman_ConvertHdMaterialNetwork2ToRmanNodes Examples.host N
        "/mat/Surface" []
      = Some (b, out, ds)
      ∧ "/mat/Manifold" ∉ handles out.
Proof.
  intros N.
  assert (∀ p node u, nodes N !! p = Some node →
            bool_decide (u ∈ upstreamNode <$> connections node) = true →
            edge N p u) as Hedge.
  { intros p node u Hnode Hu. exists node. split; [done|].
    by rewrite bool_decide_eq_true in Hu. }
  split_and!.
  - by apply (Hedge _ Examples.surface_node).
  - by apply (Hedge _ Examples.texture_node).
  - by apply (Hedge _ Examples.surface_node).
  - by apply (Hedge _ Examples.texture_node).
  - eexists _, _, _. split; [vm_compute; reflexivity|].
    apply (bool_decide_eq_false_1 ("/mat/Manifold" ∈ _)). vm_compute.
    reflexivity.
Qed.

(** C3.  On the input [presence], declared [float], the int array
    [[1; 2]] yields a float array holding the bit patterns of the ints (two
    denormals), not the widened values [1.0] and [2.0]. *)
Theorem int_array_on_float_input_reads_bits :
  @_DispatchParam Examples.host k_Bxdf "presence"
    (Examples.property "float" "presence") (VtIntArray [1; 2]%Z)
  = (true, [RtFloatArray "presence"
              [S754_finite false 1 (-149); S754_finite false 2 (-149)]], [])
  ∧ float_of_int <$> [1; 2]%Z
    = [S754_finite false 8388608 (-23); S754_finite false 8388608 (-22)]
  ∧ (@_DispatchParam Examples.host k_Bxdf "presence"
       (Examples.property "float" "presence") (VtIntArray [1; 2]%Z)).1.2
    ≠ [RtFloatArray "presence" (float_of_int <$> [1; 2]%Z)].
Proof. split_and!; [vm_compute; reflexivity..|vm_compute; intros [=]]. Qed.

Lemma terminal_removal_witness :
  ∃ s,
    @_ConvertHdMaterialNetwork2ToRman Examples.host Examples.riley0 "/mat"
      (Examples.diamond "PxrManifold2D") MaterialId_InvalidId
      (DisplacementId_Of 7) []
    = Some s
    ∧ displacementId s = DisplacementId_InvalidId
    ∧ ∃ l, riley s = [] ++ l ++ [DeleteDisplacement (DisplacementId_Of 7)].
Proof.
  destruct (@terminal_removal Examples.host Examples.riley0 "/mat"
              (Examples.diamond "PxrManifold2D") MaterialId_InvalidId
              (DisplacementId_Of 7) []) as (s & Hrun & Hdisp & _).
  exists s. split; [exact Hrun|]. apply Hdisp.
  intros t Ht. apply list_elem_of_singleton in Ht. subst t.
  vm_compute. intros [=].
Defined.

Lemma option_label_resolution_witness :
  @_DispatchParam Examples.host k_Bxdf "quality" Examples.quality
    (VtString "high")
  = (true, [RtInteger (GetImplementationName Examples.quality) 2], [])
  ∧ @_DispatchParam Examples.host k_Bxdf "quality" Examples.quality
      (VtToken "high")
    = (true, [RtInteger (GetImplementationName Examples.quality) 2], [])
  ∧ (∀ v, v ∉ ["low"; "med"; "high"] →
          @_DispatchParam Examples.host k_Bxdf "quality" Examples.quality
            (VtString v) = (false, [], [])
          ∧ @_DispatchParam Examples.host k_Bxdf "quality" Examples.quality
              (VtToken v) = (false, [], []))
  ∧ (∀ N p node ps1 k v value ps2 sdrEntry,
       value = VtString v ∨ value = VtToken v →
       v ∉ ["low"; "med"; "high"] →
       parameters node = ps1 ++ (k, value) :: ps2 →
       @GetShaderNodeByIdentifier Examples.host (nodeTypeId node)
       = Some sdrEntry →
       GetShaderInput sdrEntry !! k = Some Examples.quality →
       (@_MakeShadingNode Examples.host N p node).1
       = (@_MakeShadingNode Examples.host N p
            (without_parameter node (ps1 ++ ps2))).1).
Proof.
  apply (@option_label_resolution Examples.host k_Bxdf "quality"
           Examples.quality).
  - reflexivity.
  - reflexivity.
Defined.

(** C6 as stated fails: ["2"] is the code of a label, not a label; a
    string or token value ["2"] matches nothing in the table and no
    integer is set for it. *)
Lemma option_code_is_not_a_label :
  @_DispatchParam Examples.host k_Bxdf "quality" Examples.quality
    (VtString "2") = (false, [], [])
  ∧ @_DispatchParam Examples.host k_Bxdf "quality" Examples.quality
      (VtToken "2") = (false, [], [])
  ∧ (@_ConvertParam Examples.host "/mat/Surface"
       (Examples.authored_surface (VtString "2")) Examples.PxrSurface k_Bxdf
       ("quality", VtString "2")).1
    ≠ [RtInteger "quality" 2].
Proof. split_and!; [vm_compute; reflexivity..|vm_compute; intros [=]]. Qed.

Lemma struct_parameter_dropped_witness :
  let node := Examples.authored_surface (VtString "high") in
  (∀ snType,
     @_ConvertParam Examples.host "/mat/Surface" node Examples.PxrSurface
       snType ("inputMaterial", VtOther "SdfPath") = ([], []))
  ∧ @_MakeShadingNode Examples.host (Examples.diamond "PxrManifold2D")
      "/mat/Surface" node
    = @_MakeShadingNode Examples.host (Examples.diamond "PxrManifold2D")
        "/mat/Surface"
        (without_parameter node ([] ++ [("quality", VtString "high")]))
  ∧ (∀ snType,
       @_ClassifyNode Examples.PxrSurface node = Some snType →
       GetResolvedImplementationURI Examples.PxrSurface ≠ EmptyString →
       is_Some (@_MakeShadingNode Examples.host
                  (Examples.diamond "PxrManifold2D") "/mat/Surface" node).1).
Proof.
  intros node.
  apply (@struct_parameter_dropped Examples.host
           (Examples.diamond "PxrManifold2D") "/mat/Surface" node []
           "inputMaterial" (VtOther "SdfPath") [("quality", VtString "high")]
           Examples.PxrSurface (Examples.property "struct" "inputMaterial")).
  - reflexivity.
  - vm_compute. reflexivity.
  - vm_compute. reflexivity.
  - left. reflexivity.
Defined.

End MaterialProofs.

(** ** HdStGLSLFXShader::Reload *)

Module GlslfxShaderProofs.
Import GlslfxShader.

(** C9. When the glslfx file loaded by [Reload] is not valid, the shader is
    left exactly as it was: the stored glslfx object is the old one and the
    sources registered for the fragment and the geometry stage are the old
    ones (the whole object is unchanged). *)
Theorem Reload_invalid_keeps_shader `{ShaderBase} (self : HdStGLSLFXShader) :
  IsValid (HioGlslfx_new (GetFilePath (_glslfx self))) = false →
  Reload self = self
  ∧ _glslfx (Reload self) = _glslfx self
  ∧ GetSource fragmentShader (base (Reload self))
    = GetSource fragmentShader (base self)
  ∧ GetSource geometryShader (base (Reload self))
    = GetSource geometryShader (base self).
Proof.
  intros Hinvalid.
  assert (Reload self = self) as ->; [|done].
  unfold Reload. by rewrite Hinvalid.
Qed.

(** The other branch: a valid file replaces the glslfx object and both
    sources are set from it. *)
Lemma Reload_valid_replaces `{ShaderBase} (self : HdStGLSLFXShader) :
  let newGlslFx := HioGlslfx_new (GetFilePath (_glslfx self)) in
  IsValid newGlslFx = true →
  _glslfx (Reload self) = newGlslFx
  ∧ base (Reload self)
    = _SetSource geometryShader (GetDisplacementSource newGlslFx)
        (_SetSource fragmentShader (GetSurfaceSource newGlslFx)
           (base self)).
Proof. intros newGlslFx Hvalid. unfold Reload. fold newGlslFx. by rewrite Hvalid. Qed.

Lemma Reload_invalid_keeps_shader_witness :
  let self :=
    @HdStGLSLFXShader_new Examples.shader_base (∅ : gmap string string)
      Examples.loaded_glslfx in
  @Reload Examples.shader_base self = self
  ∧ _glslfx (@Reload Examples.shader_base self) = _glslfx self
  ∧ @GetSource Examples.shader_base (@fragmentShader Examples.shader_base)
      (base (@Reload Examples.shader_base self))
    = @GetSource Examples.shader_base (@fragmentShader Examples.shader_base)
        (base self)
  ∧ @GetSource Examples.shader_base (@geometryShader Examples.shader_base)
      (base (@Reload Examples.shader_base self))
    = @GetSource Examples.shader_base (@geometryShader Examples.shader_base)
        (base self).
Proof.
  intros self.
  apply (@Reload_invalid_keeps_shader Examples.shader_base self).
  reflexivity.
Defined.

End GlslfxShaderProofs.

(** ** HdxOitVolumeRenderTask::Execute *)

Module OitVolumeRenderTaskProofs.
Import OitVolumeRenderTask.

Section Proofs.
Context `{Hydra}.

Lemma _SaveAndOverride_spec (w : World) :
  let '(old, w') := _SaveAndOverride w in
  old = (multisample w.1, point_smooth w.1)
  ∧ multisample w'.1 = false ∧ point_smooth w'.1 = true.
Proof. destruct w as [[ms ps] h]. done. Qed.

Lemma _Restore_spec (old : bool * bool) (w : World) :
  let w' := (_Restore old w).2 in
  multisample w'.1 = (if old.1 then true else multisample w.1)
  ∧ point_smooth w'.1 = (if old.2 then point_smooth w.1 else false)
  ∧ w'.2 = w.2.
Proof. destruct w as [[ms ps] h], old as [[] []]; done. Qed.

Lemma Execute_Rendered (_isOitEnabled : bool) (w w' : World) :
  Execute _isOitEnabled w = (Rendered, w') →
  ∃ w1, _Setup _isOitEnabled w = (None, w1)
        ∧ w' = (_Restore (_SaveAndOverride w1).1
                  (HdxRenderTask_Execute (_SaveAndOverride w1).2)).2.
Proof.
  unfold Execute, bind at 1.
  destruct (_Setup _isOitEnabled w) as [[outcome|] w1] eqn:Hsetup.
  - intros Hret. exfalso. revert Hsetup. unfold ret in Hret.
    injection Hret as -> ->. unfold _Setup, bind, ret, ask, call, on_hydra.
    repeat (case_match; simplify_eq/=); try done.
  - intros Hret. exists w1. split; [done|].
    unfold bind, call, ret in Hret.
    destruct (_SaveAndOverride w1) as [old w2]; simpl in *.
    destruct (_Restore old (HdxRenderTask_Execute w2)) as [[] w3].
    by injection Hret.
Qed.

End Proofs.




End OitVolumeRenderTaskProofs.

(** * Further properties of the code *)

(** ** The converter: output, parameters, references *)

Module MaterialExtras.
Import Material MaterialGraph MaterialProofs HdPrmanMaterial.

Lemma elem_of_concat {A : Type} (x : A) (ls : list (list A)) :
  x ∈ concat ls ↔ ∃ l, x ∈ l ∧ l ∈ ls.
Proof.
  induction ls as [|l ls IH]; simpl.
  - split; [by intros ?%elem_of_nil|]. by intros (? & _ & ?%elem_of_nil).
  - rewrite elem_of_app, IH. split.
    + intros [Hx|(l' & Hx & Hl')]; [exists l|exists l'];
        (split; [done|]); [left|by right].
    + intros (l' & Hx & [->|Hl']%elem_of_cons); [by left|right; by exists l'].
Qed.

Section Proofs.
Context `{Host}.

(** Every node of the output is what [_MakeShadingNode] builds for the
    network node at its handle. *)
Lemma visit_upstream_made N :
  (∀ p V b V' new ds,
     visit N p V b V' new ds →
     ∀ sn, sn ∈ new →
           ∃ node, nodes N !! sn_handle sn = Some node
                   ∧ (_MakeShadingNode N (sn_handle sn) node).1 = Some sn)
  ∧ (∀ es V V' new ds,
       upstream N es V V' new ds →
       ∀ sn, sn ∈ new →
             ∃ node, nodes N !! sn_handle sn = Some node
                     ∧ (_MakeShadingNode N (sn_handle sn) node).1 = Some sn).
Proof.
  apply visit_upstream_ind.
  - intros p V _ sn Hsn. by apply elem_of_nil in Hsn.
  - intros p V _ _ sn Hsn. by apply elem_of_nil in Hsn.
  - intros p V node V' new ds _ Hnode _ IH sn [Hsn|Hsn]%elem_of_app;
      [by apply IH|].
    destruct (_MakeShadingNode N p node).1 as [sn'|] eqn:Hmk;
      [|by apply elem_of_nil in Hsn].
    apply list_elem_of_singleton in Hsn as ->.
    rewrite (_MakeShadingNode_handle _ _ _ _ Hmk). by exists node.
  - intros V sn Hsn. by apply elem_of_nil in Hsn.
  - intros e es V b V1 V2 new1 new2 ds1 ds2 _ IH1 _ IH2 sn
      [Hsn|Hsn]%elem_of_app; [by apply IH1|by apply IH2].
Qed.

(** What the orchestration needs of one conversion into an empty vector. *)
Lemma HdPrman_Convert_facts N root :
  ∃ b new ds,
    HdPrman_ConvertHdMaterialNetwork2ToRmanNodes N root [] = Some (b, new, ds)
    ∧ (b = true ↔ convertible N root)
    ∧ (b = true → new ≠ [])
    ∧ length new ≤ size (nodes N).
Proof.
  destruct (HdPrman_Convert_visit N root []) as (b & V' & new & ds & Hrun & Hv).
  exists b, new, ds. split_and!; [done| | |].
  - apply (visit_flag _ _ _ _ _ _ _ Hv). set_solver.
  - intros ->.
    inversion Hv as [| |? ? node ? up ds' _ Hnode Hup Hb]; simplify_eq.
    destruct (_MakeShadingNode N root node).1; [|done].
    by destruct up.
  - destruct (visit_facts _ _ _ _ _ _ _ Hv) as (_ & _ & Hnew & Hnodup).
    rewrite <- size_dom. unfold size, set_size. simpl.
    rewrite <- (length_fmap sn_handle new).
    apply submseteq_length, NoDup_submseteq; [done|].
    intros m Hm. destruct (Hnew m Hm) as (_ & _ & _ & (node & Hnode & _) & _).
    apply elem_of_elements, elem_of_dom. by eexists.
Qed.

(** X1. The flag returned by the entry point is [true] exactly when the
    root is in the node mapping and the registry lets it through; then the
    root's shading node is the last node appended, and it occurs nowhere
    before. *)
Theorem root_emitted_last N root r :
  ∃ b new ds,
    HdPrman_ConvertHdMaterialNetwork2ToRmanNodes N root r
    = Some (b, r ++ new, ds)
    ∧ (b = true ↔ convertible N root)
    ∧ (b = true →
       ∃ up sn, new = up ++ [sn] ∧ sn_handle sn = root
                ∧ (root ∉ handles up)).
Proof.
  destruct (HdPrman_Convert_visit N root r) as (b & V' & new & ds & Hrun & Hv).
  exists b, new, ds. split_and!; [done| |].
  - apply (visit_flag _ _ _ _ _ _ _ Hv). set_solver.
  - intros ->.
    inversion Hv as [| |? ? node ? up ds' _ Hnode Hup Hb]; simplify_eq.
    destruct (_MakeShadingNode N root node).1 as [sn|] eqn:Hmk; [|done].
    exists up, sn. split_and!; [done|by eapply _MakeShadingNode_handle|].
    intros Hin.
    destruct (upstream_facts _ _ _ _ _ _ Hup) as (_ & _ & Hnew & _).
    destruct (Hnew root Hin) as (Hfresh & _). set_solver.
Qed.

(** X2. A root that is not in the node mapping: the call returns [false],
    leaves the caller's vector as it is and reports the unknown node, once. *)
Theorem missing_root_reported N root r :
  nodes N !! root = None →
  HdPrman_ConvertHdMaterialNetwork2ToRmanNodes N root r
  = Some (false, r, [WarnUnknownMaterialNode root]).
Proof.
  intros Hroot. unfold HdPrman_ConvertHdMaterialNetwork2ToRmanNodes. simpl.
  rewrite bool_decide_eq_false_2 by set_solver. by rewrite Hroot.
Qed.

(** X3. One call never appends more nodes than the network has: the
    [reserve] of the caller (material.cpp:621) is enough. *)
Theorem output_bounded_by_network N root r :
  ∃ b new ds,
    HdPrman_ConvertHdMaterialNetwork2ToRmanNodes N root r
    = Some (b, r ++ new, ds)
    ∧ length new ≤ size (nodes N).
Proof.
  destruct (HdPrman_Convert_visit N root r) as (b & V' & new & ds & Hrun & Hv).
  exists b, new, ds. split; [done|].
  destruct (visit_facts _ _ _ _ _ _ _ Hv) as (_ & _ & Hnew & Hnodup).
  rewrite <- size_dom. unfold size, set_size. simpl.
  rewrite <- (length_fmap sn_handle new).
  apply submseteq_length, NoDup_submseteq; [done|].
  intros m Hm. destruct (Hnew m Hm) as (_ & _ & _ & (node & Hnode & _) & _).
  apply elem_of_elements, elem_of_dom. by eexists.
Qed.

(** *** Parameters *)

(** X4. Whatever the declared type and the held value, the dispatch on one
    parameter makes at most one [Set...] call; the entry is set under the
    implementation name of the registry input, never under the authored
    name, and is never a reference; when the dispatch fails ([ok] false)
    nothing is set. *)
Theorem dispatch_sets_at_most_one snType paramName prop value :
  length (_DispatchParam snType paramName prop value).1.2 ≤ 1
  ∧ (∀ q, q ∈ (_DispatchParam snType paramName prop value).1.2 →
          RtParam_name q = GetImplementationName prop
          ∧ is_reference q = false)
  ∧ ((_DispatchParam snType paramName prop value).1.1 = false →
     (_DispatchParam snType paramName prop value).1.2 = []).
Proof.
  unfold _DispatchParam, set_param, unmatched.
  destruct (_ || _); [simpl; split_and!; [lia|set_solver|done]|].
  destruct value as [[??]|?|[[[??]?]?]|?|[[??]?]|?|?|?|?|?|?|?|?|?|?];
    repeat case_match; simpl;
    (split_and!; [lia|set_solver|done]).
Qed.

Lemma _ConvertParam_output p node sdrEntry snType param :
  length (_ConvertParam p node sdrEntry snType param).1 ≤ 1
  ∧ ∀ q, q ∈ (_ConvertParam p node sdrEntry snType param).1 →
         is_reference q = false
         ∧ ∃ prop, GetShaderInput sdrEntry !! param.1 = Some prop
                   ∧ RtParam_name q = GetImplementationName prop.
Proof.
  unfold _ConvertParam.
  destruct (GetShaderInput sdrEntry !! param.1) as [prop|];
    [|simpl; split; [lia|set_solver]].
  case_bool_decide; [case_bool_decide; simpl; (split; [lia|set_solver])|].
  destruct (dispatch_sets_at_most_one snType param.1 prop param.2)
    as (Hlen & Hq & _).
  destruct (_DispatchParam snType param.1 prop param.2) as [[ok ps] ds].
  simpl in *. split; [done|]. intros q Hin.
  destruct (Hq q Hin). split; [done|]. by exists prop.
Qed.

(** What a connection contributes: nothing, or one reference in
    [handle:param] syntax to a declared output of a registered node of the
    network. *)
Lemma _ConvertConnection_output N p sdrEntry input e :
  length (_ConvertConnection N p sdrEntry input e).1 ≤ 1
  ∧ ∀ q, q ∈ (_ConvertConnection N p sdrEntry input e).1 →
         ∃ kind upstream upstreamSdrEntry downstreamProp upstreamProp,
           nodes N !! upstreamNode e = Some upstream
           ∧ GetShaderNodeByIdentifier (nodeTypeId upstream)
             = Some upstreamSdrEntry
           ∧ GetShaderInput sdrEntry !! input = Some downstreamProp
           ∧ GetShaderOutput upstreamSdrEntry !! upstreamOutputName e
             = Some upstreamProp
           ∧ q = RtReference kind (GetImplementationName downstreamProp)
                   (upstreamNode e +:+ ":"
                    +:+ GetImplementationName upstreamProp).
Proof.
  unfold _ConvertConnection.
  destruct (nodes N !! upstreamNode e) as [upstream|] eqn:Hup;
    [|simpl; split; [lia|set_solver]].
  destruct (GetShaderNodeByIdentifier (nodeTypeId upstream))
    as [upstreamSdrEntry|] eqn:Hupsdr; [|simpl; split; [lia|set_solver]].
  destruct (GetShaderInput sdrEntry !! input) as [downstreamProp|] eqn:Hdown;
    [|simpl; split; [lia|set_solver]].
  destruct (GetShaderOutput upstreamSdrEntry !! upstreamOutputName e)
    as [upstreamProp|] eqn:Hout; [|simpl; split; [lia|set_solver]].
  repeat case_bool_decide; simpl; (split; [lia|]); intros q Hq;
    try (by apply elem_of_nil in Hq);
    apply list_elem_of_singleton in Hq as ->;
    by eexists _, upstream, upstreamSdrEntry, downstreamProp, upstreamProp.
Qed.

Lemma length_concat_le {A B : Type} (f : A → list B) (l : list A) :
  (∀ x, length (f x) ≤ 1) → length (concat (f <$> l)) ≤ length l.
Proof.
  intros Hf. induction l as [|x l IH]; [done|].
  rewrite fmap_cons, concat_cons, length_app, length_cons.
  specialize (Hf x). lia.
Qed.

(** The shading node built for a network node, field by field. *)
Lemma _MakeShadingNode_Some N p node sn :
  (_MakeShadingNode N p node).1 = Some sn →
  ∃ sdrEntry,
    GetShaderNodeByIdentifier (nodeTypeId node) = Some sdrEntry
    ∧ _ClassifyNode sdrEntry node = Some (sn_type sn)
    ∧ GetResolvedImplementationURI sdrEntry ≠ EmptyString
    ∧ sn_handle sn = p
    ∧ sn_name sn
      = (if bool_decide (sn_type sn = k_Displacement ∨ sn_type sn = k_Light
                         ∨ sn_type sn = k_LightFilter)
         then GetNodeImplementationName sdrEntry
         else GetResolvedImplementationURI sdrEntry)
    ∧ sn_params sn
      = concat ((λ x, (_ConvertParam p node sdrEntry (sn_type sn) x).1)
                  <$> parameters node)
        ++ (connection_output N p sdrEntry (inputConnections node)).1.
Proof.
  unfold _MakeShadingNode.
  destruct (GetShaderNodeByIdentifier _) as [sdrEntry|]; [|done].
  destruct (_ClassifyNode _ _) as [snType|] eqn:Hclass; [|done].
  case_bool_decide as Hpath; [done|].
  rewrite _ConvertConnections_eq. unfold _ConvertParams.
  rewrite accumulate_eq. simpl. intros [= <-]. simpl. by exists sdrEntry.
Qed.

(** X5. The parameter list of every node of the output is made of value
    entries, at most one per authored parameter, followed by reference
    entries, at most one per connection of the node. *)
Theorem values_then_references N root r :
  ∃ b new ds,
    HdPrman_ConvertHdMaterialNetwork2ToRmanNodes N root r
    = Some (b, r ++ new, ds)
    ∧ ∀ sn, sn ∈ new →
        ∃ node values references,
          nodes N !! sn_handle sn = Some node
          ∧ sn_params sn = values ++ references
          ∧ Forall (λ q, is_reference q = false) values
          ∧ Forall (λ q, is_reference q = true) references
          ∧ length values ≤ length (parameters node)
          ∧ length references ≤ length (connections node).
Proof.
  destruct (HdPrman_Convert_visit N root r) as (b & V' & new & ds & Hrun & Hv).
  exists b, new, ds. split; [done|]. intros sn Hsn.
  destruct (proj1 (visit_upstream_made N) _ _ _ _ _ _ Hv sn Hsn)
    as (node & Hnode & Hmk).
  apply _MakeShadingNode_Some in Hmk
    as (sdrEntry & _ & _ & _ & _ & _ & Hparams).
  eexists node, _, _. split_and!; [done|exact Hparams| | | |].
  - apply Forall_forall. intros q (ps & Hq & (x & -> & _)%list_elem_of_fmap)%elem_of_concat.
    by apply _ConvertParam_output in Hq as [? _].
  - apply Forall_forall. unfold connection_output. simpl.
    intros q (ps & Hq & (ce & -> & _)%list_elem_of_fmap)%elem_of_concat.
    apply elem_of_concat in Hq as (ps & Hq & (e & -> & _)%list_elem_of_fmap).
    apply _ConvertConnection_output in Hq as (? & ? & ? & ? & ? & _ & _ & _ & _ & ->).
    done.
  - apply length_concat_le. intros x. apply _ConvertParam_output.
  - unfold connection_output, connections. simpl.
    generalize (inputConnections node). intros conns.
    induction conns as [|ce conns IH]; simpl; [done|].
    rewrite !length_app.
    pose proof (length_concat_le
                  (λ e, (_ConvertConnection N (sn_handle sn) sdrEntry ce.1 e).1)
                  ce.2) as Hce.
    etrans; [apply Nat.add_le_mono; [apply Hce|exact IH]|done].
    intros e. apply _ConvertConnection_output.
Qed.

(** X6. Every reference entry of a node of the output comes from a
    connection of that node: its value is the upstream node-path, a colon
    and the implementation name of the upstream output, where the upstream
    node is in the node mapping, its type is known to the registry and the
    output is declared by it; its name is the implementation name of the
    connected input. *)
Theorem references_name_declared_outputs N root r :
  ∃ b new ds,
    HdPrman_ConvertHdMaterialNetwork2ToRmanNodes N root r
    = Some (b, r ++ new, ds)
    ∧ ∀ sn kind name ref,
        sn ∈ new → RtReference kind name ref ∈ sn_params sn →
        ∃ node sdrEntry input cs e upstream upstreamSdrEntry
            downstreamProp upstreamProp,
          nodes N !! sn_handle sn = Some node
          ∧ GetShaderNodeByIdentifier (nodeTypeId node) = Some sdrEntry
          ∧ (input, cs) ∈ inputConnections node ∧ e ∈ cs
          ∧ nodes N !! upstreamNode e = Some upstream
          ∧ GetShaderNodeByIdentifier (nodeTypeId upstream)
            = Some upstreamSdrEntry
          ∧ GetShaderInput sdrEntry !! input = Some downstreamProp
          ∧ GetShaderOutput upstreamSdrEntry !! upstreamOutputName e
            = Some upstreamProp
          ∧ name = GetImplementationName downstreamProp
          ∧ ref = upstreamNode e +:+ ":"
                  +:+ GetImplementationName upstreamProp.
Proof.
  destruct (HdPrman_Convert_visit N root r) as (b & V' & new & ds & Hrun & Hv).
  exists b, new, ds. split; [done|]. intros sn kind name ref Hsn Hin.
  destruct (proj1 (visit_upstream_made N) _ _ _ _ _ _ Hv sn Hsn)
    as (node & Hnode & Hmk).
  apply _MakeShadingNode_Some in Hmk
    as (sdrEntry & Hsdr & _ & _ & _ & _ & Hparams).
  rewrite Hparams in Hin. apply elem_of_app in Hin as [Hin|Hin].
  - exfalso.
    apply elem_of_concat in Hin as (ps & Hq & (x & -> & _)%list_elem_of_fmap).
    by apply _ConvertParam_output in Hq as [? _].
  - unfold connection_output in Hin. simpl in Hin.
    apply elem_of_concat in Hin as (ps & Hq & ([input cs] & -> & Hce)%list_elem_of_fmap).
    apply elem_of_concat in Hq as (ps & Hq & (e & -> & He)%list_elem_of_fmap).
    apply _ConvertConnection_output in Hq
      as (kind' & upstream & upstreamSdrEntry & downstreamProp & upstreamProp
          & Hup & Hupsdr & Hdown & Hout & [= -> -> ->]).
    by eexists node, sdrEntry, input, cs, e, upstream, upstreamSdrEntry,
      downstreamProp, upstreamProp.
Qed.

(** X7. Every node of the output carries the node-path as its handle and
    the category the registry context maps to; its implementation is the
    implementation name for displacements, lights and light filters and the
    resolved implementation path for every other category, and the resolved
    path is never empty, also where only the name is used. *)
Theorem output_node_naming N root r :
  ∃ b new ds,
    HdPrman_ConvertHdMaterialNetwork2ToRmanNodes N root r
    = Some (b, r ++ new, ds)
    ∧ ∀ sn, sn ∈ new →
        ∃ node sdrEntry,
          nodes N !! sn_handle sn = Some node
          ∧ GetShaderNodeByIdentifier (nodeTypeId node) = Some sdrEntry
          ∧ _ClassifyNode sdrEntry node = Some (sn_type sn)
          ∧ GetResolvedImplementationURI sdrEntry ≠ EmptyString
          ∧ sn_name sn
            = match sn_type sn with
              | k_Displacement | k_Light | k_LightFilter =>
                  GetNodeImplementationName sdrEntry
              | k_Bxdf | k_Pattern => GetResolvedImplementationURI sdrEntry
              end.
Proof.
  destruct (HdPrman_Convert_visit N root r) as (b & V' & new & ds & Hrun & Hv).
  exists b, new, ds. split; [done|]. intros sn Hsn.
  destruct (proj1 (visit_upstream_made N) _ _ _ _ _ _ Hv sn Hsn)
    as (node & Hnode & Hmk).
  apply _MakeShadingNode_Some in Hmk
    as (sdrEntry & Hsdr & Hclass & Hpath & _ & Hname & _).
  exists node, sdrEntry. split_and!; [done..|].
  rewrite Hname. by destruct (sn_type sn).
Qed.

(** X8. An authored parameter that the registry entry does not declare
    as an input, or declares with an empty type, sets nothing: the node
    converts to the same shading node as without it.  On a [PxrDisplace]
    node a declared input of empty type is passed over without any report,
    so that the whole outcome is the one without the parameter. *)
Theorem undeclared_parameter_ignored N p node ps1 k v ps2 sdrEntry :
  parameters node = ps1 ++ (k, v) :: ps2 →
  GetShaderNodeByIdentifier (nodeTypeId node) = Some sdrEntry →
  GetShaderInput sdrEntry !! k = None
  ∨ (∃ prop, GetShaderInput sdrEntry !! k = Some prop
             ∧ GetType prop = EmptyString) →
  (∀ snType, (_ConvertParam p node sdrEntry snType (k, v)).1 = [])
  ∧ (_MakeShadingNode N p node).1
    = (_MakeShadingNode N p (without_parameter node (ps1 ++ ps2))).1
  ∧ (nodeTypeId node = _tokens.PxrDisplace →
     is_Some (GetShaderInput sdrEntry !! k) →
     _MakeShadingNode N p node
     = _MakeShadingNode N p (without_parameter node (ps1 ++ ps2))).
Proof.
  intros Hparams Hsdr Hinput.
  assert (∀ snType, (_ConvertParam p node sdrEntry snType (k, v)).1 = [])
    as Hnone.
  { intros snType. unfold _ConvertParam. simpl.
    destruct Hinput as [-> | (prop & -> & ->)]; [done|].
    rewrite bool_decide_eq_true_2 by done. by case_bool_decide. }
  split_and!; [done| |].
  - symmetry. apply _MakeShadingNode_node_eq; [done| |done].
    intros sdrEntry' snType Hsdr'. rewrite Hsdr in Hsdr'.
    injection Hsdr' as <-. simpl.
    rewrite Hparams, !fmap_app, fmap_cons, !concat_app, concat_cons.
    by rewrite Hnone.
  - intros Hdisplace [prop Hprop]. symmetry.
    apply _MakeShadingNode_params_eq; [done|done|].
    intros sdrEntry' snType acc Hsdr'. rewrite Hsdr in Hsdr'.
    injection Hsdr' as <-.
    unfold _ConvertParams. simpl. rewrite Hparams.
    rewrite (accumulate_drop _ _ _ (k, v)); [done|].
    unfold _ConvertParam. simpl. rewrite Hprop.
    destruct Hinput as [Hnone'|(prop' & Hprop' & Hty)]; [congruence|].
    rewrite Hprop in Hprop'. injection Hprop' as <-.
    rewrite Hty, bool_decide_eq_true_2 by done.
    by rewrite bool_decide_eq_true_2.
Qed.

(** X9. The option table is searched from the front.  A value equal to
    no label gives [0] and leaves the flag as the caller set it; otherwise
    the first pair with that label decides alone, through the parse of its
    code, whatever the flag was and whatever pairs follow. *)
Theorem option_first_match_wins option options ok :
  (option ∉ options.*1 →
   _ConvertOptionTokenToInt option options ok = (0%Z, ok))
  ∧ (∀ l1 code l2,
       options = l1 ++ (option, code) :: l2 → option ∉ l1.*1 →
       _ConvertOptionTokenToInt option options ok
       = TfUnstringify_int code true).
Proof.
  split.
  - induction options as [|[label code] options IH]; simpl; [done|].
    intros Hnotin. apply not_elem_of_cons in Hnotin as [Hne Hnotin].
    rewrite decide_False by done. by apply IH.
  - intros l1 code l2 -> Hl1.
    induction l1 as [|[label code'] l1 IH]; simpl.
    + by rewrite decide_True.
    + simpl in Hl1. apply not_elem_of_cons in Hl1 as [Hne Hl1].
      rewrite decide_False by done. by apply IH.
Qed.

(** *** Missing nodes *)

Lemma _DispatchParam_diagnostics snType paramName prop value d :
  d ∈ (_DispatchParam snType paramName prop value).2 →
  ∃ v, d = DebugResolvedAssetPath v.
Proof.
  unfold _DispatchParam, set_param, unmatched.
  destruct (_ || _); [by intros ?%elem_of_nil|].
  destruct value as [[??]|?|[[[??]?]?]|?|[[??]?]|?|?|?|?|?|?|?|?|?|?];
    repeat case_match; simpl; try (by intros ?%elem_of_nil).
  intros ->%list_elem_of_singleton. by eexists.
Qed.

Lemma _MakeShadingNode_diagnostics N p node d m :
  d ∈ (_MakeShadingNode N p node).2 → d ≠ WarnUnknownMaterialNode m.
Proof.
  unfold _MakeShadingNode.
  destruct (GetShaderNodeByIdentifier _) as [sdrEntry|];
    [|by intros ->%list_elem_of_singleton].
  destruct (_ClassifyNode _ _) as [snType|];
    [|by intros ->%list_elem_of_singleton].
  case_bool_decide; [by intros ->%list_elem_of_singleton|].
  rewrite _ConvertConnections_eq. unfold _ConvertParams.
  rewrite accumulate_eq. simpl.
  intros [Hd|Hd]%elem_of_app.
  - apply elem_of_concat in Hd as (ds & Hd & (x & -> & _)%list_elem_of_fmap).
    revert Hd. unfold _ConvertParam.
    destruct (GetShaderInput sdrEntry !! x.1) as [prop|];
      [|by intros ->%list_elem_of_singleton].
    case_bool_decide.
    { case_bool_decide; [by intros ?%elem_of_nil|].
      by intros ->%list_elem_of_singleton. }
    destruct (_DispatchParam snType x.1 prop x.2) as [[ok ps] ds'] eqn:Hdisp.
    simpl. intros [Hd|Hd]%elem_of_app.
    + destruct (_DispatchParam_diagnostics snType x.1 prop x.2 d) as [v ->];
        [by rewrite Hdisp|done].
    + destruct ok; [by apply elem_of_nil in Hd|].
      by apply list_elem_of_singleton in Hd as ->.
  - apply elem_of_concat in Hd as (ds & Hd & (ce & -> & _)%list_elem_of_fmap).
    apply elem_of_concat in Hd as (ds & Hd & (e & -> & _)%list_elem_of_fmap).
    revert Hd. unfold _ConvertConnection.
    repeat case_match; simpl; try (by intros ?%elem_of_nil);
      by intros ->%list_elem_of_singleton.
Qed.

Lemma filter_none {A : Type} (P : A → Prop) `{∀ x, Decision (P x)}
    (l : list A) :
  (∀ x, x ∈ l → ¬ P x) → filter P l = [].
Proof.
  induction l as [|x l IH]; intros Hl; [done|].
  rewrite filter_cons_False by (apply Hl; left).
  apply IH. intros y Hy. apply Hl. by right.
Qed.

Lemma filter_some {A : Type} (P : A → Prop) `{∀ x, Decision (P x)}
    (l : list A) :
  0 < length (filter P l) → ∃ x, x ∈ l ∧ P x.
Proof.
  destruct (filter P l) as [|x l'] eqn:Hf; simpl; [lia|]. intros _.
  assert (x ∈ filter P l) as Hx by (rewrite Hf; left).
  apply list_elem_of_filter in Hx as [? ?]. by exists x.
Qed.

Lemma visit_upstream_unknown N :
  (∀ p V b V' new ds,
     visit N p V b V' new ds →
     ∀ m, (WarnUnknownMaterialNode m ∈ ds →
           (m ∉ V) ∧ m ∈ V' ∧ nodes N !! m = None ∧ rtc (edge N) p m)
          ∧ length (filter (.= WarnUnknownMaterialNode m) ds) ≤ 1)
  ∧ (∀ es V V' new ds,
       upstream N es V V' new ds →
       ∀ m, (WarnUnknownMaterialNode m ∈ ds →
             (m ∉ V) ∧ m ∈ V' ∧ nodes N !! m = None
             ∧ ∃ e, e ∈ es ∧ rtc (edge N) (upstreamNode e) m)
            ∧ length (filter (.= WarnUnknownMaterialNode m) ds) ≤ 1).
Proof.
  apply visit_upstream_ind.
  - intros p V _ m. split; [by intros ?%elem_of_nil|simpl; lia].
  - intros p V Hp Hnode m. split.
    + intros [= ->]%list_elem_of_singleton.
      split_and!; [done|set_solver|done|done].
    + destruct (decide (WarnUnknownMaterialNode p = WarnUnknownMaterialNode m));
        [rewrite filter_cons_True by done|rewrite filter_cons_False by done];
        simpl; lia.
  - intros p V node V' new ds Hp Hnode Hup IH m.
    destruct (IH m) as [IH1 IH2].
    assert (∀ d, d ∈ (_MakeShadingNode N p node).2 →
                 ¬ d = WarnUnknownMaterialNode m) as Hmk.
    { intros d Hd. by eapply _MakeShadingNode_diagnostics. }
    split.
    + intros [Hd|Hd]%elem_of_app; [|by apply Hmk in Hd].
      destruct (IH1 Hd) as (Hm1 & Hm2 & Hm3 & e & He & Hreach).
      split_and!; [set_solver|done|done|].
      eapply rtc_l; [|exact Hreach]. apply edge_inv. by exists node, e.
    + by rewrite filter_app, (filter_none _ _ Hmk), app_nil_r.
  - intros V m. split; [by intros ?%elem_of_nil|simpl; lia].
  - intros e es V b V1 V2 new1 new2 ds1 ds2 Hv IH1 Hup IH2 m.
    destruct (IH1 m) as [IH11 IH12]. destruct (IH2 m) as [IH21 IH22].
    destruct (visit_facts _ _ _ _ _ _ _ Hv) as (Hsub1 & _).
    destruct (upstream_facts _ _ _ _ _ _ Hup) as (Hsub2 & _).
    split.
    + intros [Hd|Hd]%elem_of_app.
      * destruct (IH11 Hd) as (? & ? & ? & ?).
        split_and!; [done|set_solver|done|]. exists e. split; [left|done].
      * destruct (IH21 Hd) as (? & ? & ? & e' & ? & ?).
        split_and!; [set_solver|done|done|]. exists e'. split; [by right|done].
    + rewrite filter_app, length_app.
      destruct (decide (0 < length (filter (.= WarnUnknownMaterialNode m) ds1)))
        as [H1|H1]; [|lia].
      destruct (decide (0 < length (filter (.= WarnUnknownMaterialNode m) ds2)))
        as [H2|H2]; [|lia].
      exfalso.
      apply filter_some in H1 as (d1 & Hd1 & ->).
      apply filter_some in H2 as (d2 & Hd2 & ->).
      destruct (IH11 Hd1) as (_ & Hin & _). destruct (IH21 Hd2) as (Hout & _).
      done.
Qed.

(** X10. A node-path that is not in the node mapping is reported as
    unknown material node when it is the root or is reached from the root
    along the connections, and then exactly once, however many connections
    lead to it; no other path is reported so. *)
Theorem missing_node_reported_once N root r :
  ∃ b new ds,
    HdPrman_ConvertHdMaterialNetwork2ToRmanNodes N root r
    = Some (b, r ++ new, ds)
    ∧ ∀ m,
        (WarnUnknownMaterialNode m ∈ ds
         ↔ nodes N !! m = None ∧ rtc (edge N) root m)
        ∧ length (filter (.= WarnUnknownMaterialNode m) ds) ≤ 1.
Proof.
  destruct (HdPrman_Convert_visit N root r) as (b & V' & new & ds & Hrun & Hv).
  exists b, new, ds. split; [done|]. intros m.
  destruct (proj1 (visit_upstream_unknown N) _ _ _ _ _ _ Hv m) as [Hd Hcount].
  split; [|done]. split.
  - intros Hin. by destruct (Hd Hin) as (_ & _ & ? & ?).
  - intros [Hnone Hreach].
    apply (proj1 (visit_upstream_closed N) _ _ _ _ _ _ Hv m);
      [by eapply visit_reachable|set_solver|done].
Qed.

(** *** The per-terminal orchestration *)

Section Rman.
Context `{Riley}.

Local Ltac rman_cases :=
  unfold _CommitMaterial, _CommitDisplacement; simpl;
  repeat (case_bool_decide; simpl); simplify_eq/=.

Lemma _ConvertTerminal_step id N t s :
  rman_nodes s = [] →
  ∃ s' l d,
    _ConvertTerminal id N t s = Some s'
    ∧ rman_nodes s' = []
    ∧ riley s' = riley s ++ l
    ∧ rman_diagnostics s' = rman_diagnostics s ++ d
    ∧ (∀ c, c ∈ l →
            ∃ ns, RileyCall_network c = Some ns
                  ∧ 1 ≤ length ns ≤ size (nodes N))
    ∧ (materialId s ≠ MaterialId_InvalidId →
       materialId s' = materialId s ∧ ∀ ns, CreateMaterial ns ∉ l)
    ∧ (displacementId s ≠ DisplacementId_InvalidId →
       displacementId s' = displacementId s
       ∧ ∀ ns, CreateDisplacement ns ∉ l)
    ∧ (materialFound s' = true
       ↔ materialFound s = true
         ∨ ((t.1 = HdMaterialTerminalTokens.surface
             ∨ t.1 = HdMaterialTerminalTokens.volume)
            ∧ convertible N (upstreamNode t.2)))
    ∧ (displacementFound s' = true
       ↔ displacementFound s = true
         ∨ (t.1 = HdMaterialTerminalTokens.displacement
            ∧ convertible N (upstreamNode t.2)))
    ∧ (¬ convertible N (upstreamNode t.2) →
       l = [] ∧ materialId s' = materialId s
       ∧ displacementId s' = displacementId s
       ∧ materialFound s' = materialFound s
       ∧ displacementFound s' = displacementFound s
       ∧ ErrorFailedToConvertNodes id ∈ d).
Proof.
  intros Hnodes. unfold _ConvertTerminal. rewrite Hnodes.
  destruct (HdPrman_Convert_facts N (upstreamNode t.2))
    as (b & new & ds & -> & Hb & Hnonempty & Hlen).
  assert (b = true → 1 ≤ length new ≤ size (nodes N)) as Hbound.
  { intros Hb'. specialize (Hnonempty Hb'). destruct new; [done|].
    simpl in *. lia. }
  destruct b.
  - assert (convertible N (upstreamNode t.2)) as Hconv by by apply Hb.
    specialize (Hbound eq_refl).
    case_bool_decide as Hmat; [|case_bool_decide as Hdisp].
    + eexists _,
        [if bool_decide (materialId s = MaterialId_InvalidId)
         then CreateMaterial new else ModifyMaterial (materialId s) new],
        (ds ++ if bool_decide (materialId s = MaterialId_InvalidId)
                  && bool_decide (CreateMaterial_id (riley s) new
                                  = MaterialId_InvalidId)
               then [ErrorFailedToCreateMaterial id] else []).
      split; [reflexivity|]. split_and!.
      * rman_cases; done.
      * rman_cases; done.
      * rman_cases; by rewrite ?app_nil_r, <- ?app_assoc.
      * intros c ->%list_elem_of_singleton. exists new.
        split; [by case_bool_decide|done].
      * intros Hid. rman_cases; split; try done;
          by intros ns ?%list_elem_of_singleton.
      * intros Hid. rman_cases; split; try done;
          by intros ns ?%list_elem_of_singleton.
      * rman_cases; (split; [by auto|done]).
      * rman_cases; (split; [by auto|]);
          (intros [Hf|[Hname _]]; [done|]);
          destruct Hmat as [Hm|Hm]; rewrite Hm in Hname; done.
      * done.
    + eexists _,
        [if bool_decide (displacementId s = DisplacementId_InvalidId)
         then CreateDisplacement new
         else ModifyDisplacement (displacementId s) new],
        (ds ++ if bool_decide (displacementId s = DisplacementId_InvalidId)
                  && bool_decide (CreateDisplacement_id (riley s) new
                                  = DisplacementId_InvalidId)
               then [ErrorFailedToCreateDisplacement id] else []).
      split; [reflexivity|]. split_and!.
      * rman_cases; done.
      * rman_cases; done.
      * rman_cases; by rewrite ?app_nil_r, <- ?app_assoc.
      * intros c ->%list_elem_of_singleton. exists new.
        split; [by case_bool_decide|done].
      * intros Hid. rman_cases; split; try done;
          by intros ns ?%list_elem_of_singleton.
      * intros Hid. rman_cases; split; try done;
          by intros ns ?%list_elem_of_singleton.
      * rman_cases; (split; [by auto|]);
          (intros [Hf|[Hname _]]; [done|]); exfalso; apply Hmat; by auto.
      * rman_cases; (split; [by auto|done]).
      * done.
    + eexists _, [], ds. split; [reflexivity|]. simpl.
      split_and!; [done|by rewrite app_nil_r|done| | | | | |done].
      * by intros c ?%elem_of_nil.
      * intros _. split; [done|]. by intros ns ?%elem_of_nil.
      * intros _. split; [done|]. by intros ns ?%elem_of_nil.
      * split; [by auto|]. intros [Hf|[Hname _]]; [done|]. by destruct Hmat.
      * split; [by auto|]. by intros [Hf|[Hname _]].
  - assert (¬ convertible N (upstreamNode t.2)) as Hconv.
    { intros Hc. by apply Hb in Hc. }
    eexists _, [], (ds ++ [ErrorFailedToConvertNodes id]).
    split; [reflexivity|]. simpl.
    split_and!; [done|by rewrite app_nil_r|by rewrite app_assoc| | | | | |].
    + by intros c ?%elem_of_nil.
    + intros _. split; [done|]. by intros ns ?%elem_of_nil.
    + intros _. split; [done|]. by intros ns ?%elem_of_nil.
    + split; [by auto|]. by intros [Hf|[_ Hc]].
    + split; [by auto|]. by intros [Hf|[_ Hc]].
    + intros _. split_and!; [done..|]. apply elem_of_app. right. left.
Qed.

Lemma terminals_loop_step id N ts s :
  rman_nodes s = [] →
  ∃ s' l d,
    for_each (_ConvertTerminal id N) ts s = Some s'
    ∧ rman_nodes s' = []
    ∧ riley s' = riley s ++ l
    ∧ rman_diagnostics s' = rman_diagnostics s ++ d
    ∧ (∀ c, c ∈ l →
            ∃ ns, RileyCall_network c = Some ns
                  ∧ 1 ≤ length ns ≤ size (nodes N))
    ∧ (materialId s ≠ MaterialId_InvalidId →
       materialId s' = materialId s ∧ ∀ ns, CreateMaterial ns ∉ l)
    ∧ (displacementId s ≠ DisplacementId_InvalidId →
       displacementId s' = displacementId s
       ∧ ∀ ns, CreateDisplacement ns ∉ l)
    ∧ (materialFound s' = true
       ↔ materialFound s = true
         ∨ ∃ t, t ∈ ts
                ∧ (t.1 = HdMaterialTerminalTokens.surface
                   ∨ t.1 = HdMaterialTerminalTokens.volume)
                ∧ convertible N (upstreamNode t.2))
    ∧ (displacementFound s' = true
       ↔ displacementFound s = true
         ∨ ∃ t, t ∈ ts
                ∧ t.1 = HdMaterialTerminalTokens.displacement
                ∧ convertible N (upstreamNode t.2))
    ∧ ((∀ t, t ∈ ts → ¬ convertible N (upstreamNode t.2)) →
       l = [] ∧ materialId s' = materialId s
       ∧ displacementId s' = displacementId s
       ∧ materialFound s' = materialFound s
       ∧ displacementFound s' = displacementFound s
       ∧ (ts ≠ [] → ErrorFailedToConvertNodes id ∈ d)
       ∧ (ts = [] → d = [])).
Proof.
  revert s. induction ts as [|t ts IH]; intros s Hnodes.
  { exists s, [], []. simpl. rewrite !app_nil_r.
    split_and!; try done.
    - by intros c ?%elem_of_nil.
    - intros _. split; [done|]. by intros ns ?%elem_of_nil.
    - intros _. split; [done|]. by intros ns ?%elem_of_nil.
    - split; [by auto|]. intros [?|(t & ?%elem_of_nil & _)]; done.
    - split; [by auto|]. intros [?|(t & ?%elem_of_nil & _)]; done. }
  destruct (_ConvertTerminal_step id N t s Hnodes)
    as (s1 & l1 & d1 & Hstep & Hnodes1 & Hl1 & Hd1 & Hb1 & Hm1 & Hdi1 & Hmf1
        & Hdf1 & Hno1).
  destruct (IH s1 Hnodes1)
    as (s2 & l2 & d2 & Hloop & Hnodes2 & Hl2 & Hd2 & Hb2 & Hm2 & Hdi2 & Hmf2
        & Hdf2 & Hno2).
  exists s2, (l1 ++ l2), (d1 ++ d2). simpl. rewrite Hstep.
  split_and!; [done|done|by rewrite Hl2, Hl1, app_assoc
               |by rewrite Hd2, Hd1, app_assoc| | | | | |].
  - intros c [Hc|Hc]%elem_of_app; [by apply Hb1|by apply Hb2].
  - intros Hid. destruct (Hm1 Hid) as [Hid1 Hc1].
    destruct Hm2 as [Hid2 Hc2]; [congruence|].
    split; [congruence|]. intros ns [Hc|Hc]%elem_of_app;
      [by apply (Hc1 ns)|by apply (Hc2 ns)].
  - intros Hid. destruct (Hdi1 Hid) as [Hid1 Hc1].
    destruct Hdi2 as [Hid2 Hc2]; [congruence|].
    split; [congruence|]. intros ns [Hc|Hc]%elem_of_app;
      [by apply (Hc1 ns)|by apply (Hc2 ns)].
  - rewrite Hmf2, Hmf1. split.
    + intros [[Hf|Hs]|(t' & Ht' & Hs)]; [by left| |].
      * right. exists t. split; [left|done].
      * right. exists t'. split; [by right|done].
    + intros [Hf|(t' & [->|Ht']%elem_of_cons & Hs)];
        [by left; left|by left; right|right; by exists t'].
  - rewrite Hdf2, Hdf1. split.
    + intros [[Hf|Hs]|(t' & Ht' & Hs)]; [by left| |].
      * right. exists t. split; [left|done].
      * right. exists t'. split; [by right|done].
    + intros [Hf|(t' & [->|Ht']%elem_of_cons & Hs)];
        [by left; left|by left; right|right; by exists t'].
  - intros Hts.
    destruct Hno1 as (-> & E1 & E2 & E3 & E4 & Herr); [apply Hts; left|].
    destruct Hno2 as (-> & E5 & E6 & E7 & E8 & _);
      [intros t' Ht'; apply Hts; by right|].
    split_and!; [done|congruence..| |done].
    intros _. apply elem_of_app. by left.
Qed.

Lemma _FreeDisused_spec s :
  riley (_FreeDisused s)
  = riley s
    ++ (if materialFound s then [] else [DeleteMaterial (materialId s)])
    ++ (if displacementFound s then []
        else [DeleteDisplacement (displacementId s)])
  ∧ materialId (_FreeDisused s)
    = (if materialFound s then materialId s else MaterialId_InvalidId)
  ∧ displacementId (_FreeDisused s)
    = (if displacementFound s then displacementId s
       else DisplacementId_InvalidId)
  ∧ rman_diagnostics (_FreeDisused s) = rman_diagnostics s.
Proof.
  unfold _FreeDisused.
  destruct (materialFound s) eqn:Hm; simpl;
    destruct (displacementFound s) eqn:Hd; simpl;
    by rewrite ?app_nil_r, <- ?app_assoc.
Qed.

(** X11. Every shading network that [_ConvertHdMaterialNetwork2ToRman]
    hands to the sink in a create or modify call holds at least one node
    (so [&nodes[0]] is an element) and no more nodes than the network has
    (the reserved capacity); the calls made before are kept. *)
Theorem sink_networks_nonempty id N materialId0 displacementId0 calls :
  ∃ s l,
    _ConvertHdMaterialNetwork2ToRman id N materialId0 displacementId0 calls
    = Some s
    ∧ riley s = calls ++ l
    ∧ ∀ c ns, c ∈ l → RileyCall_network c = Some ns →
              1 ≤ length ns ≤ size (nodes N).
Proof.
  unfold _ConvertHdMaterialNetwork2ToRman.
  destruct (terminals_loop_step id N (terminals N)
              {| materialId := materialId0; displacementId := displacementId0;
                 riley := calls; rman_nodes := [];
                 materialFound := false; displacementFound := false;
                 rman_diagnostics := [] |} eq_refl)
    as (s1 & l & d & -> & _ & Hl & _ & Hbound & _).
  simpl in Hl.
  exists (_FreeDisused s1),
    (l ++ (if materialFound s1 then [] else [DeleteMaterial (materialId s1)])
       ++ (if displacementFound s1 then []
           else [DeleteDisplacement (displacementId s1)])).
  split; [done|]. split.
  { destruct (_FreeDisused_spec s1) as (-> & _). by rewrite Hl, <- app_assoc. }
  intros c ns Hc Hns. repeat (apply elem_of_app in Hc as [Hc|Hc]).
  - destruct (Hbound c Hc) as (ns' & Hns' & ?). by simplify_eq.
  - destruct (materialFound s1); [by apply elem_of_nil in Hc|].
    by apply list_elem_of_singleton in Hc as ->.
  - destruct (displacementFound s1); [by apply elem_of_nil in Hc|].
    by apply list_elem_of_singleton in Hc as ->.
Qed.

(** X12. When no terminal's root converts (no terminal at all, or every
    root missing or refused by the registry), the only calls on the sink
    are [DeleteMaterial] and [DeleteDisplacement] on the identifiers passed
    in, in that order and also when an identifier is the invalid sentinel;
    both identifiers are invalid afterwards, and a failed conversion is
    reported if there was a terminal. *)
Theorem no_terminal_converts id N materialId0 displacementId0 calls :
  (∀ t, t ∈ terminals N → ¬ convertible N (upstreamNode t.2)) →
  ∃ s,
    _ConvertHdMaterialNetwork2ToRman id N materialId0 displacementId0 calls
    = Some s
    ∧ riley s = calls ++ [DeleteMaterial materialId0;
                          DeleteDisplacement displacementId0]
    ∧ materialId s = MaterialId_InvalidId
    ∧ displacementId s = DisplacementId_InvalidId
    ∧ (terminals N ≠ [] → ErrorFailedToConvertNodes id ∈ rman_diagnostics s)
    ∧ (terminals N = [] → rman_diagnostics s = []).
Proof.
  intros Hts. unfold _ConvertHdMaterialNetwork2ToRman.
  destruct (terminals_loop_step id N (terminals N)
              {| materialId := materialId0; displacementId := displacementId0;
                 riley := calls; rman_nodes := [];
                 materialFound := false; displacementFound := false;
                 rman_diagnostics := [] |} eq_refl)
    as (s1 & l & d & -> & _ & Hl & Hd & _ & _ & _ & _ & _ & Hno).
  destruct (Hno Hts) as (-> & Hm & Hdi & Hmf & Hdf & Herr & Hnil).
  simpl in *. eexists. split; [done|].
  destruct (_FreeDisused_spec s1) as (-> & -> & -> & ->).
  rewrite Hmf, Hdf, Hl, Hm, Hdi, Hd, app_nil_r.
  split_and!; [done|done|done|done|].
  intros Hempty. by rewrite (Hnil Hempty).
Qed.

Lemma _ConvertTerminal_commit id N t s :
  rman_nodes s = [] →
  convertible N (upstreamNode t.2) →
  ∃ ns ds s',
    HdPrman_ConvertHdMaterialNetwork2ToRmanNodes N (upstreamNode t.2) []
    = Some (true, ns, ds)
    ∧ _ConvertTerminal id N t s = Some s'
    ∧ (t.1 = HdMaterialTerminalTokens.surface
       ∨ t.1 = HdMaterialTerminalTokens.volume →
       materialId s ≠ MaterialId_InvalidId →
       riley s' = riley s ++ [ModifyMaterial (materialId s) ns])
    ∧ (t.1 = HdMaterialTerminalTokens.displacement →
       displacementId s ≠ DisplacementId_InvalidId →
       riley s' = riley s ++ [ModifyDisplacement (displacementId s) ns]).
Proof.
  intros Hnodes Hconv. unfold _ConvertTerminal. rewrite Hnodes.
  destruct (HdPrman_Convert_facts N (upstreamNode t.2))
    as (b & new & ds & Hrun & Hb & _).
  rewrite Hrun. assert (b = true) as -> by by apply Hb.
  eexists new, ds, _. split; [done|]. split; [reflexivity|]. split.
  - intros Hmat Hid. rewrite bool_decide_eq_true_2 by done.
    rman_cases; done.
  - intros Hdisp Hid. rewrite bool_decide_eq_false_2.
    2: { rewrite Hdisp. intros [?|?]; done. }
    rewrite bool_decide_eq_true_2 by done.
    rman_cases; done.
Qed.

Lemma terminals_loop_commit id N ts t s :
  rman_nodes s = [] → t ∈ ts →
  convertible N (upstreamNode t.2) →
  ∃ ns ds s' l,
    HdPrman_ConvertHdMaterialNetwork2ToRmanNodes N (upstreamNode t.2) []
    = Some (true, ns, ds)
    ∧ for_each (_ConvertTerminal id N) ts s = Some s'
    ∧ riley s' = riley s ++ l
    ∧ (t.1 = HdMaterialTerminalTokens.surface
       ∨ t.1 = HdMaterialTerminalTokens.volume →
       materialId s ≠ MaterialId_InvalidId →
       ModifyMaterial (materialId s) ns ∈ l)
    ∧ (t.1 = HdMaterialTerminalTokens.displacement →
       displacementId s ≠ DisplacementId_InvalidId →
       ModifyDisplacement (displacementId s) ns ∈ l).
Proof.
  intros Hnodes Ht Hconv.
  apply list_elem_of_split in Ht as (ts1 & ts2 & ->).
  destruct (terminals_loop_step id N ts1 s Hnodes)
    as (s1 & l1 & d1 & Hloop1 & Hnodes1 & Hl1 & _ & _ & Hm1 & Hdi1 & _).
  destruct (_ConvertTerminal_commit id N t s1 Hnodes1 Hconv)
    as (ns & ds & s2 & Hrun & Hstep & Hmod & Hmodd).
  destruct (_ConvertTerminal_step id N t s1 Hnodes1)
    as (s2' & l2 & d2 & Hstep' & Hnodes2 & Hl2 & _).
  assert (s2' = s2) as -> by congruence.
  destruct (terminals_loop_step id N ts2 s2 Hnodes2)
    as (s3 & l3 & d3 & Hloop3 & _ & Hl3 & _).
  exists ns, ds, s3, (l1 ++ l2 ++ l3).
  split; [done|]. split.
  { rewrite for_each_app, Hloop1. cbn. by rewrite Hstep. }
  split; [by rewrite Hl3, Hl2, Hl1, <- !app_assoc|].
  split.
  - intros Hmat Hid. destruct (Hm1 Hid) as [Hid1 _].
    specialize (Hmod Hmat). rewrite Hid1 in Hmod. specialize (Hmod Hid).
    rewrite Hl2 in Hmod. apply app_inv_head in Hmod as ->.
    apply elem_of_app. right. apply elem_of_app. left. left.
  - intros Hdisp Hid. destruct (Hdi1 Hid) as [Hid1 _].
    specialize (Hmodd Hdisp). rewrite Hid1 in Hmodd. specialize (Hmodd Hid).
    rewrite Hl2 in Hmodd. apply app_inv_head in Hmodd as ->.
    apply elem_of_app. right. apply elem_of_app. left. left.
Qed.

(** X13. A valid identifier passed in is never replaced by a new one: with
    a valid material identifier no [CreateMaterial] call is made; for every
    surface or volume terminal whose root converts, [ModifyMaterial] is
    called on that identifier with the shading nodes converted from that
    root, and the identifier is kept and not deleted; when no such terminal
    converts, the material is deleted and the identifier reset.  The same
    holds for the displacement identifier, the displacement terminal and
    [ModifyDisplacement]. *)
Theorem valid_identifier_kept id N materialId0 displacementId0 calls :
  ∃ s l,
    _ConvertHdMaterialNetwork2ToRman id N materialId0 displacementId0 calls
    = Some s
    ∧ riley s = calls ++ l
    ∧ (materialId0 ≠ MaterialId_InvalidId →
       (∀ ns, CreateMaterial ns ∉ l)
       ∧ ((∃ t, t ∈ terminals N
                ∧ (t.1 = HdMaterialTerminalTokens.surface
                   ∨ t.1 = HdMaterialTerminalTokens.volume)
                ∧ convertible N (upstreamNode t.2)) →
          materialId s = materialId0 ∧ ∀ i, DeleteMaterial i ∉ l)
       ∧ ((¬ ∃ t, t ∈ terminals N
                  ∧ (t.1 = HdMaterialTerminalTokens.surface
                     ∨ t.1 = HdMaterialTerminalTokens.volume)
                  ∧ convertible N (upstreamNode t.2)) →
          materialId s = MaterialId_InvalidId
          ∧ DeleteMaterial materialId0 ∈ l)
       ∧ (∀ t, t ∈ terminals N →
               t.1 = HdMaterialTerminalTokens.surface
               ∨ t.1 = HdMaterialTerminalTokens.volume →
               convertible N (upstreamNode t.2) →
               ∃ ns ds,
                 HdPrman_ConvertHdMaterialNetwork2ToRmanNodes N
                   (upstreamNode t.2) []
                 = Some (true, ns, ds)
                 ∧ ModifyMaterial materialId0 ns ∈ l))
    ∧ (displacementId0 ≠ DisplacementId_InvalidId →
       (∀ ns, CreateDisplacement ns ∉ l)
       ∧ ((∃ t, t ∈ terminals N
                ∧ t.1 = HdMaterialTerminalTokens.displacement
                ∧ convertible N (upstreamNode t.2)) →
          displacementId s = displacementId0
          ∧ ∀ i, DeleteDisplacement i ∉ l)
       ∧ ((¬ ∃ t, t ∈ terminals N
                  ∧ t.1 = HdMaterialTerminalTokens.displacement
                  ∧ convertible N (upstreamNode t.2)) →
          displacementId s = DisplacementId_InvalidId
          ∧ DeleteDisplacement displacementId0 ∈ l)
       ∧ (∀ t, t ∈ terminals N →
               t.1 = HdMaterialTerminalTokens.displacement →
               convertible N (upstreamNode t.2) →
               ∃ ns ds,
                 HdPrman_ConvertHdMaterialNetwork2ToRmanNodes N
                   (upstreamNode t.2) []
                 = Some (true, ns, ds)
                 ∧ ModifyDisplacement displacementId0 ns ∈ l)).
Proof.
  unfold _ConvertHdMaterialNetwork2ToRman.
  set (s0 := {| materialId := materialId0; displacementId := displacementId0;
                riley := calls; rman_nodes := [];
                materialFound := false; displacementFound := false;
                rman_diagnostics := [] |}).
  destruct (terminals_loop_step id N (terminals N) s0 eq_refl)
    as (s1 & l & d & Hloop & _ & Hl & _ & Hbound & Hm & Hdi & Hmf & Hdf & _).
  rewrite Hloop. simpl in Hl, Hm, Hdi, Hmf, Hdf. simpl.
  assert (∀ c, c ∈ l → RileyCall_network c ≠ None) as Hnodelete.
  { intros c Hc. destruct (Hbound c Hc) as (ns & -> & _). done. }
  exists (_FreeDisused s1),
    (l ++ (if materialFound s1 then [] else [DeleteMaterial (materialId s1)])
       ++ (if displacementFound s1 then []
           else [DeleteDisplacement (displacementId s1)])).
  destruct (_FreeDisused_spec s1) as (Hr & Hfm & Hfd & _).
  split; [done|]. split; [by rewrite Hr, Hl, <- app_assoc|].
  split.
  - intros Hid. destruct (Hm Hid) as [Hid1 Hcreate].
    split_and!.
    + intros ns Hin. repeat (apply elem_of_app in Hin as [Hin|Hin]).
      * by apply (Hcreate ns).
      * destruct (materialFound s1); [by apply elem_of_nil in Hin|].
        by apply list_elem_of_singleton in Hin.
      * destruct (displacementFound s1); [by apply elem_of_nil in Hin|].
        by apply list_elem_of_singleton in Hin.
    + intros Hex. assert (materialFound s1 = true) as Hfound.
      { apply Hmf. by right. }
      rewrite Hfm, Hfound. split; [done|].
      intros i Hin. repeat (apply elem_of_app in Hin as [Hin|Hin]).
      * by apply Hnodelete in Hin.
      * by apply elem_of_nil in Hin.
      * destruct (displacementFound s1); [by apply elem_of_nil in Hin|].
        by apply list_elem_of_singleton in Hin.
    + intros Hnex. assert (materialFound s1 = false) as Hfound.
      { destruct (materialFound s1) eqn:Hf; [|done].
        destruct (proj1 Hmf eq_refl) as [?|?]; done. }
      rewrite Hfm, Hfound. split; [done|].
      rewrite Hid1. apply elem_of_app. right. apply elem_of_app. left. left.
    + intros t Ht Hkind Hconv.
      destruct (terminals_loop_commit id N (terminals N) t s0 eq_refl Ht Hconv)
        as (ns & ds & s1' & l' & Hrun & Hloop' & Hl' & Hmod & _).
      rewrite Hloop in Hloop'. injection Hloop' as <-.
      simpl in Hl', Hmod. rewrite Hl in Hl'. apply app_inv_head in Hl' as <-.
      exists ns, ds. split; [done|]. apply elem_of_app. left. by apply Hmod.
  - intros Hid. destruct (Hdi Hid) as [Hid1 Hcreate].
    split_and!.
    + intros ns Hin. repeat (apply elem_of_app in Hin as [Hin|Hin]).
      * by apply (Hcreate ns).
      * destruct (materialFound s1); [by apply elem_of_nil in Hin|].
        by apply list_elem_of_singleton in Hin.
      * destruct (displacementFound s1); [by apply elem_of_nil in Hin|].
        by apply list_elem_of_singleton in Hin.
    + intros Hex. assert (displacementFound s1 = true) as Hfound.
      { apply Hdf. by right. }
      rewrite Hfd, Hfound. split; [done|].
      intros i Hin. repeat (apply elem_of_app in Hin as [Hin|Hin]).
      * by apply Hnodelete in Hin.
      * destruct (materialFound s1); [by apply elem_of_nil in Hin|].
        by apply list_elem_of_singleton in Hin.
      * by apply elem_of_nil in Hin.
    + intros Hnex. assert (displacementFound s1 = false) as Hfound.
      { destruct (displacementFound s1) eqn:Hf; [|done].
        destruct (proj1 Hdf eq_refl) as [?|?]; done. }
      rewrite Hfd, Hfound. split; [done|].
      rewrite Hid1. apply elem_of_app. right. apply elem_of_app. right. left.
    + intros t Ht Hkind Hconv.
      destruct (terminals_loop_commit id N (terminals N) t s0 eq_refl Ht Hconv)
        as (ns & ds & s1' & l' & Hrun & Hloop' & Hl' & _ & Hmod).
      rewrite Hloop in Hloop'. injection Hloop' as <-.
      simpl in Hl', Hmod. rewrite Hl in Hl'. apply app_inv_head in Hl' as <-.
      exists ns, ds. split; [done|]. apply elem_of_app. left. by apply Hmod.
Qed.

End Rman.

End Proofs.

End MaterialExtras.

(** ** A connection to a node the network does not have *)

Module DanglingReference.
Import Material MaterialGraph MaterialProofs HdPrmanMaterial MaterialExtras.

Section Proofs.
Context `{Host}.

(** What is reported for a node that passes the three guards. *)
Lemma _MakeShadingNode_guards N p node sdrEntry snType :
  GetShaderNodeByIdentifier (nodeTypeId node) = Some sdrEntry →
  _ClassifyNode sdrEntry node = Some snType →
  GetResolvedImplementationURI sdrEntry ≠ EmptyString →
  (_MakeShadingNode N p node).2
  = concat ((λ x, (_ConvertParam p node sdrEntry snType x).2)
              <$> parameters node)
    ++ (connection_output N p sdrEntry (inputConnections node)).2.
Proof.
  intros Hsdr Hclass Hpath. unfold _MakeShadingNode.
  rewrite Hsdr, Hclass. rewrite bool_decide_eq_false_2 by done.
  rewrite _ConvertConnections_eq. unfold _ConvertParams.
  by rewrite accumulate_eq.
Qed.

(** A connection whose two ends the registry knows sets its reference. *)
Lemma _ConvertConnection_sound N p sdrEntry input e upstream upstreamSdrEntry
    downstreamProp upstreamProp kind :
  nodes N !! upstreamNode e = Some upstream →
  GetShaderNodeByIdentifier (nodeTypeId upstream) = Some upstreamSdrEntry →
  GetShaderInput sdrEntry !! input = Some downstreamProp →
  GetShaderOutput upstreamSdrEntry !! upstreamOutputName e
  = Some upstreamProp →
  (GetType downstreamProp, kind) ∈ reference_kinds →
  _ConvertConnection N p sdrEntry input e
  = ([RtReference kind (GetImplementationName downstreamProp)
        (upstreamNode e +:+ ":" +:+ GetImplementationName upstreamProp)],
     []).
Proof.
  intros Hup Hupsdr Hdown Hout Hkind. unfold _ConvertConnection.
  rewrite Hup, Hupsdr, Hdown, Hout. unfold reference_kinds in Hkind.
  repeat (apply elem_of_cons in Hkind as [[= -> ->]|Hkind]; [done|]).
  by apply elem_of_nil in Hkind.
Qed.

(** What [_MakeShadingNode] reports for a node is among the diagnostics of
    the traversal that first visits the node. *)
Lemma visit_upstream_reported N :
  (∀ p V b V' new ds,
     visit N p V b V' new ds →
     ∀ m node d, m ∈ V' → m ∉ V → nodes N !! m = Some node →
                 d ∈ (_MakeShadingNode N m node).2 → d ∈ ds)
  ∧ (∀ es V V' new ds,
       upstream N es V V' new ds →
       ∀ m node d, m ∈ V' → m ∉ V → nodes N !! m = Some node →
                   d ∈ (_MakeShadingNode N m node).2 → d ∈ ds).
Proof.
  apply visit_upstream_ind.
  - intros p V Hp m node d Hm Hm'. done.
  - intros p V Hp Hnode m node d Hm Hm' Hnode'.
    assert (m = p) as -> by set_solver. congruence.
  - intros p V node V' new ds Hp Hnode Hup IH m node' d Hm Hm' Hnode' Hd.
    apply elem_of_app. destruct (decide (m = p)) as [->|Hne].
    + rewrite Hnode in Hnode'. injection Hnode' as <-. by right.
    + left. apply (IH m node' d); [done|set_solver|done|done].
  - intros V m node d Hm Hm'. done.
  - intros e es V b V1 V2 new1 new2 ds1 ds2 Hv IH1 Hup IH2 m node d Hm Hm'
      Hnode Hd.
    apply elem_of_app. destruct (decide (m ∈ V1)) as [Hin|Hout].
    + left. by apply (IH1 m node d).
    + right. by apply (IH2 m node d).
Qed.

(** C4. Take a network with a connection [c], on input [input] of node
    [p], whose upstream node-path is not in the node mapping.  The
    conversion completes, with the flag and the list of shading nodes of
    the same network without that one connection.  Every other branch
    converts: each node reached from the root that the registry knows, with
    an accepted context and an implementation path, is in the output (the
    flag is [true] when this is the root), and its parameters hold the
    reference of each of its connections whose upstream node is in the
    network and whose two ends the registry declares, the siblings of [c]
    among them.  Only the broken connection is left out: every reference
    in the output comes from a connection other than [c], to a node of the
    network, and no node of the output stands for the missing path.  When
    [p] is reached from the root, the missing node is reported
    ([TF_WARN], material.cpp:184-189), and so is the connection
    (material.cpp:493-498) when [p] itself passes the registry. *)
Theorem dangling_reference_skipped N p node es1 input cs1 c cs2 es2 root r :
  nodes N !! p = Some node →
  inputConnections node = es1 ++ (input, cs1 ++ c :: cs2) :: es2 →
  nodes N !! upstreamNode c = None →
  ∃ b new ds ds',
    HdPrman_ConvertHdMaterialNetwork2ToRmanNodes N root r
    = Some (b, r ++ new, ds)
    ∧ HdPrman_ConvertHdMaterialNetwork2ToRmanNodes
        (with_node N p
           (with_connections node (es1 ++ (input, cs1 ++ cs2) :: es2)))
        root r
      = Some (b, r ++ new, ds')
    ∧ (∀ m mnode sdrEntry snType,
         rtc (edge N) root m →
         nodes N !! m = Some mnode →
         GetShaderNodeByIdentifier (nodeTypeId mnode) = Some sdrEntry →
         _ClassifyNode sdrEntry mnode = Some snType →
         GetResolvedImplementationURI sdrEntry ≠ EmptyString →
         (m = root → b = true)
         ∧ ∃ sn,
             sn ∈ new ∧ sn_handle sn = m
             ∧ ∀ input' cs e upstream upstreamSdrEntry downstreamProp
                 upstreamProp kind,
                 (input', cs) ∈ inputConnections mnode → e ∈ cs →
                 nodes N !! upstreamNode e = Some upstream →
                 GetShaderNodeByIdentifier (nodeTypeId upstream)
                 = Some upstreamSdrEntry →
                 GetShaderInput sdrEntry !! input' = Some downstreamProp →
                 GetShaderOutput upstreamSdrEntry !! upstreamOutputName e
                 = Some upstreamProp →
                 (GetType downstreamProp, kind) ∈ reference_kinds →
                 RtReference kind (GetImplementationName downstreamProp)
                   (upstreamNode e +:+ ":"
                    +:+ GetImplementationName upstreamProp)
                 ∈ sn_params sn)
    ∧ (∀ sn kind name ref,
         sn ∈ new → RtReference kind name ref ∈ sn_params sn →
         ∃ qnode input' cs e upstream upstreamSdrEntry upstreamProp,
           nodes N !! sn_handle sn = Some qnode
           ∧ (input', cs) ∈ inputConnections qnode ∧ e ∈ cs
           ∧ e ≠ c
           ∧ nodes N !! upstreamNode e = Some upstream
           ∧ GetShaderNodeByIdentifier (nodeTypeId upstream)
             = Some upstreamSdrEntry
           ∧ GetShaderOutput upstreamSdrEntry !! upstreamOutputName e
             = Some upstreamProp
           ∧ ref = upstreamNode e +:+ ":"
                   +:+ GetImplementationName upstreamProp)
    ∧ (upstreamNode c ∉ handles new)
    ∧ (rtc (edge N) root p →
       WarnUnknownMaterialNode (upstreamNode c) ∈ ds
       ∧ ∀ sdrEntry snType,
           GetShaderNodeByIdentifier (nodeTypeId node) = Some sdrEntry →
           _ClassifyNode sdrEntry node = Some snType →
           GetResolvedImplementationURI sdrEntry ≠ EmptyString →
           WarnUnknownUpstreamNode (upstreamNode c) ∈ ds).
Proof.
  intros Hnode Hconns Hdangling.
  pose proof (remove_dangling_pruned _ _ _ _ _ _ _ _ _ Hnode Hconns Hdangling)
    as HNN'.
  set (N' := with_node N p _) in *.
  destruct (HdPrman_Convert_visit N root r) as (b & V & new & ds & Hrun & Hv).
  destruct (HdPrman_Convert_visit N' root r)
    as (b' & V' & new' & ds' & Hrun' & Hv').
  destruct (proj1 (pruned_simulation N N' HNN') _ _ _ _ _ _ Hv ∅)
    as (W1 & ds'' & Hsim & _); [done|].
  destruct (proj1 (visit_upstream_det N') _ _ _ _ _ _ Hv' _ _ _ _ Hsim)
    as (-> & _ & -> & _).
  exists b, new, ds, ds'. split_and!; [done|done| | | |].
  - intros m mnode sdrEntry snType Hreach Hm Hsdr Hclass Hpath.
    assert (convertible N m) as Hconv.
    { exists mnode. split; [done|]. apply _MakeShadingNode_is_Some.
      by exists sdrEntry, snType. }
    split.
    { intros ->. apply (visit_flag _ _ _ _ _ _ _ Hv); [set_solver|done]. }
    assert (m ∈ handles new) as Hin.
    { apply (proj1 (visit_upstream_closed N) _ _ _ _ _ _ Hv);
        [by eapply visit_reachable|set_solver|done]. }
    apply list_elem_of_fmap in Hin as (sn & -> & Hsn).
    exists sn. split; [done|]. split; [done|].
    intros input' cs e upstream upstreamSdrEntry downstreamProp upstreamProp
      kind Hce He Hup Hupsdr Hdown Hout Hkind.
    destruct (proj1 (visit_upstream_made N) _ _ _ _ _ _ Hv sn Hsn)
      as (node' & Hnode' & Hmk).
    assert (node' = mnode) as ->
      by (pose proof (eq_trans (eq_sym Hnode') Hm); congruence).
    apply _MakeShadingNode_Some in Hmk
      as (sdrEntry' & Hsdr' & _ & _ & _ & _ & ->).
    assert (sdrEntry' = sdrEntry) as -> by congruence.
    apply elem_of_app. right. unfold connection_output. simpl.
    apply elem_of_concat. eexists. split; [|apply list_elem_of_fmap;
      exists (input', cs); split; [reflexivity|done]].
    simpl. apply elem_of_concat. eexists. split; [|apply list_elem_of_fmap;
      exists e; split; [reflexivity|done]].
    rewrite (_ConvertConnection_sound _ _ _ _ _ _ _ _ _ _ Hup Hupsdr Hdown
               Hout Hkind).
    simpl. left.
  - intros sn kind name ref Hsn Hin.
    destruct (proj1 (visit_upstream_made N) _ _ _ _ _ _ Hv sn Hsn)
      as (qnode & Hqnode & Hmk).
    apply _MakeShadingNode_Some in Hmk
      as (sdrEntry & Hsdr & _ & _ & _ & _ & Hparams).
    rewrite Hparams in Hin. apply elem_of_app in Hin as [Hin|Hin].
    + exfalso.
      apply elem_of_concat in Hin
        as (ps & Hq & (x & -> & _)%list_elem_of_fmap).
      by apply _ConvertParam_output in Hq as [? _].
    + unfold connection_output in Hin. simpl in Hin.
      apply elem_of_concat in Hin
        as (ps & Hq & ([input' cs] & -> & Hce)%list_elem_of_fmap).
      apply elem_of_concat in Hq as (ps & Hq & (e & -> & He)%list_elem_of_fmap).
      apply _ConvertConnection_output in Hq
        as (kind' & upstream & upstreamSdrEntry & downstreamProp
            & upstreamProp & Hup & Hupsdr & Hdown & Hout & [= -> -> ->]).
      exists qnode, input', cs, e, upstream, upstreamSdrEntry, upstreamProp.
      split_and!; try done. intros ->.
      pose proof (eq_trans (eq_sym Hup) Hdangling). congruence.
  - intros Hin. apply list_elem_of_fmap in Hin as (sn & Hh & Hsn).
    destruct (proj1 (visit_upstream_made N) _ _ _ _ _ _ Hv sn Hsn)
      as (qnode & Hqnode & _).
    rewrite <- Hh in Hqnode.
    pose proof (eq_trans (eq_sym Hqnode) Hdangling). congruence.
  - intros Hreach.
    assert (p ∈ V) as Hp by by eapply visit_reachable.
    split.
    + assert (upstreamNode c ∈ V) as Hvisited.
      { apply (proj1 (visit_upstream_closed N) _ _ _ _ _ _ Hv p);
          [done|set_solver|].
        apply edge_inv. exists node, c. split_and!; [done| |done].
        unfold connections. rewrite Hconns, fmap_app, concat_app. simpl.
        set_solver. }
      apply (proj1 (visit_upstream_closed N) _ _ _ _ _ _ Hv (upstreamNode c));
        [done|set_solver|done].
    + intros sdrEntry snType Hsdr Hclass Hpath.
      apply (proj1 (visit_upstream_reported N) _ _ _ _ _ _ Hv p node);
        [done|set_solver|done|].
      rewrite (_MakeShadingNode_guards _ _ _ _ _ Hsdr Hclass Hpath).
      apply elem_of_app. right. unfold connection_output. simpl.
      rewrite Hconns. apply elem_of_concat. eexists.
      split; [|apply list_elem_of_fmap;
               exists (input, cs1 ++ c :: cs2);
               split; [reflexivity|set_solver]].
      simpl. apply elem_of_concat. eexists.
      split; [|apply list_elem_of_fmap; exists c; split;
               [reflexivity|set_solver]].
      unfold _ConvertConnection. rewrite Hdangling. simpl. left.
Qed.

End Proofs.

#[local] Existing Instance Examples.host.

Lemma dangling_reference_skipped_witness :
  let N := Examples.dangling in
  let p : SdfPath := "/mat/Surface" in
  let node := Examples.dangling_surface in
  let es1 : list (TfToken * list HdMaterialConnection2) :=
    [("diffuseColor", [Examples.connection "/mat/TexA" "resultRGB"])] in
  let input : TfToken := "presence" in
  let cs1 : list HdMaterialConnection2 := [] in
  let c := Examples.connection "/mat/Missing" "resultR" in
  let cs2 := [Examples.connection "/mat/TexB" "resultR"] in
  let es2 : list (TfToken * list HdMaterialConnection2) := [] in
  let root : SdfPath := "/mat/Surface" in
  let r : list ShadingNode := [] in
  ∃ b new ds ds',
    HdPrman_ConvertHdMaterialNetwork2ToRmanNodes N root r
    = Some (b, r ++ new, ds)
    ∧ HdPrman_ConvertHdMaterialNetwork2ToRmanNodes
        (with_node N p
           (with_connections node (es1 ++ (input, cs1 ++ cs2) :: es2)))
        root r
      = Some (b, r ++ new, ds')
    ∧ (∀ m mnode sdrEntry snType,
         rtc (edge N) root m →
         nodes N !! m = Some mnode →
         GetShaderNodeByIdentifier (nodeTypeId mnode) = Some sdrEntry →
         _ClassifyNode sdrEntry mnode = Some snType →
         GetResolvedImplementationURI sdrEntry ≠ EmptyString →
         (m = root → b = true)
         ∧ ∃ sn,
             sn ∈ new ∧ sn_handle sn = m
             ∧ ∀ input' cs e upstream upstreamSdrEntry downstreamProp
                 upstreamProp kind,
                 (input', cs) ∈ inputConnections mnode → e ∈ cs →
                 nodes N !! upstreamNode e = Some upstream →
                 GetShaderNodeByIdentifier (nodeTypeId upstream)
                 = Some upstreamSdrEntry →
                 GetShaderInput sdrEntry !! input' = Some downstreamProp →
                 GetShaderOutput upstreamSdrEntry !! upstreamOutputName e
                 = Some upstreamProp →
                 (GetType downstreamProp, kind) ∈ reference_kinds →
                 RtReference kind (GetImplementationName downstreamProp)
                   (upstreamNode e +:+ ":"
                    +:+ GetImplementationName upstreamProp)
                 ∈ sn_params sn)
    ∧ (∀ sn kind name ref,
         sn ∈ new → RtReference kind name ref ∈ sn_params sn →
         ∃ qnode input' cs e upstream upstreamSdrEntry upstreamProp,
           nodes N !! sn_handle sn = Some qnode
           ∧ (input', cs) ∈ inputConnections qnode ∧ e ∈ cs
           ∧ e ≠ c
           ∧ nodes N !! upstreamNode e = Some upstream
           ∧ GetShaderNodeByIdentifier (nodeTypeId upstream)
             = Some upstreamSdrEntry
           ∧ GetShaderOutput upstreamSdrEntry !! upstreamOutputName e
             = Some upstreamProp
           ∧ ref = upstreamNode e +:+ ":"
                   +:+ GetImplementationName upstreamProp)
    ∧ (upstreamNode c ∉ handles new)
    ∧ (rtc (edge N) root p →
       WarnUnknownMaterialNode (upstreamNode c) ∈ ds
       ∧ ∀ sdrEntry snType,
           GetShaderNodeByIdentifier (nodeTypeId node) = Some sdrEntry →
           _ClassifyNode sdrEntry node = Some snType →
           GetResolvedImplementationURI sdrEntry ≠ EmptyString →
           WarnUnknownUpstreamNode (upstreamNode c) ∈ ds).
Proof.
  intros N p node es1 input cs1 c cs2 es2 root r.
  apply (@dangling_reference_skipped Examples.host N p node es1 input cs1 c
           cs2 es2 root r).
  - vm_compute. reflexivity.
  - reflexivity.
  - vm_compute. reflexivity.
Defined.

(** On the example, the surface keeps the references of the two sound
    connections; the one to [/mat/Missing] sets nothing. *)
Example dangling_output :
  (λ out, sn_params <$> last out) <$>
    (snd ∘ fst <$>
       @HdPrman_ConvertHdMaterialNetwork2ToRmanNodes Examples.host
         Examples.dangling "/mat/Surface" [])
  = Some (Some [RtReference RefColor "diffuseColor" "/mat/TexA:resultRGB";
                RtReference RefFloat "presence" "/mat/TexB:resultR"]).
Proof. vm_compute. reflexivity. Qed.

End DanglingReference.

(** ** HdPrmanMaterial: reset and sync *)

Module HdPrmanMaterialProofs.
Import Material MaterialGraph MaterialProofs HdPrmanMaterial MaterialExtras.

Lemma _ResetMaterial_cases (self : HdPrmanMaterial) (riley : list RileyCall) :
  _ResetMaterial self riley
  = ({| _id := _id self; _materialId := MaterialId_InvalidId;
        _displacementId := DisplacementId_InvalidId;
        _materialNetwork := _materialNetwork self |},
     riley
     ++ (if bool_decide (_materialId self ≠ MaterialId_InvalidId)
         then [DeleteMaterial (_materialId self)] else [])
     ++ (if bool_decide (_displacementId self ≠ DisplacementId_InvalidId)
         then [DeleteDisplacement (_displacementId self)] else [])).
Proof.
  unfold _ResetMaterial. destruct self as [id mid did net]. simpl.
  case_bool_decide as Hm; simpl; case_bool_decide as Hd; simpl;
    rewrite ?app_nil_r, <- ?app_assoc; try done.
  all: by simplify_eq/=.
Qed.

(** X14. [_ResetMaterial] (and so [Finalize]) deletes what is valid and
    nothing else: a valid material identifier is deleted, then a valid
    displacement identifier; the invalid sentinel is never passed to the
    sink.  Both identifiers are invalid afterwards, so [IsValid] is false;
    the stored network and the prim path are kept; a second reset makes no
    call at all. *)
Theorem reset_releases_valid_identifiers
    (self : HdPrmanMaterial) (riley : list RileyCall) :
  ∃ self' l,
    Finalize self riley = (self', riley ++ l)
    ∧ IsValid self' = false
    ∧ _displacementId self' = DisplacementId_InvalidId
    ∧ _materialNetwork self' = _materialNetwork self
    ∧ _id self' = _id self
    ∧ l = (if decide (_materialId self = MaterialId_InvalidId) then []
           else [DeleteMaterial (_materialId self)])
          ++ (if decide (_displacementId self = DisplacementId_InvalidId)
              then [] else [DeleteDisplacement (_displacementId self)])
    ∧ (DeleteMaterial MaterialId_InvalidId ∉ l)
    ∧ (DeleteDisplacement DisplacementId_InvalidId ∉ l)
    ∧ Finalize self' (riley ++ l) = (self', riley ++ l).
Proof.
  unfold Finalize. rewrite _ResetMaterial_cases.
  eexists _, _. split; [reflexivity|].
  rewrite _ResetMaterial_cases. unfold IsValid.
  destruct self as [id mid did net]. simpl.
  repeat case_bool_decide; repeat case_decide; simplify_eq/=;
    rewrite ?app_nil_r; split_and!; try done;
    rewrite ?elem_of_cons, ?elem_of_nil; intros ?; destruct_or?;
    by simplify_eq.
Qed.

Section Sync.
Context `{Host} `{Riley} `{SceneDelegate}.

Lemma _ConvertHdMaterialNetwork2ToRman_found id N materialId0 displacementId0
    calls :
  ∃ s l,
    _ConvertHdMaterialNetwork2ToRman id N materialId0 displacementId0 calls
    = Some s
    ∧ riley s = calls ++ l
    ∧ (materialId s ≠ MaterialId_InvalidId →
       ∃ t, t ∈ terminals N
            ∧ (t.1 = HdMaterialTerminalTokens.surface
               ∨ t.1 = HdMaterialTerminalTokens.volume)
            ∧ convertible N (upstreamNode t.2))
    ∧ (displacementId s ≠ DisplacementId_InvalidId →
       ∃ t, t ∈ terminals N
            ∧ t.1 = HdMaterialTerminalTokens.displacement
            ∧ convertible N (upstreamNode t.2)).
Proof.
  unfold _ConvertHdMaterialNetwork2ToRman.
  destruct (terminals_loop_step id N (terminals N)
              {| materialId := materialId0; displacementId := displacementId0;
                 riley := calls; rman_nodes := [];
                 materialFound := false; displacementFound := false;
                 rman_diagnostics := [] |} eq_refl)
    as (s1 & l & d & -> & _ & Hl & _ & _ & _ & _ & Hmf & Hdf & _).
  simpl in *.
  destruct (_FreeDisused_spec s1) as (Hr & Hfm & Hfd & _).
  eexists _, _. split; [done|]. split; [by rewrite Hr, Hl, <- app_assoc|].
  rewrite Hfm, Hfd. split.
  - intros Hid. destruct (materialFound s1); [|done].
    by destruct (proj1 Hmf eq_refl).
  - intros Hid. destruct (displacementFound s1); [|done].
    by destruct (proj1 Hdf eq_refl).
Qed.

Lemma Sync_dirty (dirtyBits : Z) :
  Z.land dirtyBits DirtyResource ≠ 0%Z ∨ Z.land dirtyBits DirtyParams ≠ 0%Z →
  bool_decide (Z.land dirtyBits DirtyResource ≠ 0%Z)
  || bool_decide (Z.land dirtyBits DirtyParams ≠ 0%Z) = true.
Proof.
  intros [Hd|Hd].
  - by rewrite (bool_decide_eq_true_2 _ Hd).
  - rewrite (bool_decide_eq_true_2 _ Hd). apply orb_true_r.
Qed.

(** X15. [Sync] always completes and leaves the dirty bits clean; it keeps
    the prim path and the calls already made on the sink.  When neither
    the resource bit nor the params bit is set it touches neither the
    object nor the sink and reports nothing. *)
Theorem Sync_cleans_dirty_bits _filterChain
    (self : HdPrmanMaterial) (riley : list RileyCall) (dirtyBits : Z) :
  ∃ self' l ds,
    Sync _filterChain self riley dirtyBits
    = Some (self', riley ++ l, Clean, ds)
    ∧ _id self' = _id self
    ∧ (Z.land dirtyBits DirtyResource = 0%Z →
       Z.land dirtyBits DirtyParams = 0%Z →
       self' = self ∧ l = [] ∧ ds = []).
Proof.
  unfold Sync.
  destruct (decide (Z.land dirtyBits DirtyResource ≠ 0%Z
                    ∨ Z.land dirtyBits DirtyParams ≠ 0%Z)) as [Hd|Hd].
  - rewrite (Sync_dirty dirtyBits Hd).
    destruct (GetMaterialResource (_id self)) as [networkMap|typeName].
    + destruct (_ApplyFilterChain _ _ _) as [network filterErrors].
      destruct (_ConvertHdMaterialNetwork2ToRman_found (_id self) network
                  (_materialId self) (_displacementId self) riley)
        as (s & l & -> & -> & _).
      eexists _, l, _. split; [reflexivity|]. split; [done|].
      intros Hr Hp. by destruct Hd.
    + rewrite _ResetMaterial_cases.
      eexists _, _, _. split; [reflexivity|]. split; [done|].
      intros Hr Hp. by destruct Hd.
  - rewrite !bool_decide_eq_false_2 by (intros ?; apply Hd; by auto).
    simpl. exists self, [], []. by rewrite app_nil_r.
Qed.

(** X16. When a dirty material's resource does not hold a network map,
    [Sync] warns and releases the material: the only sink calls are
    deletions, [IsValid] is false afterwards, and the network stored by an
    earlier sync is kept. *)
Theorem Sync_without_network _filterChain (self : HdPrmanMaterial)
    (riley : list RileyCall) (dirtyBits : Z) (typeName : string) :
  Z.land dirtyBits DirtyResource ≠ 0%Z ∨ Z.land dirtyBits DirtyParams ≠ 0%Z →
  GetMaterialResource (_id self) = inr typeName →
  ∃ self' l,
    Sync _filterChain self riley dirtyBits
    = Some (self', riley ++ l, Clean,
            [WarnNotAMaterialNetwork (_id self) typeName])
    ∧ IsValid self' = false
    ∧ _displacementId self' = DisplacementId_InvalidId
    ∧ _materialNetwork self' = _materialNetwork self
    ∧ (∀ c, c ∈ l → RileyCall_network c = None).
Proof.
  intros Hd Hres. unfold Sync.
  rewrite (Sync_dirty dirtyBits Hd), Hres.
  rewrite _ResetMaterial_cases.
  eexists _, _. split; [reflexivity|]. unfold IsValid. simpl.
  split_and!; try done.
  intros c [Hin|Hin]%elem_of_app.
  - case_bool_decide; [|by apply elem_of_nil in Hin].
    by apply list_elem_of_singleton in Hin as ->.
  - case_bool_decide; [|by apply elem_of_nil in Hin].
    by apply list_elem_of_singleton in Hin as ->.
Qed.

(** X17. When a dirty material's resource holds a network map, [Sync]
    stores the converted and filtered network, also when the filter chain
    reported errors or nothing converted.  If the material is valid
    afterwards, the stored network has a surface or volume terminal whose
    root converted; if a displacement identifier is held afterwards, it
    has a displacement terminal whose root converted. *)
Theorem Sync_valid_has_terminal _filterChain (self : HdPrmanMaterial)
    (riley : list RileyCall) (dirtyBits : Z)
    (networkMap : HdMaterialNetworkMap) :
  Z.land dirtyBits DirtyResource ≠ 0%Z ∨ Z.land dirtyBits DirtyParams ≠ 0%Z →
  GetMaterialResource (_id self) = inl networkMap →
  ∃ self' riley' ds,
    Sync _filterChain self riley dirtyBits = Some (self', riley', Clean, ds)
    ∧ _materialNetwork self'
      = (_ApplyFilterChain _filterChain (_id self)
           (HdMaterialNetwork2ConvertFromHdMaterialNetworkMap networkMap
              (_materialNetwork self))).1
    ∧ (IsValid self' = true →
       ∃ t, t ∈ terminals (_materialNetwork self')
            ∧ (t.1 = HdMaterialTerminalTokens.surface
               ∨ t.1 = HdMaterialTerminalTokens.volume)
            ∧ convertible (_materialNetwork self') (upstreamNode t.2))
    ∧ (_displacementId self' ≠ DisplacementId_InvalidId →
       ∃ t, t ∈ terminals (_materialNetwork self')
            ∧ t.1 = HdMaterialTerminalTokens.displacement
            ∧ convertible (_materialNetwork self') (upstreamNode t.2)).
Proof.
  intros Hd Hres. unfold Sync.
  rewrite (Sync_dirty dirtyBits Hd), Hres.
  destruct (_ApplyFilterChain _ _ _) as [network filterErrors].
  destruct (_ConvertHdMaterialNetwork2ToRman_found (_id self) network
              (_materialId self) (_displacementId self) riley)
    as (s & l & -> & _ & Hm & Hdi).
  eexists _, _, _. split; [reflexivity|]. unfold IsValid. simpl.
  split_and!; [done| |done].
  intros Hvalid. apply Hm. by apply bool_decide_eq_true_1 in Hvalid.
Qed.

End Sync.

Lemma Sync_without_network_witness :
  ∃ self' l,
    @Sync Examples.host Examples.riley0 ExtraExamples.delegate []
      ExtraExamples.committed_material [] 8
    = Some (self', [] ++ l, @Clean ExtraExamples.delegate,
            [@WarnNotAMaterialNetwork
               (_id ExtraExamples.committed_material) "VtValue<empty>"])
    ∧ IsValid self' = false
    ∧ _displacementId self' = DisplacementId_InvalidId
    ∧ _materialNetwork self'
      = _materialNetwork ExtraExamples.committed_material
    ∧ (∀ c, c ∈ l → RileyCall_network c = None).
Proof.
  apply (@Sync_without_network Examples.host Examples.riley0
           ExtraExamples.delegate [] ExtraExamples.committed_material [] 8
           "VtValue<empty>").
  - left. vm_compute. intros [=].
  - reflexivity.
Defined.

Lemma Sync_valid_has_terminal_witness :
  let self := HdPrmanMaterial_new "/mat" in
  ∃ self' riley' ds,
    @Sync Examples.host Examples.riley0 ExtraExamples.network_delegate []
      self [] 4
    = Some (self', riley', @Clean ExtraExamples.network_delegate, ds)
    ∧ _materialNetwork self'
      = (@_ApplyFilterChain ExtraExamples.network_delegate [] (_id self)
           (@HdMaterialNetwork2ConvertFromHdMaterialNetworkMap
              ExtraExamples.network_delegate
              (Examples.diamond "PxrManifold2D") (_materialNetwork self))).1
    ∧ (IsValid self' = true →
       ∃ t, t ∈ terminals (_materialNetwork self')
            ∧ (t.1 = HdMaterialTerminalTokens.surface
               ∨ t.1 = HdMaterialTerminalTokens.volume)
            ∧ @convertible Examples.host (_materialNetwork self')
                (upstreamNode t.2))
    ∧ (_displacementId self' ≠ DisplacementId_InvalidId →
       ∃ t, t ∈ terminals (_materialNetwork self')
            ∧ t.1 = HdMaterialTerminalTokens.displacement
            ∧ @convertible Examples.host (_materialNetwork self')
                (upstreamNode t.2)).
Proof.
  intros self.
  apply (@Sync_valid_has_terminal Examples.host Examples.riley0
           ExtraExamples.network_delegate [] self [] 4
           (Examples.diamond "PxrManifold2D")).
  - right. vm_compute. intros [=].
  - reflexivity.
Defined.

End HdPrmanMaterialProofs.

(** ** Witnesses for the converter *)

Module MaterialExtrasWitnesses.
Import Material MaterialGraph HdPrmanMaterial MaterialExtras.

Lemma missing_root_reported_witness :
  @HdPrman_ConvertHdMaterialNetwork2ToRmanNodes Examples.host
    (Examples.diamond "PxrManifold2D") "/mat/Nowhere" []
  = Some (false, [], [WarnUnknownMaterialNode "/mat/Nowhere"]).
Proof.
  apply (@missing_root_reported Examples.host
           (Examples.diamond "PxrManifold2D") "/mat/Nowhere" []).
  vm_compute. reflexivity.
Defined.

Lemma undeclared_parameter_ignored_witness :
  let N := Examples.diamond "PxrManifold2D" in
  let node := ExtraExamples.surface_with_stray_parameter in
  (∀ snType,
     (@_ConvertParam Examples.host "/mat/Surface" node Examples.PxrSurface
        snType ("userNote", VtString "draft")).1 = [])
  ∧ (@_MakeShadingNode Examples.host N "/mat/Surface" node).1
    = (@_MakeShadingNode Examples.host N "/mat/Surface"
         (without_parameter node ([("quality", VtString "high")] ++ []))).1
  ∧ (nodeTypeId node = _tokens.PxrDisplace →
     is_Some (GetShaderInput Examples.PxrSurface !! "userNote") →
     @_MakeShadingNode Examples.host N "/mat/Surface" node
     = @_MakeShadingNode Examples.host N "/mat/Surface"
         (without_parameter node ([("quality", VtString "high")] ++ []))).
Proof.
  intros N node.
  apply (@undeclared_parameter_ignored Examples.host N "/mat/Surface" node
           [("quality", VtString "high")] "userNote" (VtString "draft") []
           Examples.PxrSurface).
  - reflexivity.
  - vm_compute. reflexivity.
  - left. vm_compute. reflexivity.
Defined.

Lemma no_terminal_converts_witness :
  ∃ s,
    @_ConvertHdMaterialNetwork2ToRman Examples.host Examples.riley0 "/mat"
      ExtraExamples.rootless (MaterialId_Of 3) DisplacementId_InvalidId []
    = Some s
    ∧ riley s = [] ++ [DeleteMaterial (MaterialId_Of 3);
                       DeleteDisplacement DisplacementId_InvalidId]
    ∧ materialId s = MaterialId_InvalidId
    ∧ displacementId s = DisplacementId_InvalidId
    ∧ (terminals ExtraExamples.rootless ≠ [] →
       ErrorFailedToConvertNodes "/mat" ∈ rman_diagnostics s)
    ∧ (terminals ExtraExamples.rootless = [] → rman_diagnostics s = []).
Proof.
  apply (@no_terminal_converts Examples.host Examples.riley0 "/mat"
           ExtraExamples.rootless (MaterialId_Of 3) DisplacementId_InvalidId
           []).
  intros t Ht. apply list_elem_of_singleton in Ht. subst t.
  intros (node & Hnode & _). vm_compute in Hnode. discriminate Hnode.
Defined.

End MaterialExtrasWitnesses.

(** ** HdStGLSLFXShader::Reload with a valid file *)

Module GlslfxShaderExtras.
Import GlslfxShader.

(** X18. After [Reload] with a valid file, the shader holds the new glslfx
    object and the sources read back for the fragment and the geometry
    stage are the new file's surface and displacement source.  The base
    class is assumed to hand back what was set for a stage, and not to
    change the fragment source when the geometry source is set. *)
Theorem Reload_registers_new_sources `{ShaderBase}
    (self : HdStGLSLFXShader) :
  (∀ v b, GetSource fragmentShader (_SetSource fragmentShader v b) = v) →
  (∀ v b, GetSource geometryShader (_SetSource geometryShader v b) = v) →
  (∀ v b, GetSource fragmentShader (_SetSource geometryShader v b)
          = GetSource fragmentShader b) →
  IsValid (HioGlslfx_new (GetFilePath (_glslfx self))) = true →
  _glslfx (Reload self) = HioGlslfx_new (GetFilePath (_glslfx self))
  ∧ GetSource fragmentShader (base (Reload self))
    = GetSurfaceSource (HioGlslfx_new (GetFilePath (_glslfx self)))
  ∧ GetSource geometryShader (base (Reload self))
    = GetDisplacementSource (HioGlslfx_new (GetFilePath (_glslfx self))).
Proof.
  intros Hfrag Hgeom Hframe Hvalid. unfold Reload. rewrite Hvalid. simpl.
  split_and!; [done| |by rewrite Hgeom].
  by rewrite Hframe, Hfrag.
Qed.

Lemma Reload_registers_new_sources_witness :
  let self := ExtraExamples.staged_shader in
  let new :=
    @HioGlslfx_new ExtraExamples.staged_shader_base
      (GetFilePath (_glslfx self)) in
  _glslfx (@Reload ExtraExamples.staged_shader_base self) = new
  ∧ @GetSource ExtraExamples.staged_shader_base
      (@fragmentShader ExtraExamples.staged_shader_base)
      (base (@Reload ExtraExamples.staged_shader_base self))
    = GetSurfaceSource new
  ∧ @GetSource ExtraExamples.staged_shader_base
      (@geometryShader ExtraExamples.staged_shader_base)
      (base (@Reload ExtraExamples.staged_shader_base self))
    = GetDisplacementSource new.
Proof.
  intros self new.
  apply (@Reload_registers_new_sources ExtraExamples.staged_shader_base self).
  - intros v b. reflexivity.
  - intros v b. reflexivity.
  - intros v b. reflexivity.
  - reflexivity.
Defined.

End GlslfxShaderExtras.

(** ** HdxOitVolumeRenderTask: the guard and the restore *)

Module OitVolumeRenderTaskExtras.
Import OitVolumeRenderTask OitVolumeRenderTaskPrepare OitVolumeRenderTaskProofs.

(** X19. What the two GL flags are after the pass, with nothing assumed
    of the base-class [Execute]: multisampling is enabled if it was enabled
    before or the pass left it enabled; point smoothing is enabled if it
    was enabled before and the pass left it enabled.  The restore touches
    nothing on the Hydra side. *)
Theorem Execute_flags_after_pass `{Hydra} (_isOitEnabled : bool)
    (w w' : World) :
  Execute _isOitEnabled w = (Rendered, w') →
  ∃ w1 w2,
    _Setup _isOitEnabled w = (None, w1)
    ∧ w2 = HdxRenderTask_Execute (_SaveAndOverride w1).2
    ∧ multisample w'.1 = multisample w1.1 || multisample w2.1
    ∧ point_smooth w'.1 = point_smooth w1.1 && point_smooth w2.1
    ∧ w'.2 = w2.2.
Proof.
  intros Hrun.
  destruct (Execute_Rendered _ _ _ Hrun) as (w1 & Hsetup & ->).
  exists w1, (HdxRenderTask_Execute (_SaveAndOverride w1).2).
  pose proof (_SaveAndOverride_spec w1) as Hsave.
  destruct (_SaveAndOverride w1) as [old w2]; simpl.
  destruct Hsave as (-> & _).
  pose proof (_Restore_spec (multisample w1.1, point_smooth w1.1)
                (HdxRenderTask_Execute w2)) as (Hr1 & Hr2 & Hr3).
  simpl in Hr1, Hr2, Hr3.
  split_and!; [done|done| | |done].
  - rewrite Hr1. by destruct (multisample w1.1).
  - rewrite Hr2. by destruct (point_smooth w1.1).
Qed.

Lemma Execute_flags_after_pass_witness :
  let w := ExtraExamples.gl_world in
  ∃ w1 w2,
    @_Setup Examples.hydra0 true w = (None, w1)
    ∧ w2 = @HdxRenderTask_Execute Examples.hydra0
             (@_SaveAndOverride Examples.hydra0 w1).2
    ∧ multisample w.1 = multisample w1.1 || multisample w2.1
    ∧ point_smooth w.1 = point_smooth w1.1 && point_smooth w2.1
    ∧ w.2 = w2.2.
Proof.
  intros w.
  apply (@Execute_flags_after_pass Examples.hydra0 true w w).
  reflexivity.
Defined.

(** X20. With order-independent transparency disabled the task is inert:
    [_Sync], [Prepare] and [Execute] make no call and leave the GL context
    and the Hydra side as they are.  [Prepare] and [Execute] do the same
    when the task has no draw items. *)
Theorem task_inert_without_oit `{HydraPrepare} (_isOitEnabled : bool)
    (w : World) :
  _isOitEnabled = false ∨ _HasDrawItems w.2 = false →
  Execute _isOitEnabled w = (Skipped, w)
  ∧ Prepare _isOitEnabled w = (tt, w)
  ∧ (_isOitEnabled = false → _Sync _isOitEnabled w = (tt, w)).
Proof.
  intros Hguard.
  unfold Execute, Prepare, _Sync, _Setup, bind, ask, ret.
  destruct _isOitEnabled; simpl.
  - destruct Hguard as [?|Hnone]; [done|]. by rewrite Hnone.
  - done.
Qed.

Lemma task_inert_without_oit_witness :
  let w := ExtraExamples.gl_world in
  @Execute Examples.hydra0 false w = (Skipped, w)
  ∧ @Prepare Examples.hydra0 ExtraExamples.hydra_prepare0 false w = (tt, w)
  ∧ (false = false
     → @_Sync Examples.hydra0 ExtraExamples.hydra_prepare0 false w = (tt, w)).
Proof.
  intros w.
  apply (@task_inert_without_oit Examples.hydra0
           ExtraExamples.hydra_prepare0 false w).
  left. reflexivity.
Defined.

End OitVolumeRenderTaskExtras.

(** ** The hdx package paths *)

Module HdxPackageProofs.
Import HdxPackage.

Section Proofs.
Context (TfStringCatPaths : string → string → string).

(** X21. Each shader path is looked up once: the first call asks the
    plugin system for the file under [shaders], reports a failed
    verification exactly when the answer is empty, and stores the answer
    (empty or not); every later call returns the stored path without
    asking, whatever the plugin system would answer then. *)
Theorem shader_path_resolved_once (file : string) (w1 w2 : Resources) :
  ∃ path failures,
    HdxPackageShader TfStringCatPaths file w1 None
    = (path, Some path, failures)
    ∧ path = PlugFindPluginResource w1 (TfStringCatPaths "shaders" file)
    ∧ (failures = [] ↔ path ≠ EmptyString)
    ∧ HdxPackageShader TfStringCatPaths file w2 (Some path)
      = (path, Some path, []).
Proof.
  eexists _, _. split; [reflexivity|]. simpl.
  split_and!; [done| |done].
  case_bool_decide; split; done.
Qed.

(** X22. The default dome light texture is chosen once: the first call
    asks the image registry whether [StinsonBeach.tex] is supported and
    looks up that file under [textures] if so, [StinsonBeach.exr]
    otherwise; later calls return the same path and leave the statics as
    they are, whatever the registry and the plugin system answer then. *)
Theorem dome_light_texture_chosen_once (w1 w2 : Resources) :
  ∃ statics failures,
    HdxPackageDefaultDomeLightTexture TfStringCatPaths w1
      {| useTex := None; domeLightTexture := None |}
    = (PlugFindPluginResource w1
         (TfStringCatPaths "textures"
            (if IsSupportedImageFile w1 "StinsonBeach.tex"
             then "StinsonBeach.tex" else "StinsonBeach.exr")),
       statics, failures)
    ∧ useTex statics = Some (IsSupportedImageFile w1 "StinsonBeach.tex")
    ∧ HdxPackageDefaultDomeLightTexture TfStringCatPaths w2 statics
      = (PlugFindPluginResource w1
           (TfStringCatPaths "textures"
              (if IsSupportedImageFile w1 "StinsonBeach.tex"
               then "StinsonBeach.tex" else "StinsonBeach.exr")),
         statics, []).
Proof.
  unfold HdxPackageDefaultDomeLightTexture. simpl.
  destruct (IsSupportedImageFile w1 "StinsonBeach.tex"); simpl;
    eexists _, _; done.
Qed.

End Proofs.

End HdxPackageProofs.
